(** * A shallow embedding of app.js (browser PDF library catalog)

    The development follows the layout of the source file:
    numbers and values of the host language, string utilities, the
    application state, persistence, manifest loading, the
    filter/sort/render pipeline, the viewer, the editor, the
    configuration panel and the boot sequence.

    Conventions of the model.
    - A finite JavaScript number is represented by its exact rational
      value ([Qc]); rounding to binary64, overflow to an infinity and
      the sign of zero are not represented.  [NaN] and the two
      infinities are separate values.
    - Strings are sequences of code units below 256 ([string]); the
      white space of [trim], [parseInt] and [parseFloat] is the white
      space among them, the no-break space included.
    - A text handed to [JSON.parse] is represented by what it parses to
      ([Json v]) or by the fact that it does not parse ([Unparseable]).
    - Arrays that the program holds in variables live in a store of
      cells and are updated in place; the values inside a cell are
      immutable trees (no statement of app.js assigns to a property of a
      catalog document).
    - Exceptions do not roll the state back: a computation returns an
      outcome together with the state it reached.
    - Built-ins whose result depends on the engine, the locale, a
      vendored library or the markup of the page are collected in the
      class [Host].
    - The page is the one of index.html: every element that app.js looks
      up exists; writes to [localStorage] succeed.  What a form control
      makes of a string assigned to it and what the HTML parser makes
      of markup that is not plain text belong to the host.
    - An [async] function runs to its end once the awaited result is
      there; the result of the fetch, the text of the imported file and
      the answers of PDF.js are arguments.
    - [formatBytes], [debounce], the canvas of the viewer and the
      handler of [bindEvents] for the search box are not represented. *)

From Stdlib Require Import QArith Qcanon ZArith String Ascii List Lia.
From Stdlib Require Import DecimalString Sorted.
From stdpp Require Import base option numbers list strings gmap.

Local Open Scope list_scope.

(** ** Numbers *)

Module Num.

Inductive num : Type :=
| NaN
| PosInf
| NegInf
| Fin (q : Qc).

Definition of_Z (z : Z) : num := Fin (Qc_of_Z z).

Definition zero : num := of_Z 0.

(** [Number.isFinite] on a number. *)
Definition isFinite (n : num) : bool :=
  match n with Fin _ => true | _ => false end.

(** ToBoolean on a number: [0] and [NaN] are falsy. *)
Definition truthy (n : num) : bool :=
  match n with
  | NaN => false
  | Fin q => negb (bool_decide (q = 0%Qc))
  | _ => true
  end.

(** [a <= b]; any comparison with [NaN] is false. *)
Definition le (a b : num) : bool :=
  match a, b with
  | NaN, _ | _, NaN => false
  | NegInf, _ => true
  | _, PosInf => true
  | PosInf, _ => false
  | _, NegInf => false
  | Fin x, Fin y => bool_decide (x ≤ y)%Qc
  end.

(** Strict equality of numbers: [NaN] differs from itself. *)
Definition eqb (a b : num) : bool :=
  match a, b with
  | PosInf, PosInf | NegInf, NegInf => true
  | Fin x, Fin y => bool_decide (x = y)
  | _, _ => false
  end.

(** SameValueZero, the equality of [Set]: [NaN] equals itself. *)
Definition same_value_zero (a b : num) : bool :=
  match a, b with
  | NaN, NaN => true
  | _, _ => eqb a b
  end.

Definition sign_pos (q : Qc) : bool := bool_decide (0 < q)%Qc.

(** [a / b]. *)
Definition div (a b : num) : num :=
  match a, b with
  | NaN, _ | _, NaN => NaN
  | Fin x, Fin y =>
      if bool_decide (y = 0%Qc)
      then (if bool_decide (x = 0%Qc) then NaN
            else if sign_pos x then PosInf else NegInf)
      else Fin (x / y)%Qc
  | Fin _, _ => zero
  | PosInf, Fin y => if bool_decide (y < 0)%Qc then NegInf else PosInf
  | NegInf, Fin y => if bool_decide (y < 0)%Qc then PosInf else NegInf
  | _, _ => NaN
  end.

(** [a - b]. *)
Definition sub (a b : num) : num :=
  match a, b with
  | NaN, _ | _, NaN => NaN
  | Fin x, Fin y => Fin (x - y)%Qc
  | PosInf, PosInf | NegInf, NegInf => NaN
  | PosInf, _ => PosInf
  | NegInf, _ => NegInf
  | Fin _, PosInf => NegInf
  | Fin _, NegInf => PosInf
  end.

(** [a * b] for a finite rational [b] (used for [x * -1]). *)
Definition mul_const (a : num) (c : Qc) : num :=
  match a with
  | NaN => NaN
  | Fin x => Fin (x * c)%Qc
  | PosInf =>
      if bool_decide (c = 0%Qc) then NaN
      else if sign_pos c then PosInf else NegInf
  | NegInf =>
      if bool_decide (c = 0%Qc) then NaN
      else if sign_pos c then NegInf else PosInf
  end.

(** [Math.min] and [Math.max] of two numbers. *)
Definition min (a b : num) : num :=
  match a, b with
  | NaN, _ | _, NaN => NaN
  | _, _ => if le a b then a else b
  end.

Definition max (a b : num) : num :=
  match a, b with
  | NaN, _ | _, NaN => NaN
  | _, _ => if le a b then b else a
  end.

End Num.

Export Num (num, NaN, PosInf, NegInf, Fin).

(** ** Values *)

Local Unset Elimination Schemes.
Inductive value : Type :=
| VUndef
| VNull
| VBool (b : bool)
| VNum (n : num)
| VStr (s : string)
| VArr (elems : list value)
| VObj (props : list (string * value)).
Local Set Elimination Schemes.

(** Induction over values, with the hypotheses for the elements of an
    array and for the property values of an object. *)
Fixpoint value_ind (P : value → Prop)
    (Hundef : P VUndef) (Hnull : P VNull)
    (Hbool : ∀ b, P (VBool b)) (Hnum : ∀ n, P (VNum n))
    (Hstr : ∀ s, P (VStr s))
    (Harr : ∀ l, Forall P l → P (VArr l))
    (Hobj : ∀ ps, Forall (λ kv, P kv.2) ps → P (VObj ps))
    (v : value) : P v :=
  let rec := value_ind P Hundef Hnull Hbool Hnum Hstr Harr Hobj in
  match v with
  | VUndef => Hundef
  | VNull => Hnull
  | VBool b => Hbool b
  | VNum n => Hnum n
  | VStr s => Hstr s
  | VArr l =>
      Harr l ((fix go (l : list value) : Forall P l :=
                 match l with
                 | [] => @List.Forall_nil _ P
                 | x :: l' => @List.Forall_cons _ P x l' (rec x) (go l')
                 end) l)
  | VObj ps =>
      Hobj ps ((fix go (ps : list (string * value))
                  : Forall (λ kv, P kv.2) ps :=
                  match ps with
                  | [] => @List.Forall_nil _ _
                  | kv :: ps' => @List.Forall_cons _ _ kv ps' (rec kv.2) (go ps')
                  end) ps)
  end.

Definition VInt (z : Z) : value := VNum (Num.of_Z z).

(** Exceptions raised by the engine or by the program itself. *)
Inductive exn : Type :=
| TypeError
| SyntaxError
| Error (message : string).

Inductive outcome (A : Type) : Type :=
| Done (a : A)
| Threw (e : exn).
Arguments Done {A} a.
Arguments Threw {A} e.

(** ToBoolean. *)
Definition truthy (v : value) : bool :=
  match v with
  | VUndef | VNull => false
  | VBool b => b
  | VNum n => Num.truthy n
  | VStr s => negb (bool_decide (s = ""))
  | VArr _ | VObj _ => true
  end.

(** [typeof v === 'number'] *)
Definition is_number (v : value) : bool :=
  match v with VNum _ => true | _ => false end.

(** [Number.isFinite(v)]: false for everything that is not a number. *)
Definition Number_isFinite (v : value) : bool :=
  match v with VNum n => Num.isFinite n | _ => false end.

(** [Array.isArray(v)] *)
Definition Array_isArray (v : value) : bool :=
  match v with VArr _ => true | _ => false end.

(** [a === b].  Two arrays or two objects are equal only when they are
    the same object; values are trees here, so a comparison of two
    non-primitive values is answered [false] (distinct objects, as
    after [JSON.parse]). *)
Definition strict_eq (a b : value) : bool :=
  match a, b with
  | VUndef, VUndef | VNull, VNull => true
  | VBool x, VBool y => bool_decide (x = y)
  | VNum x, VNum y => Num.eqb x y
  | VStr x, VStr y => bool_decide (x = y)
  | _, _ => false
  end.

(** SameValueZero, used by [Set]. *)
Definition same_value_zero (a b : value) : bool :=
  match a, b with
  | VNum x, VNum y => Num.same_value_zero x y
  | _, _ => strict_eq a b
  end.

Fixpoint assoc (k : string) (ps : list (string * value)) : option value :=
  match ps with
  | [] => None
  | (k', v) :: ps' => if bool_decide (k = k') then Some v else assoc k ps'
  end.

(** [v.k] for the property names app.js reads (none is an index or a
    method name): reading from [undefined] or [null] throws; a missing
    property is [undefined]; strings and arrays have a [length]. *)
Definition get (v : value) (k : string) : outcome value :=
  match v with
  | VUndef | VNull => Threw TypeError
  | VObj ps => Done (default VUndef (assoc k ps))
  | VStr s =>
      if bool_decide (k = "length") then Done (VInt (Z.of_nat (String.length s)))
      else Done VUndef
  | VArr l =>
      if bool_decide (k = "length") then Done (VInt (Z.of_nat (length l)))
      else Done VUndef
  | VBool _ | VNum _ => Done VUndef
  end.

(** Writing property [k] of an object literal or of a spread copy: an
    existing key keeps its position, a new key goes last. *)
Fixpoint set_prop (k : string) (v : value) (ps : list (string * value))
  : list (string * value) :=
  match ps with
  | [] => [(k, v)]
  | (k', v') :: ps' =>
      if bool_decide (k = k') then (k, v) :: ps' else (k', v') :: set_prop k v ps'
  end.

(** ** Strings *)

Module Str.

(** White space skipped by [trim], [parseInt] and [parseFloat]: among
    the code units below 256, tab, line feed, vertical tab, form feed,
    carriage return, space and the no-break space (160). *)
Definition is_space (c : ascii) : bool :=
  let n := nat_of_ascii c in
  ((9 <=? n) && (n <=? 13)) || (n =? 32) || (n =? 160).

Fixpoint trimStart (s : string) : string :=
  match s with
  | String c r => if is_space c then trimStart r else s
  | EmptyString => s
  end.

(** Drops the white space at the end: a run of white space is kept only
    when something else follows it. *)
Fixpoint trimEnd (s : string) : string :=
  match s with
  | EmptyString => EmptyString
  | String c r =>
      match trimEnd r with
      | EmptyString => if is_space c then EmptyString else String c EmptyString
      | r' => String c r'
      end
  end.

(** [s.trim()] *)
Definition trim (s : string) : string := trimEnd (trimStart s).

(** [s.split(sep)] for a one-character separator: the pieces between the
    separators, never the empty list. *)
Fixpoint split (sep : ascii) (s : string) : list string :=
  match s with
  | EmptyString => [EmptyString]
  | String c r =>
      if bool_decide (c = sep) then EmptyString :: split sep r
      else match split sep r with
           | p :: ps => String c p :: ps
           | [] => [String c EmptyString]
           end
  end.

(** [arr.pop()] as an expression: the last element, [undefined] for the
    empty array. *)
Definition pop {A} (l : list A) : option A := last l.

Fixpoint prefix (p s : string) : bool :=
  match p, s with
  | EmptyString, _ => true
  | String a p', String b s' => bool_decide (a = b) && prefix p' s'
  | String _ _, EmptyString => false
  end.

(** [s.includes(q)] *)
Fixpoint includes (s q : string) : bool :=
  prefix q s ||
  match s with
  | EmptyString => false
  | String _ s' => includes s' q
  end.

(** [parts.join(sep)] on strings. *)
Fixpoint join (sep : string) (parts : list string) : string :=
  match parts with
  | [] => ""
  | [p] => p
  | p :: ps => p +:+ sep +:+ join sep ps
  end.

Definition digit (c : ascii) : option Z :=
  let n := nat_of_ascii c in
  if (48 <=? n) && (n <=? 57) then Some (Z.of_nat (n - 48)) else None.

(** The longest prefix of decimal digits, and what follows it. *)
Fixpoint digits (s : string) : list Z * string :=
  match s with
  | EmptyString => ([], s)
  | String c r =>
      match digit c with
      | Some d => let '(ds, rest) := digits r in (d :: ds, rest)
      | None => ([], s)
      end
  end.

(** The number written by a list of decimal digits. *)
Definition digits_value (ds : list Z) : Z :=
  fold_left (λ acc d, 10 * acc + d)%Z ds 0%Z.

(** An optional sign: [true] for a minus. *)
Definition sign (s : string) : bool * string :=
  match s with
  | String "-" r => (true, r)
  | String "+" r => (false, r)
  | _ => (false, s)
  end.

Definition signed (neg : bool) (z : Z) : Z := if neg then (- z)%Z else z.

(** [parseInt(s, 10)]: white space, an optional sign, then the longest
    run of decimal digits; [NaN] when there is no digit. *)
Definition parseInt (s : string) : num :=
  let '(neg, r) := sign (trimStart s) in
  match digits r with
  | ([], _) => NaN
  | (ds, _) => Num.of_Z (signed neg (digits_value ds))
  end.

(** [m * 10 ^ e] as an exact rational. *)
Definition scale10 (m e : Z) : Qc :=
  if (0 <=? e)%Z then Qc_of_Z (m * 10 ^ e)
  else Q2Qc (Qmake m (Z.to_pos (10 ^ (- e)))).

(** The exponent part of a decimal literal, when it is complete:
    [e] or [E], an optional sign, at least one digit. *)
Definition exponent (s : string) : Z :=
  match s with
  | String c r =>
      if bool_decide (c = "e"%char) || bool_decide (c = "E"%char) then
        let '(neg, r') := sign r in
        match digits r' with
        | ([], _) => 0%Z
        | (ds, _) => signed neg (digits_value ds)
        end
      else 0%Z
  | EmptyString => 0%Z
  end.

(** [parseFloat(s)]: white space, an optional sign, then the longest
    prefix that is a decimal literal ([Infinity], or digits with an
    optional fraction and an optional exponent); [NaN] when there is
    none. *)
Definition parseFloat (s : string) : num :=
  let '(neg, r) := sign (trimStart s) in
  if prefix "Infinity" r then (if neg then NegInf else PosInf)
  else
    let '(ip, r1) := digits r in
    let '(fp, r2) :=
      match r1 with
      | String "." r' => digits r'
      | _ => ([], r1)
      end in
    match ip, fp with
    | [], [] => NaN
    | _, _ =>
        let m := digits_value (ip ++ fp) in
        let e := (exponent r2 - Z.of_nat (length fp))%Z in
        Fin (scale10 (signed neg m) e)
    end.

End Str.

(** ** JSON texts *)

(** The content of a storage entry, a response body or a file. *)
Inductive text : Type :=
| Unparseable (s : string)
| Json (v : value).

(** What [JSON.stringify] writes for a value nested in the argument:
    a non-finite number becomes [null], an [undefined] array element
    becomes [null], a property whose value is [undefined] is left out. *)
Fixpoint to_json (v : value) : value :=
  match v with
  | VNum n => if Num.isFinite n then v else VNull
  | VArr l =>
      VArr (map (λ x, match x with VUndef => VNull | _ => to_json x end) l)
  | VObj ps =>
      VObj ((fix props (ps : list (string * value)) : list (string * value) :=
               match ps with
               | [] => []
               | (k, VUndef) :: ps' => props ps'
               | (k, x) :: ps' => (k, to_json x) :: props ps'
               end) ps)
  | _ => v
  end.

(** [JSON.stringify(v)]; for [undefined] the result is not a JSON text
    (the consumer receives the word "undefined"). *)
Definition JSON_stringify (v : value) : text :=
  match v with
  | VUndef => Unparseable "undefined"
  | _ => Json (to_json v)
  end.

(** [JSON.parse(t)] *)
Definition JSON_parse (t : text) : outcome value :=
  match t with
  | Json v => Done v
  | Unparseable _ => Threw SyntaxError
  end.

(** ToBoolean on a text: only the empty string is falsy. *)
Definition text_truthy (t : text) : bool :=
  match t with
  | Unparseable s => negb (bool_decide (s = ""))
  | Json _ => true
  end.

(** A value that [JSON.stringify] followed by [JSON.parse] gives back
    unchanged: no [undefined] and no non-finite number inside. *)
Fixpoint json_stable (v : value) : bool :=
  match v with
  | VUndef => false
  | VNum n => Num.isFinite n
  | VArr l => forallb json_stable l
  | VObj ps => forallb (λ kv, json_stable kv.2) ps
  | _ => true
  end.

(** ** The host: engine, locale and vendored libraries *)

Class Host : Type := {
  (** Fuse.js: an index over a collection, built with a threshold, and
      the documents of the results of a query, best match first. *)
  FuseIndex : Type;
  Fuse_new : value → num → outcome FuseIndex;
  Fuse_search : FuseIndex → string → outcome (list value);
  (** String and number built-ins that depend on Unicode tables, the
      locale or the engine's number formatting. *)
  toLowerCase : string → string;
  localeCompare : string → string → num;
  Number_toString : num → string;
  StringToNumber : string → num;
  encodeURI : string → string;
  (** The page.  [control_value id s] is what the form control [#id]
      holds once [s] has been assigned to its [value]: a single-line
      input drops the line breaks of [s], a text area normalises them,
      and which of these a control is is decided by index.html.
      [parse_options m] lists the values of the option elements that
      the HTML parser makes of the markup [m] assigned to the
      [innerHTML] of a select. *)
  control_value : string → string → string;
  parse_options : string → list string;
  (** The result of the n-th call of [uniqueId()] and of [Date.now()]. *)
  uniqueId_at : nat → string;
  Date_now_at : nat → Z;
  uniqueId_nonempty : ∀ t, uniqueId_at t ≠ "";
  Date_now_nonzero : ∀ t, Date_now_at t ≠ 0%Z;
}.

(** ** Computations *)

(** The outcome monad, for expressions that read values and may throw. *)
Definition obind {A B} (o : outcome A) (k : A → outcome B) : outcome B :=
  match o with
  | Done a => k a
  | Threw e => Threw e
  end.

Notation "'do' x ← o ; k" := (obind o (λ x, k))
  (at level 10, x name, o at level 100, k at level 200).

Fixpoint mapO {A B} (f : A → outcome B) (l : list A) : outcome (list B) :=
  match l with
  | [] => Done []
  | x :: l' => do y ← f x; do ys ← mapO f l'; Done (y :: ys)
  end.

Fixpoint filterO {A} (f : A → outcome bool) (l : list A) : outcome (list A) :=
  match l with
  | [] => Done []
  | x :: l' =>
      do keep ← f x; do ys ← filterO f l';
      Done (if keep then x :: ys else ys)
  end.

(** [l.some(f)]: stops at the first element that satisfies [f]. *)
Fixpoint someO {A} (f : A → outcome bool) (l : list A) : outcome bool :=
  match l with
  | [] => Done false
  | x :: l' => do b ← f x; if b then Done true else someO f l'
  end.


(** [a || b] where [b] is already a value. *)
Definition or_else (a b : value) : value := if truthy a then a else b.

(** The receiver of an array method ([map], [flatMap], [some], [join],
    [findIndex]): anything that is not an array has no such method. *)
Definition as_array (v : value) : outcome (list value) :=
  match v with
  | VArr l => Done l
  | _ => Threw TypeError
  end.

(** The receiver of a string method ([split], [toLowerCase],
    [localeCompare]). *)
Definition as_string (v : value) : outcome string :=
  match v with
  | VStr s => Done s
  | _ => Threw TypeError
  end.

(** [function filenameFromPath(p) { return p.split('/').pop(); }] *)
Definition filenameFromPath (p : value) : outcome value :=
  do s ← as_string p;
  Done (default VUndef (VStr <$> Str.pop (Str.split "/" s))).

(** The decimal name of an index, as a property key. *)
Definition index_key (i : nat) : string :=
  NilEmpty.string_of_uint (Nat.to_uint i).

(** The own enumerable properties copied by [{...v}]. *)
Definition spread_props (v : value) : list (string * value) :=
  match v with
  | VObj ps => ps
  | VArr l => imap (λ i x, (index_key i, x)) l
  | VStr s =>
      imap (λ i c, (index_key i, VStr (String c EmptyString)))
           (list_ascii_of_string s)
  | _ => []
  end.

(** The elements produced by [[...v]]: arrays and strings are iterable. *)
Definition spread_elems (v : value) : outcome (list value) :=
  match v with
  | VArr l => Done l
  | VStr s =>
      Done (map (λ c, VStr (String c EmptyString)) (list_ascii_of_string s))
  | _ => Threw TypeError
  end.

(** [new Set(l)]: the elements in insertion order, without repetition. *)
Fixpoint Set_of (l : list value) : list value :=
  match l with
  | [] => []
  | x :: l' =>
      x :: filter (λ y, same_value_zero x y = false) (Set_of l')
  end.

Definition Set_has (s : list value) (x : value) : bool :=
  existsb (same_value_zero x) s.

(** [arr.sort(cmp)] on the elements: [undefined] elements go last
    without being compared; the others are ordered by a stable insertion
    sort, [cmp a b > 0] placing [a] after [b].  (The order in which an
    engine calls the comparator is its own; for a comparator that is a
    consistent preorder the result is this one.) *)
Definition positive_result (n : num) : bool :=
  match n with
  | PosInf => true
  | Fin q => Num.sign_pos q
  | _ => false
  end.

Fixpoint insert_sorted (cmp : value → value → outcome num)
    (x : value) (l : list value) : outcome (list value) :=
  match l with
  | [] => Done [x]
  | y :: l' =>
      do c ← cmp x y;
      if positive_result c
      then do r ← insert_sorted cmp x l'; Done (y :: r)
      else Done (x :: l)
  end.

Fixpoint sort_defined (cmp : value → value → outcome num)
    (l : list value) : outcome (list value) :=
  match l with
  | [] => Done []
  | x :: l' => do s ← sort_defined cmp l'; insert_sorted cmp x s
  end.

Definition is_undef (v : value) : bool :=
  match v with VUndef => true | _ => false end.

Definition Array_sort (cmp : value → value → outcome num)
    (l : list value) : outcome (list value) :=
  do s ← sort_defined cmp (filter (λ v, is_undef v = false) l);
  Done (s ++ filter (λ v, is_undef v = true) l).

(** A statement sequence over a state [S]: it ends normally or throws,
    and in both cases leaves the state it reached. *)
Definition SE (S A : Type) : Type := S → outcome A * S.

Definition ret {S A} (a : A) : SE S A := λ st, (Done a, st).

Definition bind {S A B} (m : SE S A) (k : A → SE S B) : SE S B :=
  λ st, match m st with
        | (Done a, st') => k a st'
        | (Threw e, st') => (Threw e, st')
        end.

Definition lift {S A} (o : outcome A) : SE S A := λ st, (o, st).

Definition gets {S A} (f : S → A) : SE S A := λ st, (Done (f st), st).

Definition modify {S} (f : S → S) : SE S unit := λ st, (Done tt, f st).

(** [try { m } catch (err) { h err }] *)
Definition try_catch {S A} (m : SE S A) (h : exn → SE S A) : SE S A :=
  λ st, match m st with
        | (Done a, st') => (Done a, st')
        | (Threw e, st') => h e st'
        end.

Notation "'run' x ← m ; k" := (bind m (λ x, k))
  (at level 10, x name, m at level 100, k at level 200).
Notation "'exec' m ; k" := (bind m (λ _, k))
  (at level 10, m at level 100, k at level 200).

(** [l.map(f)] for a callback with effects: left to right, stopping at
    the first exception. *)
Fixpoint mapSE {S A B} (f : A → SE S B) (l : list A) : SE S (list B) :=
  match l with
  | [] => ret []
  | x :: l' => run y ← f x; run ys ← mapSE f l'; ret (y :: ys)
  end.

(** ** Configuration and state *)

(** [DEFAULT_CONFIG] and [state.config]: the four settings, with the
    types the defaults and the Configuration Panel give them. *)
Record Config : Type := {
  rootFolder : string;
  fuzzySearch : bool;
  searchThreshold : num;
  maxViewerSizeMB : num;
}.

Definition DEFAULT_CONFIG : Config := {|
  rootFolder := "Books";
  fuzzySearch := true;
  searchThreshold := Fin (Q2Qc (4 # 10));
  maxViewerSizeMB := Num.of_Z 10;
|}.

(** The object that [JSON.stringify(state.config)] serializes. *)
Definition config_value (c : Config) : value :=
  VObj [("rootFolder", VStr (rootFolder c));
        ("fuzzySearch", VBool (fuzzySearch c));
        ("searchThreshold", VNum (searchThreshold c));
        ("maxViewerSizeMB", VNum (maxViewerSizeMB c))].

(** [state.pdf]; [minScale], [maxScale] and [step] never change and are
    the constants below. *)
Record Pdf : Type := {
  url : value;
  pdfDoc : bool;
  pageNum : Z;
  pageCount : Z;
  scale : Qc;
  title : value;
}.

Definition minScale : Qc := Q2Qc (5 # 10).
Definition maxScale : Qc := Q2Qc (25 # 10).
Definition step : Qc := Q2Qc (1 # 10).

Definition closed_pdf : Pdf := {|
  url := VNull; pdfDoc := false; pageNum := 1; pageCount := 1;
  scale := Q2Qc 1; title := VStr "";
|}.

(** [const LS_KEYS] *)
Definition LS_CONFIG : string := "library_config_v1".
Definition LS_BOOKS : string := "library_books_v1".

(** The three notifications of app.js, by their fixed text. *)
Inductive alert : Type :=
| NoManifestFound     (* 'No books.json manifest found. Please create or import one.' *)
| ImportedOk          (* 'Imported books.json successfully. ...' *)
| ImportFailed (e : exn). (* 'Failed to import books.json: ' + err.message *)

(** What the program asks of the browser, in the order it asks. *)
Inductive effect : Type :=
| Alert (a : alert)
| WindowOpen (href target : string)
| Download (filename : string) (content : text)
| RenderPdfPage.

(** A card of the grid: what the template of [renderBooks] reads from
    the book, and the book its click handler closes over. *)
Record Card : Type := {
  card_id : value;
  card_href : string;
  card_title : string;
  card_author : string;
  card_field : string;
  card_tags : list string;
  card_description : string;
  card_size : option num;
  card_book : value;
}.

(** The elements of the page the program reads and writes, grouped as
    on the page.  A modal or indicator is [true] when it is displayed. *)

(** [#searchInput], [#fieldFilter], [#sortSelect] *)
Record Controls : Type := {
  searchInput : string;
  fieldFilter : string;
  sortSelect : string;
}.

(** [#loadingIndicator], [#pdfModal], [#editModal], [#configModal],
    [#modalTitle] *)
Record Modals : Type := {
  loadingIndicator : bool;
  pdfModal : bool;
  editModal : bool;
  configModal : bool;
  modalTitle : value;
}.

(** The inputs of [#editForm]. *)
Record EditForm : Type := {
  editTitle : string;
  editAuthor : string;
  editField : string;
  editTags : string;
  editDescription : string;
}.

(** The inputs of the configuration modal ([#rootFolder],
    [#fuzzySearch], [#searchThreshold], [#thresholdValue],
    [#maxViewerSize]). *)
Record ConfigForm : Type := {
  rootFolderInput : string;
  fuzzySearchInput : bool;
  searchThresholdInput : string;
  thresholdValue : string;
  maxViewerSizeInput : string;
}.

(** What [rebuildFacets] and [renderBooks] put on the page: the option
    values of the field filter, the tag buttons, the cards, the empty
    state, the number of results and the summed size (the text made of
    it by [formatBytes] is not represented). *)
Record View : Type := {
  fieldOptions : list string;
  tagFilters : list value;
  booksGrid : list Card;
  emptyState : bool;
  resultsCount : nat;
  totalSize : num;
}.

Record Page : Type := {
  controls : Controls;
  modals : Modals;
  editForm : EditForm;
  configForm : ConfigForm;
  view : View;
}.

Definition with_controls (c : Controls) (p : Page) : Page :=
  {| controls := c; modals := modals p; editForm := editForm p;
     configForm := configForm p; view := view p |}.

Definition with_modals (m : Modals) (p : Page) : Page :=
  {| controls := controls p; modals := m; editForm := editForm p;
     configForm := configForm p; view := view p |}.


Definition with_configForm (f : ConfigForm) (p : Page) : Page :=
  {| controls := controls p; modals := modals p; editForm := editForm p;
     configForm := f; view := view p |}.

Definition with_view (v : View) (p : Page) : Page :=
  {| controls := controls p; modals := modals p; editForm := editForm p;
     configForm := configForm p; view := v |}.

Section App.

Context `{Host}.

(** [let state], [editingId], and the browser around them: the store of
    array cells, [localStorage], the page, the requests made so far and
    the number of calls of [uniqueId()] and [Date.now()] so far.
    [books] and [filteredBooks] are references into the store. *)
Record State : Type := {
  config : Config;
  books : nat;
  filteredBooks : nat;
  activeTags : list value;
  fields : list value;
  tags : list value;
  fuse : option FuseIndex;
  pdf : Pdf;
  editingId : value;
  store : list value;
  localStorage : gmap string text;
  page : Page;
  effects : list effect;
  clock : nat;
}.

Definition with_config (c : Config) (st : State) : State :=
  {| config := c; books := books st; filteredBooks := filteredBooks st;
     activeTags := activeTags st; fields := fields st; tags := tags st;
     fuse := fuse st; pdf := pdf st; editingId := editingId st;
     store := store st; localStorage := localStorage st; page := page st;
     effects := effects st; clock := clock st |}.

Definition with_books (l : nat) (st : State) : State :=
  {| config := config st; books := l; filteredBooks := filteredBooks st;
     activeTags := activeTags st; fields := fields st; tags := tags st;
     fuse := fuse st; pdf := pdf st; editingId := editingId st;
     store := store st; localStorage := localStorage st; page := page st;
     effects := effects st; clock := clock st |}.

Definition with_filteredBooks (l : nat) (st : State) : State :=
  {| config := config st; books := books st; filteredBooks := l;
     activeTags := activeTags st; fields := fields st; tags := tags st;
     fuse := fuse st; pdf := pdf st; editingId := editingId st;
     store := store st; localStorage := localStorage st; page := page st;
     effects := effects st; clock := clock st |}.

Definition with_activeTags (s : list value) (st : State) : State :=
  {| config := config st; books := books st; filteredBooks := filteredBooks st;
     activeTags := s; fields := fields st; tags := tags st;
     fuse := fuse st; pdf := pdf st; editingId := editingId st;
     store := store st; localStorage := localStorage st; page := page st;
     effects := effects st; clock := clock st |}.

Definition with_facets (fs ts : list value) (st : State) : State :=
  {| config := config st; books := books st; filteredBooks := filteredBooks st;
     activeTags := activeTags st; fields := fs; tags := ts;
     fuse := fuse st; pdf := pdf st; editingId := editingId st;
     store := store st; localStorage := localStorage st; page := page st;
     effects := effects st; clock := clock st |}.

Definition with_fuse (f : option FuseIndex) (st : State) : State :=
  {| config := config st; books := books st; filteredBooks := filteredBooks st;
     activeTags := activeTags st; fields := fields st; tags := tags st;
     fuse := f; pdf := pdf st; editingId := editingId st;
     store := store st; localStorage := localStorage st; page := page st;
     effects := effects st; clock := clock st |}.

Definition with_pdf (p : Pdf) (st : State) : State :=
  {| config := config st; books := books st; filteredBooks := filteredBooks st;
     activeTags := activeTags st; fields := fields st; tags := tags st;
     fuse := fuse st; pdf := p; editingId := editingId st;
     store := store st; localStorage := localStorage st; page := page st;
     effects := effects st; clock := clock st |}.

Definition with_editingId (v : value) (st : State) : State :=
  {| config := config st; books := books st; filteredBooks := filteredBooks st;
     activeTags := activeTags st; fields := fields st; tags := tags st;
     fuse := fuse st; pdf := pdf st; editingId := v;
     store := store st; localStorage := localStorage st; page := page st;
     effects := effects st; clock := clock st |}.

Definition with_store (s : list value) (st : State) : State :=
  {| config := config st; books := books st; filteredBooks := filteredBooks st;
     activeTags := activeTags st; fields := fields st; tags := tags st;
     fuse := fuse st; pdf := pdf st; editingId := editingId st;
     store := s; localStorage := localStorage st; page := page st;
     effects := effects st; clock := clock st |}.

Definition with_localStorage (m : gmap string text) (st : State) : State :=
  {| config := config st; books := books st; filteredBooks := filteredBooks st;
     activeTags := activeTags st; fields := fields st; tags := tags st;
     fuse := fuse st; pdf := pdf st; editingId := editingId st;
     store := store st; localStorage := m; page := page st;
     effects := effects st; clock := clock st |}.

Definition with_page (p : Page) (st : State) : State :=
  {| config := config st; books := books st; filteredBooks := filteredBooks st;
     activeTags := activeTags st; fields := fields st; tags := tags st;
     fuse := fuse st; pdf := pdf st; editingId := editingId st;
     store := store st; localStorage := localStorage st; page := p;
     effects := effects st; clock := clock st |}.

Definition with_effects (es : list effect) (st : State) : State :=
  {| config := config st; books := books st; filteredBooks := filteredBooks st;
     activeTags := activeTags st; fields := fields st; tags := tags st;
     fuse := fuse st; pdf := pdf st; editingId := editingId st;
     store := store st; localStorage := localStorage st; page := page st;
     effects := es; clock := clock st |}.

Definition with_clock (t : nat) (st : State) : State :=
  {| config := config st; books := books st; filteredBooks := filteredBooks st;
     activeTags := activeTags st; fields := fields st; tags := tags st;
     fuse := fuse st; pdf := pdf st; editingId := editingId st;
     store := store st; localStorage := localStorage st; page := page st;
     effects := effects st; clock := t |}.

(** The content of a cell; app.js never holds a dangling reference. *)
Definition deref (st : State) (l : nat) : value :=
  default VUndef (store st !! l).

(** The statements of app.js run over [State]. *)
Definition M (A : Type) : Type := SE State A.

(** A new cell, for a value that the program has just created. *)
Definition alloc (v : value) : M nat :=
  λ st, (Done (length (store st)), with_store (store st ++ [v]) st).

(** In-place change of the array or object in cell [l]. *)
Definition write (l : nat) (v : value) : M unit :=
  modify (λ st, with_store (<[l := v]> (store st)) st).

Definition emit (e : effect) : M unit :=
  modify (λ st, with_effects (effects st ++ [e]) st).

Definition set_page (f : Page → Page) : M unit :=
  modify (λ st, with_page (f (page st)) st).

(** [state.books], the catalog the reference points to. *)
Definition catalog (st : State) : value := deref st (books st).

(** ** Conversions that need the host *)

(** ToString, as applied by [String(v)], template literals, [+] with a
    string and string-valued page properties. *)
Fixpoint to_string (v : value) : string :=
  match v with
  | VUndef => "undefined"
  | VNull => "null"
  | VBool true => "true"
  | VBool false => "false"
  | VNum n => Number_toString n
  | VStr s => s
  | VArr l =>
      Str.join ","
        (map (λ x, match x with
                   | VUndef | VNull => ""
                   | _ => to_string x
                   end) l)
  | VObj _ => "[object Object]"
  end.

(** ToNumber, as applied by [-] and [/]. *)
Definition to_number (v : value) : num :=
  match v with
  | VUndef => NaN
  | VNull => Num.zero
  | VBool true => Num.of_Z 1
  | VBool false => Num.zero
  | VNum n => n
  | VStr s => StringToNumber s
  | VArr _ | VObj _ => StringToNumber (to_string v)
  end.


(** The default order of [arr.sort()], for arrays without [undefined]
    (the facet sets hold truthy values only): by the string of each
    element, code unit by code unit; stable. *)
Fixpoint insert_by_string (x : value) (l : list value) : list value :=
  match l with
  | [] => [x]
  | y :: l' =>
      if String.ltb (to_string y) (to_string x)
      then y :: insert_by_string x l'
      else x :: l
  end.

Definition sort_by_string (l : list value) : list value :=
  foldr insert_by_string [] l.

(** ** Utilities *)

(** [uniqueId()] and [Date.now()]: the next answer of the host. *)
Definition uniqueId : SE nat value :=
  λ t, (Done (VStr (uniqueId_at t)), S t).

Definition Date_now : SE nat value :=
  λ t, (Done (VInt (Date_now_at t)), S t).

(** A computation that only consults the clock, run inside [M]. *)
Definition on_clock {A} (m : SE nat A) : M A :=
  λ st, let '(o, t) := m (clock st) in (o, with_clock t st).

(** ** Persistence *)

(** [function saveConfig()] *)
Definition saveConfig : M unit :=
  modify (λ st,
    with_localStorage
      (<[LS_CONFIG := JSON_stringify (config_value (config st))]>
         (localStorage st)) st).

(** [function saveBooks()] *)
Definition saveBooks : M unit :=
  modify (λ st,
    with_localStorage
      (<[LS_BOOKS := JSON_stringify (catalog st)]> (localStorage st)) st).

(** [function loadBooks()]: the entry is read; an absent or empty entry
    leaves [state.books] as it is; a text that does not parse makes it
    a new empty array; any text that parses becomes the catalog. *)
Definition loadBooks : M unit :=
  run raw ← gets (λ st, localStorage st !! LS_BOOKS);
  match raw with
  | Some t =>
      if text_truthy t then
        try_catch
          (run v ← lift (JSON_parse t);
           run l ← alloc v;
           modify (with_books l))
          (λ _, run l ← alloc (VArr []); modify (with_books l))
      else ret tt
  | None => ret tt
  end.

(** ** Initialization *)

(** [function initFuse()] *)
Definition initFuse : M unit :=
  run cfg ← gets config;
  run skip ←
    (if negb (fuzzySearch cfg) then ret true
     else
       run bs ← gets catalog;
       run len ← lift (get bs "length");
       ret (strict_eq len (VInt 0)));
  if (skip : bool) then modify (with_fuse None)
  else
    run bs ← gets catalog;
    run idx ← lift (Fuse_new bs (searchThreshold cfg));
    modify (with_fuse (Some idx)).

(** One level of flattening, as [flatMap] does with what its callback
    returns. *)
Definition flatten (l : list value) : list value :=
  concat (map (λ v, match v with VArr xs => xs | _ => [v] end) l).

(** A code unit that the HTML parser does not take as it is inside a
    double-quoted attribute value or inside the text of an option: NUL,
    carriage return, the double quote, [&] and [<]. *)
Definition is_markup (c : ascii) : bool :=
  let n := nat_of_ascii c in
  (n =? 0) || (n =? 13) || (n =? 34) || (n =? 38) || (n =? 60).

Definition markup_plain (s : string) : bool :=
  forallb (λ c, negb (is_markup c)) (list_ascii_of_string s).

Definition dquote : string := String "034" EmptyString.

(** [`<option value="${f}">${f}</option>`] *)
Definition option_markup (f : string) : string :=
  "<option value=" +:+ dquote +:+ f +:+ dquote +:+ ">" +:+ f +:+ "</option>".

(** The markup that [rebuildFacets] assigns to the field filter, for
    the strings of the sorted fields. *)
Definition options_markup (texts : list string) : string :=
  "<option value=" +:+ dquote +:+ dquote +:+ ">All Fields</option>"
  +:+ Str.join "" (map option_markup texts).

(** The values of the options the field filter has after the
    assignment.  When no text holds markup, the parser makes one option
    per text, with the text as its value, after the option of the
    empty value; what it makes of any other markup is left to the
    host. *)
Definition option_values (texts : list string) : list string :=
  if forallb markup_plain texts then "" :: texts
  else parse_options (options_markup texts).

(** The field filter with the options [opts] and the tag buttons: the
    assignment [fieldFilter.value = prev || ''] selects the option
    whose value is [prev], and leaves the filter without a selection,
    its value the empty string, when there is none. *)
Definition with_facet_controls (opts : list string) (buttons : list value)
    (p : Page) : Page :=
  let prev := fieldFilter (controls p) in
  let sel := if bool_decide (prev ∈ opts) then prev else "" in
  with_controls
    {| searchInput := searchInput (controls p); fieldFilter := sel;
       sortSelect := sortSelect (controls p) |}
    (with_view
       {| fieldOptions := opts; tagFilters := buttons;
          booksGrid := booksGrid (view p); emptyState := emptyState (view p);
          resultsCount := resultsCount (view p);
          totalSize := totalSize (view p) |} p).

(** [function rebuildFacets()]: the two sets, then the options of the
    field filter (the selection is kept when an option still has its
    value) and one button per tag. *)
Definition rebuildFacets : M unit :=
  run bs ← gets catalog;
  run l ← lift (as_array bs);
  run fs ← lift (mapO (λ b, get b "field") l);
  exec modify (λ st,
         with_facets (Set_of (filter (λ v, truthy v = true) fs)) (tags st) st);
  run ts ← lift (mapO (λ b, do t ← get b "tags"; Done (or_else t (VArr []))) l);
  exec modify (λ st,
         with_facets (fields st)
           (Set_of (filter (λ v, truthy v = true) (flatten ts))) st);
  run st ← gets id;
  set_page (with_facet_controls
              (option_values (map to_string (sort_by_string (fields st))))
              (sort_by_string (tags st))).

(** ** Manifest loading *)

(** What [fetch('books.json')] and [res.json()] can come to. *)
Inductive fetch_result : Type :=
| NetworkFailure
| Response (ok : bool) (body : text).

(** [async function tryLoadManifest()]: the parsed array, or [null]. *)
Definition tryLoadManifest (r : fetch_result) : value :=
  match r with
  | NetworkFailure => VNull
  | Response false _ => VNull
  | Response true body =>
      match JSON_parse body with
      | Done data => if Array_isArray data then data else VNull
      | Threw _ => VNull
      end
  end.

(** The record that the callbacks of [scanBooks] and [importBooksJson]
    build from a manifest entry; [source] is the default of
    [metadataSource], the only difference between the two. *)
Definition normalize (source : string) (item : value) : SE nat value :=
  run id0 ← lift (get item "id");
  run id ← (if truthy id0 then ret id0 else uniqueId);
  run title ← lift (get item "title");
  run author ← lift (get item "author");
  run field ← lift (get item "field");
  run tags ← lift (get item "tags");
  run description ← lift (get item "description");
  run path ← lift (get item "path");
  run path' ← lift (get item "path");
  run filename ← lift (filenameFromPath path');
  run sizeBytes ← lift (get item "sizeBytes");
  run addedAt0 ← lift (get item "addedAt");
  run addedAt ← (if truthy addedAt0 then ret addedAt0 else Date_now);
  run source0 ← lift (get item "metadataSource");
  ret (VObj [("id", id);
             ("title", or_else title (VStr ""));
             ("author", or_else author (VStr ""));
             ("field", or_else field (VStr ""));
             ("tags", or_else tags (VArr []));
             ("description", or_else description (VStr ""));
             ("path", path);
             ("filename", filename);
             ("sizeBytes", if is_number sizeBytes then sizeBytes else VNum NaN);
             ("addedAt", addedAt);
             ("metadataSource", or_else source0 (VStr source))]).

(** ** Rendering *)

Definition with_loadingIndicator (b : bool) (m : Modals) : Modals :=
  {| loadingIndicator := b; pdfModal := pdfModal m; editModal := editModal m;
     configModal := configModal m; modalTitle := modalTitle m |}.

Definition with_pdfModal (b : bool) (m : Modals) : Modals :=
  {| loadingIndicator := loadingIndicator m; pdfModal := b;
     editModal := editModal m; configModal := configModal m;
     modalTitle := modalTitle m |}.

Definition with_editModal (b : bool) (m : Modals) : Modals :=
  {| loadingIndicator := loadingIndicator m; pdfModal := pdfModal m;
     editModal := b; configModal := configModal m;
     modalTitle := modalTitle m |}.

Definition with_configModal (b : bool) (m : Modals) : Modals :=
  {| loadingIndicator := loadingIndicator m; pdfModal := pdfModal m;
     editModal := editModal m; configModal := b;
     modalTitle := modalTitle m |}.

Definition with_modalTitle (t : value) (m : Modals) : Modals :=
  {| loadingIndicator := loadingIndicator m; pdfModal := pdfModal m;
     editModal := editModal m; configModal := configModal m;
     modalTitle := t |}.

Definition set_modals (f : Modals → Modals) : M unit :=
  set_page (λ p, with_modals (f (modals p)) p).

Definition set_view (f : View → View) : M unit :=
  set_page (λ p, with_view (f (view p)) p).

(** [function showLoading(show)] *)
Definition showLoading (show : bool) : M unit :=
  set_modals (with_loadingIndicator show).

(** The card of one book: every read of the template, in its order.
    ([formatBytes] only shapes the text of the size and is not
    represented: the card keeps the finite size itself.) *)
Definition make_card (book : value) : outcome Card :=
  do id ← get book "id";
  do path ← get book "path";
  do title ← get book "title";
  do author ← get book "author";
  do field ← get book "field";
  do tags ← get book "tags";
  do chips ← as_array (or_else tags (VArr []));
  do description ← get book "description";
  do size ← get book "sizeBytes";
  Done {| card_id := id;
          card_href := encodeURI (to_string path);
          card_title := to_string title;
          card_author := to_string (or_else author (VStr "Unknown author"));
          card_field := to_string (or_else field (VStr "Uncategorized"));
          card_tags := map to_string chips;
          card_description := to_string (or_else description (VStr ""));
          card_size := if Number_isFinite size then Some (to_number size)
                       else None;
          card_book := book |}.

(** The sum of the finite sizes, as the [reduce] of [renderBooks]. *)
Fixpoint sum_sizes (acc : Qc) (l : list value) : outcome Qc :=
  match l with
  | [] => Done acc
  | b :: l' =>
      do size ← get b "sizeBytes";
      match size with
      | VNum (Fin q) => sum_sizes (acc + q)%Qc l'
      | _ => sum_sizes acc l'
      end
  end.

Definition clear_grid (v : View) : View :=
  {| fieldOptions := fieldOptions v; tagFilters := tagFilters v;
     booksGrid := []; emptyState := emptyState v;
     resultsCount := resultsCount v; totalSize := totalSize v |}.

Definition with_emptyState (empty : bool) (v : View) : View :=
  {| fieldOptions := fieldOptions v; tagFilters := tagFilters v;
     booksGrid := booksGrid v; emptyState := empty;
     resultsCount := resultsCount v; totalSize := totalSize v |}.

Definition with_summary (n : nat) (total : num) (v : View) : View :=
  {| fieldOptions := fieldOptions v; tagFilters := tagFilters v;
     booksGrid := booksGrid v; emptyState := emptyState v;
     resultsCount := n; totalSize := total |}.

Definition append_card (c : Card) (v : View) : View :=
  {| fieldOptions := fieldOptions v; tagFilters := tagFilters v;
     booksGrid := booksGrid v ++ [c]; emptyState := emptyState v;
     resultsCount := resultsCount v; totalSize := totalSize v |}.

Fixpoint append_cards (l : list value) : M unit :=
  match l with
  | [] => ret tt
  | book :: l' =>
      run c ← lift (make_card book);
      exec set_view (append_card c);
      append_cards l'
  end.

(** [function renderBooks(list)], for the array in cell [list]. *)
Definition renderBooks (list : nat) : M unit :=
  exec set_view clear_grid;
  run arr ← gets (λ st, deref st list);
  run l ← lift (as_array arr);
  match l with
  | [] =>
      exec set_view (with_emptyState true);
      set_view (with_summary 0 Num.zero)
  | _ =>
      exec set_view (with_emptyState false);
      run total ← lift (sum_sizes 0%Qc l);
      exec set_view (with_summary (length l) (Fin total));
      append_cards l
  end.

(** The test of the plain search, for the lower-cased query [q]. *)
Definition lower_includes (q : string) (v : value) : outcome bool :=
  do s ← as_string v; Done (Str.includes (toLowerCase s) q).

Definition matches_query (q : string) (b : value) : outcome bool :=
  do title ← get b "title";
  do in_title ← lower_includes q (or_else title (VStr ""));
  if (in_title : bool) then Done true else
  do author ← get b "author";
  do in_author ← lower_includes q (or_else author (VStr ""));
  if (in_author : bool) then Done true else
  do field ← get b "field";
  do in_field ← lower_includes q (or_else field (VStr ""));
  if (in_field : bool) then Done true else
  do tags ← get b "tags";
  do l ← as_array (or_else tags (VArr []));
  someO (lower_includes q) l.

(** The test of the field filter. *)
Definition has_field (fieldVal : string) (b : value) : outcome bool :=
  do field ← get b "field"; Done (strict_eq field (VStr fieldVal)).

(** The test of the tag filters: every active tag is among the strings
    of the book's tags. *)
Definition has_tags (active : list value) (b : value) : outcome bool :=
  do tags ← get b "tags";
  do l ← as_array (or_else tags (VArr []));
  let bt := Set_of (map (λ x, VStr (to_string x)) l) in
  Done (forallb (Set_has bt) active).

(** [x.localeCompare(y)] *)
Definition locale_compare (x y : value) : outcome num :=
  do s ← as_string x; Done (localeCompare s (to_string y)).

(** The comparator of the [switch (sort)]. *)
Definition compare_books (sort : string) (a b : value) : outcome num :=
  let by_title :=
    do ta ← get a "title"; do tb ← get b "title"; locale_compare ta tb in
  let by_text (k : string) :=
    do xa ← get a k; do xb ← get b k;
    locale_compare (or_else xa (VStr "")) (or_else xb (VStr "")) in
  let by_number (k : string) :=
    do xa ← get a k; do xb ← get b k;
    Done (Num.sub (to_number (or_else xa (VInt 0)))
                  (to_number (or_else xb (VInt 0)))) in
  if bool_decide (sort = "title-desc") then
    do c ← by_title; Done (Num.mul_const c (-1))
  else if bool_decide (sort = "author") then by_text "author"
  else if bool_decide (sort = "author-desc") then
    do c ← by_text "author"; Done (Num.mul_const c (-1))
  else if bool_decide (sort = "field") then by_text "field"
  else if bool_decide (sort = "size") then by_number "sizeBytes"
  else if bool_decide (sort = "date") then by_number "addedAt"
  else by_title.

(** [list = list.filter(f)]: a new array from the one in cell [list]. *)
Definition filter_into_new (f : value → outcome bool) (list : nat) : M nat :=
  run arr ← gets (λ st, deref st list);
  run l ← lift (as_array arr);
  run kept ← lift (filterO f l);
  alloc (VArr kept).

(** [function applyFiltersAndRender()].  [list] starts as a copy of the
    catalog array ([[...state.books]]); every filter makes a new array;
    [list.sort] reorders the array in the cell [list] refers to. *)
Definition applyFiltersAndRender : M unit :=
  run query ← gets (λ st, Str.trim (searchInput (controls (page st))));
  run fieldVal ← gets (λ st, fieldFilter (controls (page st)));
  run active ← gets (λ st, Set_of (activeTags st));
  run bs ← gets catalog;
  run elems ← lift (spread_elems bs);
  run list0 ← alloc (VArr elems);
  run list1 ←
    (if bool_decide (query = "") then ret list0
     else
       run index ← gets fuse;
       match index with
       | Some fz =>
           run items ← lift (Fuse_search fz query);
           alloc (VArr items)
       | None => filter_into_new (matches_query (toLowerCase query)) list0
       end);
  run list2 ←
    (if bool_decide (fieldVal = "") then ret list1
     else filter_into_new (has_field fieldVal) list1);
  run list3 ←
    (match active with
     | [] => ret list2
     | _ => filter_into_new (has_tags active) list2
     end);
  run sort ← gets (λ st, sortSelect (controls (page st)));
  run arr ← gets (λ st, deref st list3);
  run l ← lift (as_array arr);
  run sorted ← lift (Array_sort (compare_books sort) l);
  exec write list3 (VArr sorted);
  exec modify (with_filteredBooks list3);
  renderBooks list3.

(** ** Scan *)

(** [async function scanBooks()], for the result [r] of the fetch. *)
Definition scanBooks (r : fetch_result) : M unit :=
  exec showLoading true;
  let manifest := tryLoadManifest r in
  run none ←
    (if negb (truthy manifest) then ret true
     else run len ← lift (get manifest "length");
          ret (strict_eq len (VInt 0)));
  if (none : bool) then
    exec emit (Alert NoManifestFound);
    showLoading false
  else
    run items ← lift (as_array manifest);
    run recs ← on_clock (mapSE (normalize "manifest") items);
    run l ← alloc (VArr recs);
    exec modify (with_books l);
    exec saveBooks;
    exec initFuse;
    exec rebuildFacets;
    exec applyFiltersAndRender;
    showLoading false.

(** ** PDF viewer *)

(** The two ways [openPdf] can take. *)
Definition sizeMB (book_size : value) : num :=
  if Number_isFinite book_size
  then Num.div (to_number book_size) (Num.of_Z (1024 * 1024))
  else NaN.

Definition allowInline (book_size : value) (c : Config) : bool :=
  negb (Num.isFinite (sizeMB book_size))
  || Num.le (sizeMB book_size) (maxViewerSizeMB c).

(** [async function openPdf(book)], up to the call of the renderer
    (PDF.js), which is recorded as a request.  The click handler given
    to the download button is not represented. *)
Definition openPdf (book : value) : M unit :=
  run size ← lift (get book "sizeBytes");
  run cfg ← gets config;
  if negb (allowInline size cfg) then
    run path ← lift (get book "path");
    emit (WindowOpen (encodeURI (to_string path)) "_blank")
  else
    run path ← lift (get book "path");
    run title ← lift (get book "title");
    exec modify (λ st,
           with_pdf {| url := VStr (encodeURI (to_string path));
                       pdfDoc := pdfDoc (pdf st);
                       pageNum := 1;
                       pageCount := pageCount (pdf st);
                       scale := Q2Qc 1;
                       title := title |} st);
    exec set_modals (with_modalTitle title);
    exec set_modals (with_pdfModal true);
    emit RenderPdfPage.

(** [function closePdf()]; the release of the PDF.js session, whose
    failure is swallowed, is not represented. *)
Definition closePdf : M unit :=
  exec set_modals (with_pdfModal false);
  modify (with_pdf closed_pdf).

(** ** Edit modal *)



(** [function closeEditModal()] *)
Definition closeEditModal : M unit :=
  exec set_modals (with_editModal false);
  modify (with_editingId VNull).

(** [s.split(',').map(s => s.trim()).filter(Boolean)] *)
Definition parse_tags (s : string) : list value :=
  map VStr
    (filter (λ t, t ≠ "") (map Str.trim (Str.split "," s))).

(** [(v || 'manifest') + '+manual'] *)
Definition manual_source (v : value) : value :=
  VStr (to_string (or_else v (VStr "manifest")) +:+ "+manual").

(** The object literal [{ ...old, title: .., .., metadataSource: .. }]. *)
Definition updated_book (old : value) (f : EditForm) (source : value)
  : value :=
  VObj (foldl (λ ps kv, set_prop kv.1 kv.2 ps) (spread_props old)
          [("title", VStr (Str.trim (editTitle f)));
           ("author", VStr (Str.trim (editAuthor f)));
           ("field", VStr (Str.trim (editField f)));
           ("tags", VArr (parse_tags (editTags f)));
           ("description", VStr (Str.trim (editDescription f)));
           ("metadataSource", manual_source source)]).



(** ** Config modal *)

(** [function openConfigModal()]; the two texts made from the threshold
    are the host's rendering of the number, and each input holds what
    its control makes of the string assigned to it. *)
Definition openConfigModal : M unit :=
  run cfg ← gets config;
  exec set_page (λ p,
         with_configForm
           {| rootFolderInput := control_value "rootFolder" (rootFolder cfg);
              fuzzySearchInput := fuzzySearch cfg;
              searchThresholdInput :=
                control_value "searchThreshold"
                  (Number_toString (searchThreshold cfg));
              thresholdValue := Number_toString (searchThreshold cfg);
              maxViewerSizeInput :=
                control_value "maxViewerSize"
                  (Number_toString (maxViewerSizeMB cfg)) |} p);
  set_modals (with_configModal true).

(** [function closeConfigModal()] *)
Definition closeConfigModal : M unit :=
  set_modals (with_configModal false).

(** [parseFloat(input) || 0.4] *)
Definition threshold_of_input (input : string) : num :=
  let x := Str.parseFloat input in
  if Num.truthy x then x else Fin (Q2Qc (4 # 10)).

(** [Math.max(1, Math.min(50, parseInt(input, 10) || 10))] *)
Definition viewer_size_of_input (input : string) : num :=
  let x := Str.parseInt input in
  Num.max (Num.of_Z 1)
    (Num.min (Num.of_Z 50) (if Num.truthy x then x else Num.of_Z 10)).

(** The [click] handler of [#saveConfigBtn]. *)
Definition saveConfigClick : M unit :=
  run f ← gets (λ st, configForm (page st));
  exec modify (λ st,
         with_config
           {| rootFolder :=
                (let r := Str.trim (rootFolderInput f) in
                 if bool_decide (r = "") then "Books" else r);
              fuzzySearch := fuzzySearchInput f;
              searchThreshold := threshold_of_input (searchThresholdInput f);
              maxViewerSizeMB := viewer_size_of_input (maxViewerSizeInput f)
           |} st);
  exec saveConfig;
  exec initFuse;
  closeConfigModal.

(** ** Import and export *)

(** The object the callback of [exportBooksJson] builds from a book. *)
Definition export_record (b : value) : outcome value :=
  do id ← get b "id";
  do title ← get b "title";
  do author ← get b "author";
  do field ← get b "field";
  do tags ← get b "tags";
  do description ← get b "description";
  do path ← get b "path";
  do size ← get b "sizeBytes";
  do addedAt ← get b "addedAt";
  do source ← get b "metadataSource";
  Done (VObj [("id", id);
              ("title", title);
              ("author", author);
              ("field", field);
              ("tags", tags);
              ("description", description);
              ("path", path);
              ("sizeBytes", if Number_isFinite size then size else VUndef);
              ("addedAt", addedAt);
              ("metadataSource", source)]).

(** [function exportBooksJson()]: the text offered for download. *)
Definition exportBooksJson : M unit :=
  run bs ← gets catalog;
  run l ← lift (as_array bs);
  run manifest ← lift (mapO export_record l);
  emit (Download "books.json" (JSON_stringify (VArr manifest))).

(** [function importBooksJson(file)], for the text read from the file:
    the body of [reader.onload]. *)
Definition importBooksJson (file : text) : M unit :=
  try_catch
    (run arr ← lift (JSON_parse file);
     exec (if Array_isArray arr then ret tt
           else lift (Threw (Error "Invalid JSON")));
     run items ← lift (as_array arr);
     run recs ← on_clock (mapSE (normalize "import") items);
     run l ← alloc (VArr recs);
     exec modify (with_books l);
     exec saveBooks;
     exec initFuse;
     exec rebuildFacets;
     exec applyFiltersAndRender;
     emit (Alert ImportedOk))
    (λ err, emit (Alert (ImportFailed err))).

(** ** Boot *)

(** The part of [function boot()] that brings the stored catalog to the
    screen: [loadBooks(); initFuse(); rebuildFacets();
    applyFiltersAndRender();].  ([loadConfig] before it and [bindEvents]
    after it are not part of the sequence: the configuration is part
    of the state it starts from.) *)
Definition boot_catalog : M unit :=
  exec loadBooks;
  exec initFuse;
  exec rebuildFacets;
  applyFiltersAndRender.

(** ** The state at page load *)

(** The page before any script has run; the sort control starts on its
    first option. *)
Definition initial_page : Page := {|
  controls := {| searchInput := ""; fieldFilter := ""; sortSelect := "title" |};
  modals := {| loadingIndicator := false; pdfModal := false;
               editModal := false; configModal := false;
               modalTitle := VStr "" |};
  editForm := {| editTitle := ""; editAuthor := ""; editField := "";
                 editTags := ""; editDescription := "" |};
  configForm := {| rootFolderInput := ""; fuzzySearchInput := false;
                   searchThresholdInput := ""; thresholdValue := "";
                   maxViewerSizeInput := "" |};
  view := {| fieldOptions := []; tagFilters := []; booksGrid := [];
             emptyState := false; resultsCount := 0; totalSize := Num.zero |};
|}.

(** [let state = {...}] and [let editingId = null], for a browser whose
    storage is [ls]: [books] and [filteredBooks] are two empty arrays. *)
Definition initial_state (ls : gmap string text) : State := {|
  config := DEFAULT_CONFIG;
  books := 0;
  filteredBooks := 1;
  activeTags := [];
  fields := [];
  tags := [];
  fuse := None;
  pdf := closed_pdf;
  editingId := VNull;
  store := [VArr []; VArr []];
  localStorage := ls;
  page := initial_page;
  effects := [];
  clock := 0;
|}.

End App.

Arguments State {_}.
Arguments M {_} _.

(** ** Specifications *)

(** The value of property [k] of [v], [undefined] where reading it is
    an error. *)
Definition prop (v : value) (k : string) : value :=
  match get v k with
  | Done x => x
  | Threw _ => VUndef
  end.

(** The cases in which [scanBooks] obtains no manifest. *)
Inductive no_manifest : fetch_result → Prop :=
| fetch_failed : no_manifest NetworkFailure
| status_not_ok body : no_manifest (Response false body)
| body_unparseable s : no_manifest (Response true (Unparseable s))
| body_not_array v : Array_isArray v = false → no_manifest (Response true (Json v))
| body_empty_array : no_manifest (Response true (Json (VArr []))).

(** A manifest entry that carries a string as its [path]. *)
Definition has_path (item : value) : Prop :=
  ∃ s, get item "path" = Done (VStr s).

(** A value that a load keeps as it is and that survives a JSON text. *)
Definition kept (v : value) : Prop :=
  json_stable v = true ∧ truthy v = true.

(** The same for the texts that default to the empty string. *)
Definition kept_text (v : value) : Prop :=
  json_stable v = true ∧ (truthy v = true ∨ v = VStr "").

(** A document whose exported properties a JSON text keeps and the
    import does not replace by a default, and whose file name is the
    one derived from its path: what [scanBooks], [importBooksJson] and
    the Metadata Editor leave in the catalog when the entries they are
    given hold such values. *)
Record catalog_document (b : value) : Prop := {
  doc_path : ∃ s, get b "path" = Done (VStr s)
                  ∧ get b "filename" = filenameFromPath (VStr s);
  doc_id : kept (prop b "id");
  doc_title : kept_text (prop b "title");
  doc_author : kept_text (prop b "author");
  doc_field : kept_text (prop b "field");
  doc_tags : kept (prop b "tags");
  doc_description : kept_text (prop b "description");
  doc_addedAt : kept (prop b "addedAt");
  doc_metadataSource : kept (prop b "metadataSource");
}.

(** An element of an array as [JSON.stringify] writes it. *)
Definition json_elem (x : value) : value :=
  match x with
  | VUndef => VNull
  | _ => to_json x
  end.

(** The properties of an object as [JSON.stringify] writes them. *)
Fixpoint json_props (ps : list (string * value)) : list (string * value) :=
  match ps with
  | [] => []
  | (k, x) :: ps' =>
      if is_undef x then json_props ps' else (k, to_json x) :: json_props ps'
  end.

(** The object [exportBooksJson] makes of a document. *)
Definition export_object (b : value) : value :=
  VObj [("id", prop b "id");
        ("title", prop b "title");
        ("author", prop b "author");
        ("field", prop b "field");
        ("tags", prop b "tags");
        ("description", prop b "description");
        ("path", prop b "path");
        ("sizeBytes", if Number_isFinite (prop b "sizeBytes")
                      then prop b "sizeBytes" else VUndef);
        ("addedAt", prop b "addedAt");
        ("metadataSource", prop b "metadataSource")].

(** The entry of the exported file for a document of the catalog: the
    size is there only when it is finite. *)
Definition exported_entry (b : value) : value :=
  VObj ([("id", prop b "id");
         ("title", prop b "title");
         ("author", prop b "author");
         ("field", prop b "field");
         ("tags", prop b "tags");
         ("description", prop b "description");
         ("path", prop b "path")]
        ++ (if Number_isFinite (prop b "sizeBytes")
            then [("sizeBytes", prop b "sizeBytes")] else [])
        ++ [("addedAt", prop b "addedAt");
            ("metadataSource", prop b "metadataSource")]).

(** The record [importBooksJson] makes of that entry. *)
Definition imported_record (b : value) : value :=
  VObj [("id", prop b "id");
        ("title", prop b "title");
        ("author", prop b "author");
        ("field", prop b "field");
        ("tags", prop b "tags");
        ("description", prop b "description");
        ("path", prop b "path");
        ("filename", prop b "filename");
        ("sizeBytes", if Number_isFinite (prop b "sizeBytes")
                      then prop b "sizeBytes" else VNum NaN);
        ("addedAt", prop b "addedAt");
        ("metadataSource", prop b "metadataSource")].

(** A document of the data model: strings for the texts, strings for
    the tags, a number for the size, with its file name derived from
    its path. *)
Definition data_model_document (id title author field : string)
    (tags : list string) (description path : string) (size : num)
    (addedAt : Z) (source : string) : value :=
  VObj [("id", VStr id);
        ("title", VStr title);
        ("author", VStr author);
        ("field", VStr field);
        ("tags", VArr (map VStr tags));
        ("description", VStr description);
        ("path", VStr path);
        ("filename", default VUndef (VStr <$> Str.pop (Str.split "/" path)));
        ("sizeBytes", VNum size);
        ("addedAt", VInt addedAt);
        ("metadataSource", VStr source)].

(** The properties a document keeps through export and import. *)
Definition exported_keys : list string :=
  ["id"; "title"; "author"; "field"; "tags"; "description"; "path";
   "addedAt"; "metadataSource"].

(** [b'] is [b] after export and import: the exported properties and
    the file name are the same, a finite size is the same and an
    unknown size is unknown. *)
Definition same_document (b b' : value) : Prop :=
  (∀ k, k ∈ exported_keys → get b' k = get b k)
  ∧ get b' "filename" = get b "filename"
  ∧ (if Number_isFinite (prop b "sizeBytes")
     then get b' "sizeBytes" = get b "sizeBytes"
     else Number_isFinite (prop b' "sizeBytes") = false).

(** [s] ends with [suffix]. *)
Definition ends_with (s suffix : string) : Prop :=
  ∃ base, s = base +:+ suffix.

Section Specs.

Context `{Host}.

(** The outcome of [m] from [st] satisfies [Q] when [m] returns and
    the state it stops in satisfies [E] when it throws. *)
Definition wp {A} (m : M A) (Q : A → State → Prop) (E : State → Prop)
    (st : State) : Prop :=
  match m st with
  | (Done a, st') => Q a st'
  | (Threw _, st') => E st'
  end.

(** [m] leaves the catalog reference and every cell alone. *)
Definition quiet {A} (m : M A) : Prop :=
  ∀ st, books (m st).2 = books st ∧ store (m st).2 = store st.

(** The catalog reference is [b] and the cells [pre] are as they were:
    the store has only grown behind them. *)
Definition keeps (b : nat) (pre : list value) (st : State) : Prop :=
  books st = b ∧ take (length pre) (store st) = pre.

(** A reference to a cell made after [pre]. *)
Definition later_cell (pre : list value) (l : nat) (st : State) : Prop :=
  length pre ≤ l < length (store st).

(** [rec] is the record that [normalize source] builds from [item]: the
    defaults of the source, a new id and the current time where the
    entry has none. *)
Definition is_normalized (source : string) (item rec : value) : Prop :=
  ∃ id filename addedAt,
    rec = VObj [("id", id);
                ("title", or_else (prop item "title") (VStr ""));
                ("author", or_else (prop item "author") (VStr ""));
                ("field", or_else (prop item "field") (VStr ""));
                ("tags", or_else (prop item "tags") (VArr []));
                ("description", or_else (prop item "description") (VStr ""));
                ("path", prop item "path");
                ("filename", filename);
                ("sizeBytes", if is_number (prop item "sizeBytes")
                              then prop item "sizeBytes" else VNum NaN);
                ("addedAt", addedAt);
                ("metadataSource",
                 or_else (prop item "metadataSource") (VStr source))]
    ∧ filenameFromPath (prop item "path") = Done filename
    ∧ (if truthy (prop item "id") then id = prop item "id"
       else ∃ t, id = VStr (uniqueId_at t))
    ∧ (if truthy (prop item "addedAt") then addedAt = prop item "addedAt"
       else ∃ t, addedAt = VInt (Date_now_at t)).

(** The records [scanBooks] ([source] = "manifest") or
    [importBooksJson] ([source] = "import") makes of [items] when the
    host has answered [t] calls so far. *)
Definition normalized_records (source : string) (items : list value)
    (t : nat) : list value :=
  match mapSE (normalize source) items t with
  | (Done recs, _) => recs
  | (Threw _, _) => []
  end.

(** The page shown for an empty catalog. *)
Definition shows_empty_catalog (r : outcome unit * State) : Prop :=
  r.1 = Done tt
  ∧ catalog r.2 = VArr []
  ∧ effects r.2 = []
  ∧ emptyState (view (page r.2)) = true.

(** The configuration object found in storage. *)
Definition persisted_config (st : State) : value :=
  match localStorage st !! LS_CONFIG with
  | Some (Json v) => v
  | _ => VUndef
  end.

(** The catalog found in storage. *)
Definition persisted_books (st : State) : option text :=
  localStorage st !! LS_BOOKS.

(** The configuration that the save handler makes of the form. *)
Definition config_of_form (f : ConfigForm) : Config :=
  {| rootFolder :=
       (let r := Str.trim (rootFolderInput f) in
        if bool_decide (r = "") then "Books" else r);
     fuzzySearch := fuzzySearchInput f;
     searchThreshold := threshold_of_input (searchThresholdInput f);
     maxViewerSizeMB := viewer_size_of_input (maxViewerSizeInput f) |}.

(** The state with the four inputs of the pipeline set. *)
Definition with_inputs (query fieldVal sort : string)
    (active : list value) (st : State) : State :=
  with_activeTags active
    (with_page
       (with_controls
          {| searchInput := query; fieldFilter := fieldVal;
             sortSelect := sort |} (page st)) st).

End Specs.

(** ** A host for the examples *)

Module Sample.

(** Integers print in decimal; nothing else is printed by the examples. *)
Definition print_number (n : num) : string :=
  match n with
  | NaN => "NaN"
  | PosInf => "Infinity"
  | NegInf => "-Infinity"
  | Fin q =>
      let z := Qnum (this q) in
      if (z <? 0)%Z
      then "-" +:+ NilEmpty.string_of_uint (N.to_uint (Z.to_N (- z)))
      else NilEmpty.string_of_uint (N.to_uint (Z.to_N z))
  end.

Definition compare_code_units (a b : string) : num :=
  match String.compare a b with
  | Lt => Num.of_Z (-1)
  | Eq => Num.zero
  | Gt => Num.of_Z 1
  end.

(** An index that remembers its documents and answers a query with the
    documents whose title contains it. *)
Definition search_titles (docs : list value) (q : string) : outcome (list value) :=
  Done (List.filter (λ b, match get b "title" with
                          | Done (VStr t) => Str.includes t q
                          | _ => false
                          end) docs).

Definition nth_id (t : nat) : string :=
  "id" +:+ NilEmpty.string_of_uint (Nat.to_uint t).

(** Every control is a single-line input: line feeds and carriage
    returns are dropped. *)
Fixpoint single_line (s : string) : string :=
  match s with
  | EmptyString => EmptyString
  | String c r =>
      if (nat_of_ascii c =? 10) || (nat_of_ascii c =? 13)
      then single_line r else String c (single_line r)
  end.

Definition nth_time (t : nat) : Z := 1700000000000 + Z.of_nat t.

(** No field of the examples holds markup, so that the parser of the
    page is not asked. *)
Definition host : Host := {|
  FuseIndex := list value;
  Fuse_new := λ docs _, as_array docs;
  Fuse_search := search_titles;
  toLowerCase := λ s, s;
  localeCompare := compare_code_units;
  Number_toString := print_number;
  StringToNumber := Str.parseFloat;
  encodeURI := λ s, s;
  control_value := λ _, single_line;
  parse_options := λ _, [];
  uniqueId_at := nth_id;
  Date_now_at := nth_time;
  uniqueId_nonempty := ltac:(intros t; discriminate);
  Date_now_nonzero := ltac:(intros t; unfold nth_time; lia);
|}.

(** A manifest of two entries: the first complete, the second with
    neither id nor size nor date. *)
Definition rudin : value :=
  VObj [("id", VStr "a"); ("title", VStr "Rudin");
        ("tags", VArr [VStr "analysis"]);
        ("path", VStr "Books/Real Analysis/Rudin.pdf");
        ("sizeBytes", VInt 10485760); ("addedAt", VInt 1690000000000)].

Definition axler : value :=
  VObj [("title", VStr "Axler"); ("field", VStr "Linear Algebra");
        ("path", VStr "Books/Linear Algebra/Axler.pdf")].

Definition manifest : list value := [rudin; axler].

(** An entry without a path. *)
Definition pathless : value := VObj [("title", VStr "A")].

(** The state at page load with an empty storage, and after a scan
    that found [manifest]. *)
Definition st_fresh : State (H := host) := initial_state ∅.

Definition st_loaded : State (H := host) :=
  (scanBooks (Response true (Json (VArr manifest))) st_fresh).2.

(** The documents of [st_loaded], and the properties of the first. *)
Definition loaded_books : list value :=
  match catalog st_loaded with
  | VArr l => l
  | _ => []
  end.

Definition first_props : list (string * value) :=
  match loaded_books with
  | VObj ps :: _ => ps
  | _ => []
  end.


(** The Configuration Panel with [0] typed in both number inputs. *)
Definition st_configuring : State (H := host) :=
  with_page
    (with_configForm
       {| rootFolderInput := "Books"; fuzzySearchInput := true;
          searchThresholdInput := "0"; thresholdValue := "0";
          maxViewerSizeInput := "0" |}
       (page st_loaded))
    st_loaded.

End Sample.

(** ** The remaining utilities and handlers *)

(** A character of the class [a-z0-9]. *)
Definition is_slug_char (c : ascii) : bool :=
  let n := nat_of_ascii c in
  ((97 <=? n) && (n <=? 122)) || ((48 <=? n) && (n <=? 57)).

(** [s.replace(/[^a-z0-9]+/g, '-')]: every maximal run of characters
    outside the class becomes one dash.  [in_run] tells that the
    character before belongs to the run being replaced. *)
Fixpoint dash_runs (in_run : bool) (s : string) : string :=
  match s with
  | EmptyString => EmptyString
  | String c r =>
      if is_slug_char c then String c (dash_runs false r)
      else if in_run then dash_runs true r
      else String "-" (dash_runs true r)
  end.

(** [s.replace(/(^-|-$)/g, '')]: a dash at the start is removed, and a
    dash at the end of what follows it. *)
Definition drop_first_dash (s : string) : string :=
  match s with
  | String "-" r => r
  | _ => s
  end.

Fixpoint drop_last_dash (s : string) : string :=
  match s with
  | EmptyString => EmptyString
  | String c EmptyString =>
      if bool_decide (c = "-"%char) then EmptyString else s
  | String c r => String c (drop_last_dash r)
  end.

(** [Math.min] and [Math.max] of two finite numbers. *)
Definition Qc_min (a b : Qc) : Qc := if bool_decide (a ≤ b)%Qc then a else b.

Definition Qc_max (a b : Qc) : Qc := if bool_decide (a ≤ b)%Qc then b else a.

(** [set.delete(x)] and [set.add(x)] on a set held as the list of its
    elements, in insertion order. *)
Definition Set_delete (s : list value) (x : value) : list value :=
  filter (λ y, same_value_zero x y = false) s.

Definition Set_add (s : list value) (x : value) : list value :=
  if Set_has s x then s else s ++ [x].

(** [function loadConfig()], as the object [state.config] refers to
    after the call, for the storage [ls] and the object [cfg] it
    referred to before: an absent or empty entry leaves [cfg]; a text
    that does not parse gives a copy of the defaults; whatever a text
    parses to is spread over a copy of the defaults.  (The place of a
    key among the properties is not observed by the program.) *)
Definition loadConfig (ls : gmap string text) (cfg : value) : value :=
  match ls !! LS_CONFIG with
  | Some raw =>
      if text_truthy raw then
        match JSON_parse raw with
        | Done v =>
            VObj (foldl (λ ps kv, set_prop kv.1 kv.2 ps)
                    (spread_props (config_value DEFAULT_CONFIG))
                    (spread_props v))
        | Threw _ => VObj (spread_props (config_value DEFAULT_CONFIG))
        end
      else cfg
  | None => cfg
  end.

Definition with_pageNum (n : Z) (p : Pdf) : Pdf :=
  {| url := url p; pdfDoc := pdfDoc p; pageNum := n;
     pageCount := pageCount p; scale := scale p; title := title p |}.

Definition with_scale (s : Qc) (p : Pdf) : Pdf :=
  {| url := url p; pdfDoc := pdfDoc p; pageNum := pageNum p;
     pageCount := pageCount p; scale := s; title := title p |}.

Definition with_pdfDoc (d : bool) (p : Pdf) : Pdf :=
  {| url := url p; pdfDoc := d; pageNum := pageNum p;
     pageCount := pageCount p; scale := scale p; title := title p |}.

Definition with_pageCount (n : Z) (p : Pdf) : Pdf :=
  {| url := url p; pdfDoc := pdfDoc p; pageNum := pageNum p;
     pageCount := n; scale := scale p; title := title p |}.

(** What PDF.js answers to one call of [renderPdfPage]: what
    [getPdfjs()] comes to, whether the library is there or a
    rejection; what loading the document comes to, its number of pages
    or a rejection; and what fetching and drawing the page comes to. *)
Record pdfjs : Type := {
  library : outcome bool;
  document : outcome Z;
  drawn : outcome unit;
}.

Section Handlers.

Context `{Host}.

(** [function slugify(str = '')] *)
Definition slugify (str : value) : string :=
  let s := to_string (match str with VUndef => VStr "" | _ => str end) in
  drop_last_dash (drop_first_dash (dash_runs false (toLowerCase s))).

(** The [click] handler that [rebuildFacets] gives the button of [tag]
    (the class of the button is presentation and is not represented). *)
Definition tagClick (tag : value) : M unit :=
  run active ← gets activeTags;
  exec (if Set_has active tag
        then modify (with_activeTags (Set_delete active tag))
        else modify (with_activeTags (Set_add active tag)));
  applyFiltersAndRender.


(** [async function renderPdfPage()], for the answers [a] of PDF.js.
    Without the library nothing happens.  Without a session the
    document is loaded, which can fail, and the session and its number
    of pages are recorded.  Then the page is fetched and drawn, which
    can fail as well.  (The two indicators of the viewer are texts made
    from the page number, the page count and the zoom; they and the
    canvas are not represented.) *)
Definition renderPdfPage (a : pdfjs) : M unit :=
  run lib ← lift (library a);
  if negb lib then ret tt
  else
    run p ← gets pdf;
    exec (if pdfDoc p then ret tt
          else
            run n ← lift (document a);
            exec modify (λ st, with_pdf (with_pdfDoc true (pdf st)) st);
            modify (λ st, with_pdf (with_pageCount n (pdf st)) st));
    lift (drawn a).

(** The [click] handlers of [#prevPageBtn], [#nextPageBtn], [#zoomInBtn]
    and [#zoomOutBtn], each for the answers of PDF.js to its call of
    the renderer. *)
Definition prevPageClick (a : pdfjs) : M unit :=
  run p ← gets pdf;
  if bool_decide (pageNum p > 1)%Z then
    exec modify (λ st, with_pdf (with_pageNum (pageNum (pdf st) - 1) (pdf st)) st);
    renderPdfPage a
  else ret tt.

Definition nextPageClick (a : pdfjs) : M unit :=
  run p ← gets pdf;
  if bool_decide (pageNum p < pageCount p)%Z then
    exec modify (λ st, with_pdf (with_pageNum (pageNum (pdf st) + 1) (pdf st)) st);
    renderPdfPage a
  else ret tt.

Definition zoomInClick (a : pdfjs) : M unit :=
  exec modify (λ st,
         with_pdf (with_scale (Qc_min (scale (pdf st) + step) maxScale)
                     (pdf st)) st);
  renderPdfPage a.

Definition zoomOutClick (a : pdfjs) : M unit :=
  exec modify (λ st,
         with_pdf (with_scale (Qc_max (scale (pdf st) - step) minScale)
                     (pdf st)) st);
  renderPdfPage a.

(** The [keydown] handler of the document: Escape closes every modal
    that is displayed. *)
Definition keydown (key : string) : M unit :=
  if bool_decide (key = "Escape") then
    run viewer ← gets (λ st, pdfModal (modals (page st)));
    exec (if (viewer : bool) then closePdf else ret tt);
    run editor ← gets (λ st, editModal (modals (page st)));
    exec (if (editor : bool) then closeEditModal else ret tt);
    run panel ← gets (λ st, configModal (modals (page st)));
    if (panel : bool) then closeConfigModal else ret tt
  else ret tt.

End Handlers.

(** ** More specifications *)

(** A tag as the Metadata Editor saves it: not empty, without a comma
    and without white space at either end. *)
Definition clean_tag (t : string) : Prop :=
  t ≠ "" ∧ Str.includes t "," = false ∧ Str.trim t = t.



(** A string that does not begin with white space. *)
Definition starts_clean (s : string) : Prop :=
  match s with
  | String c _ => Str.is_space c = false
  | EmptyString => True
  end.

(** A string of characters of the class and of dashes in which no dash
    follows a dash; with [after_dash], it does not begin with a dash
    either. *)
Fixpoint dashes_apart (after_dash : bool) (s : string) : bool :=
  match s with
  | EmptyString => true
  | String c r =>
      if bool_decide (c = "-"%char) then negb after_dash && dashes_apart true r
      else is_slug_char c && dashes_apart false r
  end.

(** What [flatMap] takes from a document for the tag facet: the
    elements of its tags when they are an array, the value itself when
    it is anything else, nothing when it is falsy. *)
Definition tag_values (b : value) : list value :=
  match or_else (prop b "tags") (VArr []) with
  | VArr xs => xs
  | v => [v]
  end.

(** A document that [renderBooks] can make a card of: it is neither
    [undefined] nor [null], and its tags are an array or falsy. *)
Definition renderable (b : value) : Prop :=
  b ≠ VUndef ∧ b ≠ VNull
  ∧ ∃ xs, or_else (prop b "tags") (VArr []) = VArr xs.

(** The sum of the sizes that are finite numbers. *)
Definition known_sizes_sum (l : list value) : Qc :=
  foldl (λ acc b, match prop b "sizeBytes" with
                  | VNum (Fin q) => (acc + q)%Qc
                  | _ => acc
                  end) 0%Qc l.

Definition with_booksGrid (g : list Card) (v : View) : View :=
  {| fieldOptions := fieldOptions v; tagFilters := tagFilters v;
     booksGrid := g; emptyState := emptyState v;
     resultsCount := resultsCount v; totalSize := totalSize v |}.

(** What [renderBooks] leaves on the page for the list [l], with the
    cards [cs] of its documents. *)
Definition rendered_view (l : list value) (cs : list Card) (v : View) : View :=
  {| fieldOptions := fieldOptions v; tagFilters := tagFilters v;
     booksGrid := cs;
     emptyState := bool_decide (l = []);
     resultsCount := length l;
     totalSize := match l with
                  | [] => Num.zero
                  | _ => Fin (known_sizes_sum l)
                  end |}.

(** A test of a filter that returned [true]. *)
Definition passes (o : outcome bool) : bool :=
  match o with
  | Done true => true
  | _ => false
  end.



(** The buttons of the viewer. *)
Inductive viewer_button : Type :=
| PrevPage
| NextPage
| ZoomIn
| ZoomOut.

(** The page and the zoom of the viewer are within their bounds. *)
Definition viewer_in_range (p : Pdf) : Prop :=
  (1 ≤ pageNum p ≤ pageCount p)%Z ∧ (minScale ≤ scale p ≤ maxScale)%Qc.

(** The viewer between two clicks: within its bounds and, as long as
    no session is open, on the first page of a count of one, as
    [closePdf] leaves it and [openPdf] after it. *)
Definition viewer_ok (p : Pdf) : Prop :=
  viewer_in_range p
  ∧ (pdfDoc p = false → pageNum p = 1%Z ∧ pageCount p = 1%Z).

(** A document that PDF.js loads has at least one page. *)
Definition has_pages (a : pdfjs) : Prop :=
  ∀ n, document a = Done n → (1 ≤ n)%Z.

Section MoreSpecs.

Context `{Host}.

(** [m] leaves the component [f] of the state as it is, whether it
    returns or throws. *)
Definition preserves {A X} (f : State → X) (m : M A) : Prop :=
  ∀ st, f (m st).2 = f st.

(** [f] reads nothing of what filtering, rendering and the rebuilding
    of the index and of the facets write: the cells, the page, the
    index, the facet sets and the reference to the filtered list. *)
Definition display_independent {X} (f : State → X) : Prop :=
  (∀ s st, f (with_store s st) = f st)
  ∧ (∀ p st, f (with_page p st) = f st)
  ∧ (∀ x st, f (with_fuse x st) = f st)
  ∧ (∀ fs ts st, f (with_facets fs ts st) = f st)
  ∧ (∀ l st, f (with_filteredBooks l st) = f st).

(** The list that [applyFiltersAndRender] computes from the documents
    [l] of the catalog before it renders it: the search, the field
    filter, the tag filters and the sort, each on the result of the
    one before. *)
Definition filtered_and_sorted (st : State) (l : list value)
  : outcome (list value) :=
  let query := Str.trim (searchInput (controls (page st))) in
  let fieldVal := fieldFilter (controls (page st)) in
  let active := Set_of (activeTags st) in
  do l1 ← (if bool_decide (query = "") then Done l
           else match fuse st with
                | Some fz => Fuse_search fz query
                | None => filterO (matches_query (toLowerCase query)) l
                end);
  do l2 ← (if bool_decide (fieldVal = "") then Done l1
           else filterO (has_field fieldVal) l1);
  do l3 ← (match active with
           | [] => Done l2
           | _ => filterO (has_tags active) l2
           end);
  Array_sort (compare_books (sortSelect (controls (page st)))) l3.

(** [st'] is [st] after the pipeline has computed [o] and rendered it:
    the filtered list is in a cell of its own and the page shows its
    cards. *)
Definition pipeline_done (st : State) (o : outcome (list value))
    (st' : State) : Prop :=
  ∃ shown cs s cell,
    o = Done shown
    ∧ Forall renderable shown
    ∧ mapO make_card shown = Done cs
    ∧ map card_book cs = shown
    ∧ s !! cell = Some (VArr shown)
    ∧ st' = with_page
              (with_view (rendered_view shown cs (view (page st))) (page st))
              (with_filteredBooks cell (with_store s st)).

(** The pipeline throws: in the search, a filter or the sort, or in
    the rendering of a document that is not renderable. *)
Definition pipeline_failed (o : outcome (list value)) : Prop :=
  (∃ e, o = Threw e) ∨ (∃ shown, o = Done shown ∧ ¬ Forall renderable shown).

(** The test that the pipeline applies to a document of the catalog
    when no index is in use: the plain search unless the query is
    empty, the field unless none is selected, the tags when some are
    active. *)
Definition shown_by (st : State) (b : value) : bool :=
  let query := Str.trim (searchInput (controls (page st))) in
  let fieldVal := fieldFilter (controls (page st)) in
  let active := Set_of (activeTags st) in
  (bool_decide (query = "")
   || passes (matches_query (toLowerCase query) b))
  && (bool_decide (fieldVal = "") || passes (has_field fieldVal b))
  && match active with
     | [] => true
     | _ => passes (has_tags active b)
     end.

(** The number by which the sorts on size and on date order a
    document: the value under the key, 0 when it is falsy. *)
Definition sort_key (k : string) (b : value) : Qc :=
  match to_number (or_else (prop b k) (VInt 0)) with
  | Fin q => q
  | _ => 0%Qc
  end.

Definition has_sort_key (k : string) (b : value) : Prop :=
  b ≠ VUndef ∧ b ≠ VNull
  ∧ ∃ q, to_number (or_else (prop b k) (VInt 0)) = Fin q.

(** The documents shown: the list [state.filteredBooks] refers to. *)
Definition shown (st : State) : value := deref st (filteredBooks st).

Definition viewer_click (b : viewer_button) (a : pdfjs) : M unit :=
  match b with
  | PrevPage => prevPageClick a
  | NextPage => nextPageClick a
  | ZoomIn => zoomInClick a
  | ZoomOut => zoomOutClick a
  end.

(** The state after a sequence of clicks on the buttons of the viewer,
    each with the answers of PDF.js: a click whose handler is rejected
    leaves the state it reached, and the next click starts from it. *)
Definition viewer_clicks (cs : list (viewer_button * pdfjs)) (st : State)
  : State :=
  foldl (λ st c, (viewer_click c.1 c.2 st).2) st cs.



End MoreSpecs.

(** ** More cases for the examples *)

Module Cases.







End Cases.

(** * Properties *)

(** ** The model on small inputs *)

Example filenameFromPath_nested :
  filenameFromPath (VStr "Books/Real Analysis/Rudin.pdf")
  = Done (VStr "Rudin.pdf").
Proof. reflexivity. Qed.

Example filenameFromPath_plain :
  filenameFromPath (VStr "Rudin.pdf") = Done (VStr "Rudin.pdf").
Proof. reflexivity. Qed.

Example filenameFromPath_undefined :
  filenameFromPath VUndef = Threw TypeError.
Proof. reflexivity. Qed.

Example parseInt_inputs :
  Str.parseInt " 42px" = Num.of_Z 42
  ∧ Str.parseInt "-7" = Num.of_Z (-7)
  ∧ Str.parseInt "0" = Num.of_Z 0
  ∧ Str.parseInt "" = NaN
  ∧ Str.parseInt "x1" = NaN.
Proof. repeat split; by vm_compute. Qed.

Example parseFloat_inputs :
  Str.parseFloat "0.4" = Fin (Q2Qc (4 # 10))
  ∧ Str.parseFloat "1e3" = Num.of_Z 1000
  ∧ Str.parseFloat "5." = Num.of_Z 5
  ∧ Str.parseFloat "." = NaN
  ∧ Str.parseFloat "abc" = NaN
  ∧ Str.parseFloat "-Infinity" = NegInf.
Proof. repeat split; by vm_compute. Qed.

Example trim_and_split :
  Str.trim "  real analysis  " = "real analysis"
  ∧ Str.split "," "a, b,,c" = ["a"; " b"; ""; "c"]
  ∧ parse_tags "a, b,,c " = [VStr "a"; VStr "b"; VStr "c"].
Proof. repeat split; by vm_compute. Qed.

Example stringify_drops_unknown_size :
  JSON_stringify (VArr [VObj [("id", VStr "a"); ("sizeBytes", VUndef)];
                        VObj [("id", VStr "b"); ("sizeBytes", VNum NaN)]])
  = Json (VArr [VObj [("id", VStr "a")];
                VObj [("id", VStr "b"); ("sizeBytes", VNull)]]).
Proof. reflexivity. Qed.

Example normalize_entry_without_id :
  (normalize (H := Sample.host) "manifest" Sample.axler 0).1
  = Done (VObj [("id", VStr "id0");
                ("title", VStr "Axler");
                ("author", VStr "");
                ("field", VStr "Linear Algebra");
                ("tags", VArr []);
                ("description", VStr "");
                ("path", VStr "Books/Linear Algebra/Axler.pdf");
                ("filename", VStr "Axler.pdf");
                ("sizeBytes", VNum NaN);
                ("addedAt", VInt 1700000000001);
                ("metadataSource", VStr "manifest")]).
Proof. by vm_compute. Qed.

Example scan_shows_two_books :
  resultsCount (view (page Sample.st_loaded)) = 2
  ∧ map card_title (booksGrid (view (page Sample.st_loaded)))
    = ["Axler"; "Rudin"]
  ∧ fieldOptions (view (page Sample.st_loaded)) = [""; "Linear Algebra"]
  ∧ tagFilters (view (page Sample.st_loaded)) = [VStr "analysis"].
Proof. repeat split; by vm_compute. Qed.

(** ** Numbers and values *)

Lemma Qc_of_Z_eq_inv (a b : Z) : Qc_of_Z a = Qc_of_Z b → a = b.
Proof.
  intros E. apply (f_equal this) in E. simpl in E.
  now injection E.
Qed.

Lemma strict_eq_length_zero (n : nat) :
  strict_eq (VInt (Z.of_nat n)) (VInt 0) = bool_decide (n = 0).
Proof.
  unfold strict_eq, VInt, Num.of_Z, Num.eqb.
  destruct n as [|n].
  - rewrite !bool_decide_eq_true_2; done.
  - rewrite !bool_decide_eq_false_2; [done | lia |].
    intros E. apply Qc_of_Z_eq_inv in E. lia.
Qed.

(** Strict equality holds between equal values only. *)
Lemma strict_eq_eq (a b : value) : strict_eq a b = true → a = b.
Proof.
  destruct a, b; simpl; try discriminate; try done;
    try (intros E; apply bool_decide_eq_true_1 in E; by subst).
  destruct n, n0; simpl; try discriminate; try done.
  intros E. apply bool_decide_eq_true_1 in E. by subst.
Qed.

Lemma truthy_or_else (a b : value) : truthy a = true → or_else a b = a.
Proof. unfold or_else. by intros ->. Qed.

Lemma or_else_empty_text (a : value) :
  truthy a = true ∨ a = VStr "" → or_else a (VStr "") = a.
Proof.
  intros [E | ->]; [by apply truthy_or_else | done].
Qed.

(** Reading a property of anything but [undefined] and [null] succeeds. *)
Lemma get_prop (v : value) (k : string) :
  v ≠ VUndef → v ≠ VNull → get v k = Done (prop v k).
Proof.
  unfold prop. destruct v; simpl; try done.
  - by destruct (bool_decide _).
  - by destruct (bool_decide _).
Qed.

Lemma get_obj (ps : list (string * value)) (k : string) :
  get (VObj ps) k = Done (prop (VObj ps) k).
Proof. by apply get_prop. Qed.

(** Only an object has a string under [path]. *)
Lemma has_path_obj (item : value) :
  has_path item → ∃ ps, item = VObj ps.
Proof.
  intros [s E]. destruct item; simpl in E; try discriminate; eauto.
Qed.

Lemma assoc_set_prop_eq k v ps : assoc k (set_prop k v ps) = Some v.
Proof.
  induction ps as [|[k' v'] ps IH]; simpl.
  - by rewrite bool_decide_eq_true_2.
  - destruct (bool_decide (k = k')) eqn:E; simpl.
    + by rewrite bool_decide_eq_true_2.
    + by rewrite E.
Qed.

Lemma assoc_set_prop_ne k k' v ps :
  k ≠ k' → assoc k (set_prop k' v ps) = assoc k ps.
Proof.
  intros Hne. induction ps as [|[k'' v''] ps IH]; simpl.
  - by rewrite bool_decide_eq_false_2.
  - destruct (bool_decide (k' = k'')) eqn:E; simpl.
    + apply bool_decide_eq_true_1 in E. subst k''.
      by rewrite !bool_decide_eq_false_2.
    + destruct (bool_decide (k = k'')); [done | apply IH].
Qed.

(** ** JSON texts *)

Lemma json_stable_defined v : json_stable v = true → v ≠ VUndef.
Proof. by destruct v. Qed.

(** A stable value is written as it is. *)
Lemma to_json_stable (v : value) : json_stable v = true → to_json v = v.
Proof.
  induction v as [| | | n | | l IH | ps IH] using value_ind; simpl; try done.
  - by intros ->.
  - intros Hs. f_equal.
    induction l as [|x l IHl]; [done |].
    simpl in Hs. apply andb_prop in Hs as [Hx Hl].
    inversion IH as [|? ? IHx IHl']; subst.
    simpl. rewrite IHl by done. f_equal.
    rewrite IHx by done. by destruct x.
  - intros Hs. f_equal.
    induction ps as [|[k x] ps IHps]; [done |].
    simpl in Hs. apply andb_prop in Hs as [Hx Hps].
    inversion IH as [|? ? IHx IHps']; subst. simpl in IHx.
    rewrite IHps by done. rewrite IHx by done.
    by destruct x.
Qed.

Lemma parse_stringify_stable (v : value) :
  json_stable v = true → JSON_parse (JSON_stringify v) = Done v.
Proof.
  intros Hs. unfold JSON_stringify.
  destruct v; simpl in *; try done; try (by rewrite ?Hs).
  - pose proof (to_json_stable (VArr elems) Hs) as E. simpl in E. by rewrite E.
  - pose proof (to_json_stable (VObj props) Hs) as E. simpl in E. by rewrite E.
Qed.

(** ** Rules for statement sequences *)

Section Rules.

Context `{Host}.

Lemma wp_ret {A} (a : A) Q E (st : State) : Q a st → wp (ret a) Q E st.
Proof. done. Qed.

Lemma wp_bind {A B} (m : M A) (k : A → M B) Q E st :
  wp m (λ a, wp (k a) Q E) E st → wp (bind m k) Q E st.
Proof.
  unfold wp, bind. by destruct (m st) as [[a|e] st'].
Qed.

Lemma wp_lift {A} (o : outcome A) Q E (st : State) :
  (∀ a, o = Done a → Q a st) → (∀ e, o = Threw e → E st) →
  wp (lift o) Q E st.
Proof. unfold wp, lift. destruct o; eauto. Qed.

Lemma wp_gets {A} (f : State → A) Q E st : Q (f st) st → wp (gets f) Q E st.
Proof. done. Qed.

Lemma wp_modify (f : State → State) Q E st :
  Q tt (f st) → wp (modify f) Q E st.
Proof. done. Qed.

Lemma wp_alloc (v : value) Q E st :
  Q (length (store st)) (with_store (store st ++ [v]) st) →
  wp (alloc v) Q E st.
Proof. done. Qed.

Lemma wp_on_clock {A} (m : SE nat A) Q E (st : State) :
  (∀ a t, m (clock st) = (Done a, t) → Q a (with_clock t st)) →
  (∀ e t, m (clock st) = (Threw e, t) → E (with_clock t st)) →
  wp (on_clock m) Q E st.
Proof.
  unfold wp, on_clock. destruct (m (clock st)) as [[a|e] t]; eauto.
Qed.

Lemma wp_try_catch {A} (m : M A) (h : exn → M A) Q E st :
  wp m Q (λ st', ∀ e, wp (h e) Q E st') st → wp (try_catch m h) Q E st.
Proof.
  unfold wp, try_catch. destruct (m st) as [[a|e] st']; [done |].
  intros Hh. apply Hh.
Qed.

Lemma wp_mono {A} (m : M A) (Q Q' : A → State → Prop) (E E' : State → Prop) st :
  wp m Q E st → (∀ a st', Q a st' → Q' a st') → (∀ st', E st' → E' st') →
  wp m Q' E' st.
Proof.
  unfold wp. destruct (m st) as [[a|e] st']; eauto.
Qed.

(** What holds however the sequence ends holds of the state it leaves. *)
Lemma wp_final {A} (m : M A) (J : State → Prop) st :
  wp m (λ _, J) J st → J (m st).2.
Proof. unfold wp. by destruct (m st) as [[a|e] st']. Qed.

(** *** Sequences that leave the cells alone *)

Lemma quiet_ret {A} (a : A) : quiet (ret a).
Proof. done. Qed.

Lemma quiet_lift {A} (o : outcome A) : quiet (lift o).
Proof. done. Qed.

Lemma quiet_gets {A} (f : State → A) : quiet (gets f).
Proof. done. Qed.

Lemma quiet_modify (f : State → State) :
  (∀ st, books (f st) = books st ∧ store (f st) = store st) →
  quiet (modify f).
Proof. intros Hf st. apply Hf. Qed.

Lemma quiet_bind {A B} (m : M A) (k : A → M B) :
  quiet m → (∀ a, quiet (k a)) → quiet (bind m k).
Proof.
  intros Hm Hk st. unfold bind.
  specialize (Hm st). destruct (m st) as [[a|e] st']; simpl in *; [|done].
  specialize (Hk a st'). destruct Hk as [-> ->]. done.
Qed.

Lemma quiet_wp {A} (m : M A) (J : State → Prop) st :
  quiet m →
  (∀ st', books st' = books st → store st' = store st → J st') →
  wp m (λ _, J) J st.
Proof.
  intros Hm HJ. unfold wp. specialize (Hm st).
  destruct (m st) as [[a|e] st']; simpl in Hm; destruct Hm; by apply HJ.
Qed.

Lemma quiet_keeps {A} (m : M A) b pre st :
  quiet m → keeps b pre st → wp m (λ _, keeps b pre) (keeps b pre) st.
Proof.
  intros Hm [Hb Hs]. apply quiet_wp; [done |].
  intros st' Eb Es. unfold keeps. by rewrite Eb, Es.
Qed.

End Rules.

(** Decomposes a goal [quiet m] along the structure of [m]. *)
Ltac quiet_step :=
  match goal with
  | |- quiet (bind _ _) => apply quiet_bind; [|intros ?]
  | |- quiet (ret _) => apply quiet_ret
  | |- quiet (lift _) => apply quiet_lift
  | |- quiet (gets _) => apply quiet_gets
  | |- quiet (modify _) => apply quiet_modify; by intros ?
  | |- quiet (if ?b then _ else _) => destruct b
  | |- quiet (match ?x with _ => _ end) => destruct x
  end.

Ltac quiet_auto := repeat quiet_step.

Section Frames.

Context `{Host}.

Lemma quiet_set_page f : quiet (set_page f).
Proof. unfold set_page. quiet_auto. Qed.

Lemma quiet_set_view f : quiet (set_view f).
Proof. apply quiet_set_page. Qed.

Lemma quiet_set_modals f : quiet (set_modals f).
Proof. apply quiet_set_page. Qed.

Lemma quiet_emit e : quiet (emit e).
Proof. unfold emit. quiet_auto. Qed.

Lemma quiet_showLoading b : quiet (showLoading b).
Proof. apply quiet_set_modals. Qed.

Lemma quiet_saveBooks : quiet saveBooks.
Proof. unfold saveBooks. quiet_auto. Qed.

Lemma quiet_saveConfig : quiet saveConfig.
Proof. unfold saveConfig. quiet_auto. Qed.

Lemma quiet_initFuse : quiet initFuse.
Proof. unfold initFuse. quiet_auto. Qed.

Lemma quiet_rebuildFacets : quiet rebuildFacets.
Proof.
  unfold rebuildFacets. quiet_auto. apply quiet_set_page.
Qed.

Lemma quiet_append_cards l : quiet (append_cards l).
Proof.
  induction l as [|b l IH]; simpl; quiet_auto; [apply quiet_set_view | done].
Qed.

Lemma quiet_renderBooks l : quiet (renderBooks l).
Proof.
  unfold renderBooks. quiet_auto;
    try apply quiet_set_view; try apply quiet_append_cards.
Qed.


Lemma quiet_closeConfigModal : quiet closeConfigModal.
Proof. apply quiet_set_modals. Qed.


End Frames.

(** ** The catalog behind the pipeline *)

Section Pipeline.

Context `{Host}.

Lemma keeps_length b pre (st : State) :
  keeps b pre st → length pre ≤ length (store st).
Proof.
  intros [_ E]. apply (f_equal length) in E.
  rewrite length_take in E. lia.
Qed.

Lemma keeps_refl (st : State) : keeps (books st) (store st) st.
Proof. split; [done | by rewrite firstn_all]. Qed.

Lemma keeps_alloc b pre v (st : State) :
  keeps b pre st →
  keeps b pre (with_store (store st ++ [v]) st)
  ∧ later_cell pre (length (store st)) (with_store (store st ++ [v]) st).
Proof.
  intros Hk. pose proof (keeps_length _ _ _ Hk) as Hlen.
  destruct Hk as [Hb Hs]. repeat split; simpl; try done.
  - by rewrite take_app_le.
  - rewrite length_app. simpl. lia.
Qed.

Lemma keeps_write b pre l v (st : State) :
  keeps b pre st → length pre ≤ l →
  keeps b pre (with_store (<[l := v]> (store st)) st).
Proof.
  intros [Hb Hs] Hl. split; simpl; [done |].
  by rewrite take_insert_ge.
Qed.

(** The catalog, read through a reference that [keeps] describes. *)
Lemma keeps_catalog b pre (st : State) :
  keeps b pre st → b < length pre → catalog st = default VUndef (pre !! b).
Proof.
  intros [Hb Hs] Hlt. unfold catalog, deref. rewrite Hb.
  by rewrite <- Hs, lookup_take_lt.
Qed.

Lemma filter_into_new_keeps f l b pre (st : State) :
  keeps b pre st →
  wp (filter_into_new f l)
     (λ l' st', keeps b pre st' ∧ later_cell pre l' st') (keeps b pre) st.
Proof.
  intros Hk. unfold filter_into_new.
  apply wp_bind, wp_gets.
  apply wp_bind, wp_lift; [|done]. intros elems _.
  apply wp_bind, wp_lift; [|done]. intros kept_elems _.
  apply wp_alloc. by apply keeps_alloc.
Qed.

(** Filtering, sorting and rendering leave the catalog reference and
    every cell that existed before untouched. *)
Lemma applyFiltersAndRender_keeps b pre (st : State) :
  keeps b pre st →
  wp applyFiltersAndRender (λ _, keeps b pre) (keeps b pre) st.
Proof.
  intros Hk. unfold applyFiltersAndRender.
  do 4 apply wp_bind, wp_gets.
  apply wp_bind, wp_lift; [|done]. intros elems _.
  apply wp_bind, wp_alloc.
  destruct (keeps_alloc b pre (VArr elems) st Hk) as [Hk0 Hl0].
  set (tracked := λ (l : nat) (st' : State),
                    keeps b pre st' ∧ later_cell pre l st').
  apply wp_bind.
  apply wp_mono with (Q := tracked) (E := keeps b pre); [| |done].
  { destruct (bool_decide _); [by apply wp_ret |].
    apply wp_bind, wp_gets.
    destruct (fuse _) as [fz|].
    - apply wp_bind, wp_lift; [|done]. intros items _.
      apply wp_alloc. by apply keeps_alloc.
    - by apply filter_into_new_keeps. }
  intros list1 st1 [Hk1 Hl1].
  apply wp_bind.
  apply wp_mono with (Q := tracked) (E := keeps b pre); [| |done].
  { destruct (bool_decide _); [by apply wp_ret |].
    by apply filter_into_new_keeps. }
  intros list2 st2 [Hk2 Hl2].
  apply wp_bind.
  apply wp_mono with (Q := tracked) (E := keeps b pre); [| |done].
  { destruct (Set_of _); [by apply wp_ret |].
    by apply filter_into_new_keeps. }
  intros list3 st3 [Hk3 Hl3].
  do 2 apply wp_bind, wp_gets.
  apply wp_bind, wp_lift; [|done]. intros l _.
  apply wp_bind, wp_lift; [|done]. intros sorted _.
  apply wp_bind. unfold write. apply wp_modify.
  apply wp_bind, wp_modify.
  apply quiet_keeps; [apply quiet_renderBooks |].
  apply keeps_write; [done | apply Hl3].
Qed.

Lemma wp_seq_keeps {A B} (m : M A) (k : M B) b pre (st : State) :
  wp m (λ _, keeps b pre) (keeps b pre) st →
  (∀ st', keeps b pre st' → wp k (λ _, keeps b pre) (keeps b pre) st') →
  wp (exec m; k) (λ _, keeps b pre) (keeps b pre) st.
Proof.
  intros Hm Hk. apply wp_bind.
  apply wp_mono with (Q := λ _, keeps b pre) (E := keeps b pre); [done | | done].
  intros _ st'. apply Hk.
Qed.

(** The steps that follow every change of the catalog. *)
Lemma refresh_keeps {A} (last : M A) b pre (st : State) :
  quiet last → keeps b pre st →
  wp (exec saveBooks; exec initFuse; exec rebuildFacets;
      exec applyFiltersAndRender; last)
     (λ _, keeps b pre) (keeps b pre) st.
Proof.
  intros Hlast Hk.
  apply wp_seq_keeps; [by apply quiet_keeps, Hk; apply quiet_saveBooks |].
  intros st1 Hk1.
  apply wp_seq_keeps; [by apply quiet_keeps, Hk1; apply quiet_initFuse |].
  intros st2 Hk2.
  apply wp_seq_keeps; [by apply quiet_keeps, Hk2; apply quiet_rebuildFacets |].
  intros st3 Hk3.
  apply wp_seq_keeps; [by apply applyFiltersAndRender_keeps |].
  intros st4 Hk4. by apply quiet_keeps.
Qed.

End Pipeline.

(** ** The pipeline does not touch the catalog *)

(** C9.  For every catalog and every combination of query, field
    selection, active tags and sort key, [applyFiltersAndRender] leaves
    [state.books] referring to the same array, and that array holds the
    same documents in the same order, whether the call returns or
    throws: filtering and sorting work on a copy. *)
Theorem applyFiltersAndRender_preserves_catalog `{Host}
    (st : State) (query fieldVal sort : string) (active : list value)
    (bs : value) :
  store st !! books st = Some bs →
  let st' := (applyFiltersAndRender
                (with_inputs query fieldVal sort active st)).2 in
  books st' = books st ∧ store st' !! books st' = Some bs.
Proof.
  intros Hbs st'.
  assert (keeps (books st) (store st) st') as [Hb Hs].
  { apply (wp_final applyFiltersAndRender).
    apply applyFiltersAndRender_keeps.
    apply (keeps_refl (with_inputs query fieldVal sort active st)). }
  split; [done |]. rewrite Hb.
  transitivity (take (length (store st)) (store st') !! books st).
  - symmetry. apply lookup_take_lt.
    apply lookup_lt_is_Some. by rewrite Hbs.
  - by rewrite Hs.
Qed.

Lemma applyFiltersAndRender_preserves_catalog_witness :
  let st' := (applyFiltersAndRender
                (with_inputs "rud" "" "size" [VStr "analysis"]
                   Sample.st_loaded)).2 in
  books st' = books Sample.st_loaded
  ∧ store st' !! books st' = Some (catalog Sample.st_loaded).
Proof.
  apply (applyFiltersAndRender_preserves_catalog (H := Sample.host)
           Sample.st_loaded "rud" "" "size" [VStr "analysis"]
           (catalog Sample.st_loaded)).
  vm_compute. reflexivity.
Defined.

(** ** Scanning *)

Section Scan.

Context `{Host}.

(** Without a manifest, the fetch comes to [null] or to an empty array. *)
Lemma no_manifest_value r :
  no_manifest r → tryLoadManifest r = VNull ∨ tryLoadManifest r = VArr [].
Proof.
  intros [ | body | s | v Hv | ]; simpl; auto.
  rewrite Hv. auto.
Qed.

Lemma scanBooks_no_manifest (st : State) r :
  no_manifest r →
  (scanBooks r st).1 = Done tt
  ∧ effects (scanBooks r st).2 = effects st ++ [Alert NoManifestFound]
  ∧ books (scanBooks r st).2 = books st
  ∧ store (scanBooks r st).2 = store st
  ∧ localStorage (scanBooks r st).2 = localStorage st
  ∧ loadingIndicator (modals (page (scanBooks r st).2)) = false.
Proof.
  intros Hr. unfold scanBooks.
  destruct (no_manifest_value r Hr) as [-> | ->].
  - done.
  - by simpl.
Qed.

End Scan.

(** C3.  Whenever [scanBooks] obtains no manifest (the fetch fails, the
    status is not a success, the body is not a JSON array, or the array
    is empty), it ends by notifying the user, and the catalog is what it
    was before the scan, in memory (the reference and every cell) and
    in storage. *)
Theorem scan_failure_leaves_catalog `{Host} (st : State) (r : fetch_result) :
  no_manifest r →
  let st' := (scanBooks r st).2 in
  (scanBooks r st).1 = Done tt
  ∧ last (effects st') = Some (Alert NoManifestFound)
  ∧ books st' = books st
  ∧ store st' = store st
  ∧ catalog st' = catalog st
  ∧ persisted_books st' = persisted_books st.
Proof.
  intros Hr st'.
  destruct (scanBooks_no_manifest st r Hr) as (Ho & He & Hb & Hs & Hl & _).
  repeat split; try done.
  - subst st'. rewrite He. apply last_snoc.
  - unfold catalog, deref. subst st'. by rewrite Hb, Hs.
  - unfold persisted_books. subst st'. by rewrite Hl.
Qed.

Lemma scan_failure_leaves_catalog_witness :
  let r := Response true (Json (VObj [("books", VArr [])])) in
  let st' := (scanBooks r Sample.st_loaded).2 in
  (scanBooks r Sample.st_loaded).1 = Done tt
  ∧ last (effects st') = Some (Alert NoManifestFound)
  ∧ books st' = books Sample.st_loaded
  ∧ store st' = store Sample.st_loaded
  ∧ catalog st' = catalog Sample.st_loaded
  ∧ persisted_books st' = persisted_books Sample.st_loaded.
Proof.
  apply (scan_failure_leaves_catalog (H := Sample.host) Sample.st_loaded).
  apply body_not_array. reflexivity.
Defined.

(** ** The viewer *)

Section Viewer.

Context `{Host}.

Lemma megabyte_nonzero : Qc_of_Z (1024 * 1024) ≠ 0%Qc.
Proof.
  intros E. apply (f_equal this) in E. vm_compute in E. discriminate.
Qed.

Lemma sizeMB_known (q : Qc) :
  sizeMB (VNum (Fin q)) = Fin (q / Qc_of_Z 1048576).
Proof.
  unfold sizeMB. simpl. reflexivity.
Qed.

Lemma sizeMB_unknown (size : value) :
  Number_isFinite size = false → sizeMB size = NaN.
Proof. unfold sizeMB. by intros ->. Qed.

(** A known size is a finite number. *)
Lemma known_size (size : value) :
  Number_isFinite size = true → ∃ q, size = VNum (Fin q).
Proof.
  destruct size as [| | | [| | |q] | | |]; simpl; try discriminate. eauto.
Qed.

(** The test of [openPdf], in the words of the eligibility rule. *)
Lemma allowInline_iff (size : value) (c : Config) :
  allowInline size c = true ↔
  Number_isFinite size = false
  ∨ ∃ q, size = VNum (Fin q)
         ∧ Num.le (Fin (q / Qc_of_Z 1048576)) (maxViewerSizeMB c) = true.
Proof.
  unfold allowInline.
  destruct (Number_isFinite size) eqn:Hfin.
  - destruct (known_size size Hfin) as [q ->]. rewrite sizeMB_known. simpl.
    split.
    + intros E. right. eauto.
    + intros [E | (q' & E & Hle)]; [discriminate |]. by simplify_eq.
  - rewrite sizeMB_unknown by done. simpl. split; auto.
Qed.

Lemma whole_megabytes (n : Z) :
  (Qc_of_Z (n * 1048576) / Qc_of_Z 1048576 = Qc_of_Z n)%Qc.
Proof.
  rewrite Z2Qc_inj_mul. apply Qcdiv_mult_l. apply megabyte_nonzero.
Qed.

Lemma one_byte_over (n : Z) :
  (Qc_of_Z n < Qc_of_Z (n * 1048576 + 1) / Qc_of_Z 1048576)%Qc.
Proof.
  rewrite Z2Qc_inj_add, Z2Qc_inj_mul.
  unfold Qcdiv. rewrite Qcmult_plus_distr_l.
  fold (Qcdiv (Qc_of_Z n * Qc_of_Z 1048576) (Qc_of_Z 1048576)).
  rewrite Qcdiv_mult_l by apply megabyte_nonzero.
  rewrite <- (Qcplus_0_r (Qc_of_Z n)) at 1.
  apply Qcplus_lt_mono_l. by vm_compute.
Qed.

(** What [openPdf] does on each side of the test. *)
Lemma openPdf_run (st : State) (book size : value) :
  get book "sizeBytes" = Done size →
  let href := encodeURI (to_string (prop book "path")) in
  let st' := (openPdf book st).2 in
  (openPdf book st).1 = Done tt
  ∧ (if allowInline size (config st)
     then pdfModal (modals (page st')) = true
          ∧ url (pdf st') = VStr href
          ∧ effects st' = effects st ++ [RenderPdfPage]
     else effects st' = effects st ++ [WindowOpen href "_blank"]
          ∧ page st' = page st
          ∧ pdf st' = pdf st).
Proof.
  intros Hsize href st'.
  assert (∀ k, get book k = Done (prop book k)) as Hget.
  { intros k. apply get_prop; intros ->; discriminate. }
  subst st' href. unfold openPdf, bind, lift, gets.
  rewrite Hsize. simpl.
  destruct (allowInline size (config st)); simpl; rewrite !Hget; simpl; done.
Qed.

End Viewer.

(** C7.  For every document and configuration, [openPdf] opens the
    document inline exactly when its size is unknown (not a finite
    number) or its size divided by 1,048,576 is at most
    [maxViewerSizeMB]; otherwise it opens the document in a new
    browsing context and leaves the viewer closed.  A document of
    exactly [n] megabytes under a threshold of [n] opens inline, one
    byte more opens externally. *)
Theorem openPdf_eligibility `{Host} (st : State) (book size : value) :
  get book "sizeBytes" = Done size →
  let eligible :=
    Number_isFinite size = false
    ∨ ∃ q, size = VNum (Fin q)
           ∧ Num.le (Fin (q / Qc_of_Z 1048576))
                    (maxViewerSizeMB (config st)) = true in
  let href := encodeURI (to_string (prop book "path")) in
  let st' := (openPdf book st).2 in
  (eligible →
     pdfModal (modals (page st')) = true
     ∧ url (pdf st') = VStr href
     ∧ effects st' = effects st ++ [RenderPdfPage])
  ∧ (¬ eligible →
     effects st' = effects st ++ [WindowOpen href "_blank"]
     ∧ page st' = page st
     ∧ pdf st' = pdf st)
  ∧ (∀ n : Z, maxViewerSizeMB (config st) = Num.of_Z n →
       (size = VInt (n * 1048576) → eligible)
       ∧ (size = VInt (n * 1048576 + 1) → ¬ eligible)).
Proof.
  intros Hsize eligible href st'.
  destruct (openPdf_run st book size Hsize) as [_ Hrun].
  pose proof (allowInline_iff size (config st)) as Hiff.
  fold eligible in Hiff. fold href st' in Hrun.
  split; [|split].
  - intros He. apply Hiff in He. by rewrite He in Hrun.
  - intros Hne.
    destruct (allowInline size (config st)); [|done].
    exfalso. apply Hne. by apply Hiff.
  - intros n Hmax. split.
    + intros ->. right. eexists. split; [done |].
      rewrite Hmax, whole_megabytes. simpl.
      by apply bool_decide_eq_true_2.
    + intros -> [Hf | (q & Hq & Hle)]; [discriminate |].
      unfold VInt, Num.of_Z in Hq. simplify_eq.
      rewrite Hmax in Hle. simpl in Hle.
      apply bool_decide_eq_true_1 in Hle.
      apply Qcle_not_lt in Hle. apply Hle, one_byte_over.
Qed.

(** The theorem at a document of exactly 10 MB under the default
    threshold of 10: it opens inline. *)
Lemma openPdf_eligibility_witness :
  let book := Sample.rudin in
  let st := Sample.st_loaded in
  let href := encodeURI (Host := Sample.host)
                (to_string (H := Sample.host) (prop book "path")) in
  let st' := (openPdf book st).2 in
  get book "sizeBytes" = Done (VInt (10 * 1048576))
  ∧ pdfModal (modals (page st')) = true
  ∧ url (pdf st') = VStr href
  ∧ effects st' = effects st ++ [RenderPdfPage].
Proof.
  intros book st href st'.
  assert (get book "sizeBytes" = Done (VInt (10 * 1048576))) as Hsize
    by reflexivity.
  split; [done |].
  destruct (openPdf_eligibility (H := Sample.host) st book
              (VInt (10 * 1048576)) Hsize) as (Hin & _ & Hbound).
  apply Hin. by apply (Hbound 10%Z).
Defined.

(** ** The Configuration Panel *)

Section ConfigPanel.

Context `{Host}.

Lemma initFuse_config (st : State) :
  config (initFuse st).2 = config st
  ∧ localStorage (initFuse st).2 = localStorage st.
Proof.
  unfold initFuse, bind, gets, lift, modify. simpl.
  destruct (fuzzySearch (config st)); simpl; [|done].
  destruct (get (catalog st) "length"); simpl; [|done].
  destruct (strict_eq _ _); simpl; [done |].
  by destruct (Fuse_new _ _).
Qed.

(** Saving sets the configuration from the form and stores it, whether
    or not the rebuild of the index that follows succeeds. *)
Lemma saveConfigClick_saves (st : State) :
  let c := config_of_form (configForm (page st)) in
  config (saveConfigClick st).2 = c
  ∧ localStorage (saveConfigClick st).2 !! LS_CONFIG
    = Some (JSON_stringify (config_value c)).
Proof.
  intros c.
  set (J := λ s : State,
         config s = c
         ∧ localStorage s !! LS_CONFIG = Some (JSON_stringify (config_value c))).
  apply (wp_final saveConfigClick J).
  unfold saveConfigClick.
  apply wp_bind, wp_gets. apply wp_bind, wp_modify.
  apply wp_bind. unfold saveConfig. apply wp_modify.
  set (st1 := with_localStorage _ _).
  assert (J st1) as [Hc1 Hl1].
  { split; [done |]. apply lookup_insert_eq. }
  clearbody st1. apply wp_bind.
  apply wp_mono with (Q := λ _, J) (E := J); [| |done].
  - unfold wp. destruct (initFuse_config st1) as [Hc Hl].
    destruct (initFuse st1) as [[[]|e] st2]; split; simpl in Hc, Hl; congruence.
  - intros _ st2 HJ. unfold closeConfigModal, set_modals, set_page.
    by apply wp_modify.
Qed.

Lemma persisted_config_saved (st : State) :
  persisted_config (saveConfigClick st).2
  = to_json (config_value (config_of_form (configForm (page st)))).
Proof.
  unfold persisted_config.
  destruct (saveConfigClick_saves st) as [_ ->]. done.
Qed.

(** [parseInt] gives [NaN] or an integer. *)
Lemma parseInt_cases (s : string) :
  Str.parseInt s = NaN ∨ ∃ z, Str.parseInt s = Num.of_Z z.
Proof.
  unfold Str.parseInt.
  destruct (Str.sign _) as [neg r].
  destruct (Str.digits r) as [[|d ds] rest]; eauto.
Qed.

(** The viewer size that is saved is a number from 1 to 50. *)
Lemma viewer_size_in_range (input : string) :
  ∃ q, viewer_size_of_input input = Fin q
       ∧ (Qc_of_Z 1 ≤ q)%Qc ∧ (q ≤ Qc_of_Z 50)%Qc.
Proof.
  unfold viewer_size_of_input.
  assert (∃ q, (if Num.truthy (Str.parseInt input) then Str.parseInt input
                else Num.of_Z 10) = Fin q) as [q ->].
  { destruct (parseInt_cases input) as [-> | [z ->]]; simpl; [by eauto |].
    destruct (negb _); eauto. }
  unfold Num.min, Num.max, Num.of_Z, Num.le.
  destruct (bool_decide (Qc_of_Z 50 ≤ q)%Qc) eqn:E50.
  - exists (Qc_of_Z 50). rewrite bool_decide_eq_true_2 by by vm_compute.
    repeat split; [by vm_compute | done].
  - apply bool_decide_eq_false_1 in E50.
    destruct (bool_decide (Qc_of_Z 1 ≤ q)%Qc) eqn:E1.
    + apply bool_decide_eq_true_1 in E1. exists q.
      repeat split; [done |]. apply Qclt_le_weak. by apply Qcnot_le_lt.
    + exists (Qc_of_Z 1). repeat split; by vm_compute.
Qed.

(** Inputs above the range, below it, inside it, unparsable and zero. *)
Lemma viewer_size_examples :
  viewer_size_of_input "9999" = Num.of_Z 50
  ∧ viewer_size_of_input "-3" = Num.of_Z 1
  ∧ viewer_size_of_input "25" = Num.of_Z 25
  ∧ viewer_size_of_input "abc" = Num.of_Z 10
  ∧ viewer_size_of_input "" = Num.of_Z 10
  ∧ viewer_size_of_input "0" = Num.of_Z 10.
Proof. repeat split; by vm_compute. Qed.

End ConfigPanel.

(** C6 (what the code does at the input 0).  Saving the Configuration
    Panel with [0] in the viewer-size input stores 10, not 1: the
    parsed [0] is falsy, so [|| 10] replaces it before the clamp. *)
Theorem viewer_size_zero_saved_as_ten `{Host} (st : State) :
  maxViewerSizeInput (configForm (page st)) = "0" →
  let st' := (saveConfigClick st).2 in
  maxViewerSizeMB (config st') = Num.of_Z 10
  ∧ prop (persisted_config st') "maxViewerSizeMB" = VInt 10
  ∧ VInt 10 ≠ VInt 1.
Proof.
  intros Hin st'. subst st'.
  rewrite persisted_config_saved.
  destruct (saveConfigClick_saves st) as [-> _].
  unfold config_of_form. rewrite Hin.
  repeat split.
  intros E. unfold VInt, Num.of_Z in E. simplify_eq.
Qed.

Lemma viewer_size_zero_saved_as_ten_witness :
  let st' := (saveConfigClick Sample.st_configuring).2 in
  maxViewerSizeMB (config st') = Num.of_Z 10
  ∧ prop (persisted_config st') "maxViewerSizeMB" = VInt 10
  ∧ VInt 10 ≠ VInt 1.
Proof.
  apply (viewer_size_zero_saved_as_ten (H := Sample.host)
           Sample.st_configuring).
  reflexivity.
Defined.

Section Threshold.

Context `{Host}.

Lemma default_threshold_nonzero : Q2Qc (4 # 10) ≠ 0%Qc.
Proof.
  intros E. apply (f_equal this) in E. vm_compute in E. discriminate.
Qed.

(** Falsy input: the default takes its place. *)
Lemma threshold_of_falsy (input : string) :
  Num.truthy (Str.parseFloat input) = false →
  threshold_of_input input = Fin (Q2Qc (4 # 10)).
Proof. unfold threshold_of_input. by intros ->. Qed.

(** The saved threshold is never the number zero. *)
Lemma threshold_of_input_nonzero (input : string) :
  threshold_of_input input ≠ Fin 0%Qc.
Proof.
  unfold threshold_of_input.
  destruct (Num.truthy (Str.parseFloat input)) eqn:Ht.
  - intros E. rewrite E in Ht. by vm_compute in Ht.
  - intros E. injection E as E. by apply default_threshold_nonzero.
Qed.

Lemma persisted_threshold (st : State) :
  let t := threshold_of_input (searchThresholdInput (configForm (page st))) in
  prop (persisted_config (saveConfigClick st).2) "searchThreshold"
  = if Num.isFinite t then VNum t else VNull.
Proof. intros t. rewrite persisted_config_saved. reflexivity. Qed.

End Threshold.

(** C10.  On configuration save, a threshold input that parses to the
    number 0 is stored as the default 0.4, in the configuration and in
    storage, as is an input that does not parse: the default of [||]
    applies to 0 as well.  Whatever the input, the threshold saved
    through the Configuration Panel is never 0. *)
Theorem threshold_zero_saved_as_default `{Host} (st : State) :
  let input := searchThresholdInput (configForm (page st)) in
  Str.parseFloat input = Fin 0%Qc ∨ Str.parseFloat input = NaN →
  let st' := (saveConfigClick st).2 in
  (searchThreshold (config st') = searchThreshold DEFAULT_CONFIG
   ∧ prop (persisted_config st') "searchThreshold"
     = VNum (searchThreshold DEFAULT_CONFIG))
  ∧ ∀ st0 : State,
      searchThreshold (config (saveConfigClick st0).2) ≠ Fin 0%Qc
      ∧ prop (persisted_config (saveConfigClick st0).2) "searchThreshold"
        ≠ VNum (Fin 0%Qc).
Proof.
  intros input Hin st'.
  assert (Num.truthy (Str.parseFloat input) = false) as Hfalsy.
  { by destruct Hin as [-> | ->]. }
  split.
  - subst st'. rewrite persisted_threshold.
    destruct (saveConfigClick_saves st) as [-> _]. simpl.
    fold input. by rewrite threshold_of_falsy.
  - intros st0. rewrite persisted_threshold.
    destruct (saveConfigClick_saves st0) as [-> _]. simpl.
    pose proof (threshold_of_input_nonzero
                  (searchThresholdInput (configForm (page st0)))) as Hnz.
    split; [done |].
    destruct (threshold_of_input _) as [| | |q]; simpl; try done.
    intros E. by simplify_eq.
Qed.

Lemma threshold_zero_saved_as_default_witness :
  let st' := (saveConfigClick Sample.st_configuring).2 in
  (searchThreshold (config st') = searchThreshold DEFAULT_CONFIG
   ∧ prop (persisted_config st') "searchThreshold"
     = VNum (searchThreshold DEFAULT_CONFIG))
  ∧ ∀ st0 : State (H := Sample.host),
      searchThreshold (config (saveConfigClick st0).2) ≠ Fin 0%Qc
      ∧ prop (persisted_config (saveConfigClick st0).2) "searchThreshold"
        ≠ VNum (Fin 0%Qc).
Proof.
  apply (threshold_zero_saved_as_default (H := Sample.host)
           Sample.st_configuring).
  left. transitivity (Fin (Qc_of_Z 0)); [by vm_compute |].
  f_equal. apply Qc_is_canon. reflexivity.
Defined.

(** ** Normalization *)

Section Normalization.

Context `{Host}.

(** [normalize] on an entry that is neither [undefined] nor [null]:
    only the file name can fail. *)
Lemma normalize_defined (source : string) (item : value) (t : nat) :
  item ≠ VUndef → item ≠ VNull →
  normalize source item t =
  let '(id, t1) :=
    if truthy (prop item "id") then (prop item "id", t)
    else (VStr (uniqueId_at t), S t) in
  match filenameFromPath (prop item "path") with
  | Threw e => (Threw e, t1)
  | Done filename =>
      let '(addedAt, t2) :=
        if truthy (prop item "addedAt") then (prop item "addedAt", t1)
        else (VInt (Date_now_at t1), S t1) in
      (Done (VObj [("id", id);
                   ("title", or_else (prop item "title") (VStr ""));
                   ("author", or_else (prop item "author") (VStr ""));
                   ("field", or_else (prop item "field") (VStr ""));
                   ("tags", or_else (prop item "tags") (VArr []));
                   ("description",
                    or_else (prop item "description") (VStr ""));
                   ("path", prop item "path");
                   ("filename", filename);
                   ("sizeBytes", if is_number (prop item "sizeBytes")
                                 then prop item "sizeBytes" else VNum NaN);
                   ("addedAt", addedAt);
                   ("metadataSource",
                    or_else (prop item "metadataSource") (VStr source))]),
       t2)
  end.
Proof.
  intros Hu Hn. unfold normalize, bind, lift, ret.
  rewrite !get_prop by done.
  destruct (truthy (prop item "id")); simpl;
    destruct (filenameFromPath (prop item "path")); simpl; try done;
    by destruct (truthy (prop item "addedAt")).
Qed.

(** An entry with a string path is normalized. *)
Lemma normalize_with_path (source : string) (item : value) (t : nat) :
  has_path item →
  ∃ rec t', normalize source item t = (Done rec, t')
            ∧ is_normalized source item rec.
Proof.
  intros Hp. destruct (has_path_obj item Hp) as [ps ->].
  destruct Hp as [s Hs]. rewrite get_obj in Hs. injection Hs as Hs.
  rewrite normalize_defined by done. rewrite Hs.
  destruct (truthy (prop (VObj ps) "id")) eqn:Hid;
    destruct (truthy (prop (VObj ps) "addedAt")) eqn:Hat; simpl;
    eexists _, _; (split; [reflexivity |]);
    eexists _, _, _; rewrite ?Hs, ?Hid, ?Hat; simpl;
    (split; [reflexivity |]); eauto.
Qed.

(** An entry without one makes [normalize] throw a [TypeError]. *)
Lemma normalize_without_path (source : string) (item : value) (t : nat) :
  ¬ has_path item →
  ∃ t', normalize source item t = (Threw TypeError, t').
Proof.
  intros Hp.
  assert (item = VUndef ∨ item = VNull ∨ (item ≠ VUndef ∧ item ≠ VNull))
    as [-> | [-> | [Hu Hn]]] by (destruct item; auto);
    [by eexists | by eexists |].
  rewrite normalize_defined by done.
  assert (filenameFromPath (prop item "path") = Threw TypeError) as ->.
  { destruct (prop item "path") as [| | | | s | |] eqn:E; try done.
    exfalso. apply Hp. exists s. by rewrite get_prop, E. }
  destruct (truthy (prop item "id")); by eexists.
Qed.

Lemma normalize_all_with_paths (source : string) (items : list value) (t : nat) :
  Forall has_path items →
  ∃ recs t', mapSE (normalize source) items t = (Done recs, t')
             ∧ Forall2 (is_normalized source) items recs.
Proof.
  intros Hall. revert t.
  induction Hall as [|item items Hitem _ IH]; intros t; simpl.
  - by eexists [], t.
  - destruct (normalize_with_path source item t Hitem) as (rec & t1 & E & Hn).
    destruct (IH t1) as (recs & t2 & Es & Hns).
    exists (rec :: recs), t2. unfold bind. rewrite E, Es. split; [done |].
    by constructor.
Qed.

Lemma normalize_all_without_path (source : string) (items : list value)
    (t : nat) :
  ¬ Forall has_path items →
  ∃ t', mapSE (normalize source) items t = (Threw TypeError, t').
Proof.
  revert t. induction items as [|item items IH]; intros t Hnot.
  - exfalso. apply Hnot. constructor.
  - simpl. unfold bind.
    destruct (get item "path") as [[| | | | s | |]|e] eqn:E;
      try (destruct (normalize_without_path source item t) as [t' ->];
           [intros [s' Hs']; congruence | by eexists]).
    assert (has_path item) as Hitem by by exists s.
    destruct (normalize_with_path source item t Hitem) as (rec & t1 & -> & _).
    destruct (IH t1) as [t' ->]; [|by eexists].
    intros Hall. apply Hnot. by constructor.
Qed.

End Normalization.

(** ** Replacing the catalog *)

Section Replace.

Context `{Host}.

(** The steps of [scanBooks] and [importBooksJson] after the new
    catalog is in place. *)
Lemma refresh_catalog {A} (last : M A) (recs : list value) (st : State) :
  quiet last →
  let st1 := with_books (length (store st))
               (with_store (store st ++ [VArr recs]) st) in
  catalog ((exec saveBooks; exec initFuse; exec rebuildFacets;
            exec applyFiltersAndRender; last) st1).2 = VArr recs.
Proof.
  intros Hlast st1.
  assert (keeps (books st1) (store st1) st1) as Hk by apply keeps_refl.
  apply (refresh_keeps last) in Hk; [|done].
  apply wp_final in Hk.
  rewrite (keeps_catalog _ _ _ Hk); simpl.
  - by rewrite list_lookup_middle.
  - rewrite length_app. simpl. lia.
Qed.

(** [scanBooks] on a manifest that is a non-empty array. *)
Lemma scanBooks_manifest (st : State) (r : fetch_result) (items : list value) :
  tryLoadManifest r = VArr items → items ≠ [] →
  let st1 := (showLoading true st).2 in
  scanBooks r st =
  match mapSE (normalize "manifest") items (clock st) with
  | (Threw e, t') => (Threw e, with_clock t' st1)
  | (Done recs, t') =>
      (exec saveBooks; exec initFuse; exec rebuildFacets;
       exec applyFiltersAndRender; showLoading false)
        (with_books (length (store st))
           (with_store (store st ++ [VArr recs]) (with_clock t' st1)))
  end.
Proof.
  intros Hr Hne st1. unfold scanBooks. rewrite Hr.
  unfold bind at 1. simpl.
  unfold bind at 1. unfold bind at 1. simpl.
  rewrite bool_decide_eq_false_2; last first.
  { intros E. apply Qc_of_Z_eq_inv in E. destruct items; [done | simpl in E; lia]. }
  unfold bind at 1. simpl.
  unfold bind at 1. unfold on_clock at 1. simpl.
  destruct (mapSE (normalize "manifest") items (clock st)) as [[recs|e] t'];
    [|done].
  reflexivity.
Qed.

(** [importBooksJson] on a file that holds an array. *)
Lemma importBooksJson_array (st : State) (items : list value) :
  importBooksJson (Json (VArr items)) st =
  match mapSE (normalize "import") items (clock st) with
  | (Threw e, t') => emit (Alert (ImportFailed e)) (with_clock t' st)
  | (Done recs, t') =>
      try_catch
        (exec saveBooks; exec initFuse; exec rebuildFacets;
         exec applyFiltersAndRender; emit (Alert ImportedOk))
        (λ err, emit (Alert (ImportFailed err)))
        (with_books (length (store st))
           (with_store (store st ++ [VArr recs]) (with_clock t' st)))
  end.
Proof.
  unfold importBooksJson, try_catch.
  unfold bind at 1. simpl. unfold bind at 1. simpl.
  unfold bind at 1. simpl.
  unfold bind at 1. unfold on_clock at 1. simpl.
  destruct (mapSE (normalize "import") items (clock st)) as [[recs|e] t'];
    [|done].
  reflexivity.
Qed.

End Replace.

(** ** Entries without a path *)

(** C5 (what the code does with an entry that has no path).  When some
    entry of the manifest carries no string under [path], the
    normalization of [scanBooks] throws a [TypeError] out of the
    function: nothing is loaded, the catalog is the one from before and
    the loading indicator stays on.  [importBooksJson] catches the same
    error, reports that the import failed and leaves the catalog as it
    was.  The entry is rejected and the load fails. *)
Theorem entry_without_path_fails_the_load `{Host}
    (st : State) (r : fetch_result) (items : list value) :
  ¬ Forall has_path items →
  tryLoadManifest r = VArr items →
  let scanned := scanBooks r st in
  let imported := importBooksJson (Json (VArr items)) st in
  (scanned.1 = Threw TypeError
   ∧ books scanned.2 = books st ∧ store scanned.2 = store st
   ∧ persisted_books scanned.2 = persisted_books st
   ∧ loadingIndicator (modals (page scanned.2)) = true)
  ∧ (imported.1 = Done tt
     ∧ effects imported.2 = effects st ++ [Alert (ImportFailed TypeError)]
     ∧ books imported.2 = books st ∧ store imported.2 = store st
     ∧ persisted_books imported.2 = persisted_books st).
Proof.
  intros Hnot Hr scanned imported. split.
  - subst scanned. rewrite (scanBooks_manifest st r items Hr).
    + destruct (normalize_all_without_path "manifest" items (clock st) Hnot)
        as [t' ->].
      done.
    + intros ->. apply Hnot. constructor.
  - subst imported. rewrite importBooksJson_array.
    destruct (normalize_all_without_path "import" items (clock st) Hnot)
      as [t' ->].
    done.
Qed.

Lemma entry_without_path_fails_the_load_witness :
  let st := Sample.st_loaded in
  let r := Response true (Json (VArr [Sample.pathless])) in
  let scanned := scanBooks r st in
  let imported := importBooksJson (Json (VArr [Sample.pathless])) st in
  (scanned.1 = Threw TypeError
   ∧ books scanned.2 = books st ∧ store scanned.2 = store st
   ∧ persisted_books scanned.2 = persisted_books st
   ∧ loadingIndicator (modals (page scanned.2)) = true)
  ∧ (imported.1 = Done tt
     ∧ effects imported.2 = effects st ++ [Alert (ImportFailed TypeError)]
     ∧ books imported.2 = books st ∧ store imported.2 = store st
     ∧ persisted_books imported.2 = persisted_books st).
Proof.
  apply (entry_without_path_fails_the_load (H := Sample.host)
           Sample.st_loaded
           (Response true (Json (VArr [Sample.pathless])))
           [Sample.pathless]).
  - intros Hall. inversion Hall as [|? ? [s Hs] _]. discriminate Hs.
  - reflexivity.
Defined.

(** ** Boot *)

Section Boot.

Context `{Host}.

(** A stored text that parses becomes the catalog, whatever it is. *)
Lemma loadBooks_parsed (st : State) (v : value) :
  localStorage st !! LS_BOOKS = Some (Json v) →
  loadBooks st
  = (Done tt, with_books (length (store st))
                (with_store (store st ++ [v]) st)).
Proof.
  intros Hls. unfold loadBooks, bind, gets. by rewrite Hls.
Qed.

Lemma catalog_new_cell (st : State) (v : value) :
  catalog (with_books (length (store st)) (with_store (store st ++ [v]) st))
  = v.
Proof.
  unfold catalog, deref. simpl. by rewrite list_lookup_middle.
Qed.

Lemma loadBooks_absent (st : State) :
  localStorage st !! LS_BOOKS = None → loadBooks st = (Done tt, st).
Proof. intros Hls. unfold loadBooks, bind, gets. by rewrite Hls. Qed.

(** A stored text that does not parse: nothing changes when it is the
    empty string, otherwise the catalog becomes a new empty array. *)
Lemma loadBooks_unparseable (st : State) (s : string) :
  localStorage st !! LS_BOOKS = Some (Unparseable s) →
  loadBooks st
  = (Done tt,
     if bool_decide (s = "") then st
     else with_books (length (store st))
            (with_store (store st ++ [VArr []]) st)).
Proof.
  intros Hls. unfold loadBooks, bind, gets. rewrite Hls. simpl.
  by destruct (bool_decide (s = "")).
Qed.

Lemma boot_after_load (st st1 : State) :
  loadBooks st = (Done tt, st1) →
  boot_catalog st
  = (exec initFuse; exec rebuildFacets; applyFiltersAndRender) st1.
Proof. intros E. unfold boot_catalog. unfold bind at 1. by rewrite E. Qed.

Lemma after_load_initial (ls : gmap string text) :
  shows_empty_catalog
    ((exec initFuse; exec rebuildFacets; applyFiltersAndRender)
       (initial_state ls)).
Proof. vm_compute. repeat split. Qed.

Lemma after_load_reset (ls : gmap string text) :
  shows_empty_catalog
    ((exec initFuse; exec rebuildFacets; applyFiltersAndRender)
       (with_books (length (store (initial_state ls)))
          (with_store (store (initial_state ls) ++ [VArr []])
             (initial_state ls)))).
Proof. vm_compute. repeat split. Qed.

(** [initFuse] and [rebuildFacets] on a catalog that is [null]. *)
Lemma initFuse_null (st : State) :
  catalog st = VNull →
  initFuse st
  = if fuzzySearch (config st) then (Threw TypeError, st)
    else (Done tt, with_fuse None st).
Proof.
  intros Hcat. unfold initFuse, bind, gets, lift.
  destruct (fuzzySearch (config st)); simpl; [|done].
  by rewrite Hcat.
Qed.

Lemma rebuildFacets_null (st : State) :
  catalog st = VNull → rebuildFacets st = (Threw TypeError, st).
Proof.
  intros Hcat. unfold rebuildFacets.
  unfold bind at 1, gets at 1. unfold bind at 1, lift at 1.
  by rewrite Hcat.
Qed.

(** Without a stored catalog, or with one that does not parse, the page
    loads with an empty catalog and shows the empty state. *)
Lemma boot_without_stored_catalog (ls : gmap string text) :
  ls !! LS_BOOKS = None ∨ (∃ s, ls !! LS_BOOKS = Some (Unparseable s)) →
  shows_empty_catalog (boot_catalog (initial_state ls)).
Proof.
  intros [Hls | [s Hls]].
  - rewrite (boot_after_load _ _ (loadBooks_absent (initial_state ls) Hls)).
    apply after_load_initial.
  - rewrite (boot_after_load _ _
               (loadBooks_unparseable (initial_state ls) s Hls)).
    destruct (bool_decide (s = "")).
    + apply after_load_initial.
    + apply after_load_reset.
Qed.

End Boot.

(** C4 (what the code does with a stored text that parses to something
    other than an array).  With the text [null] under
    [library_books_v1], [loadBooks] makes [null] the catalog and the
    boot sequence throws a [TypeError], in [initFuse] when fuzzy search
    is on and in [rebuildFacets] when it is off. *)
Theorem boot_throws_on_stored_null `{Host} (st : State) :
  let st0 := with_localStorage
               (<[LS_BOOKS := Json VNull]> (localStorage st)) st in
  (boot_catalog st0).1 = Threw TypeError
  ∧ catalog (boot_catalog st0).2 = VNull.
Proof.
  intros st0.
  rewrite (boot_after_load st0 _ (loadBooks_parsed st0 VNull
                                    (lookup_insert_eq _ _ _))).
  set (st1 := with_books _ _).
  assert (catalog st1 = VNull) as Hcat by apply catalog_new_cell.
  clearbody st1. unfold bind at 1 3.
  rewrite (initFuse_null st1 Hcat).
  destruct (fuzzySearch (config st1)); [done |].
  unfold bind. by rewrite (rebuildFacets_null (with_fuse None st1) Hcat).
Qed.

(** ** Scan and import replace the catalog *)

Section Replacement.

Context `{Host}.

Lemma normalized_records_with_paths (source : string) (items : list value)
    (t : nat) :
  Forall has_path items →
  ∃ t', mapSE (normalize source) items t
        = (Done (normalized_records source items t), t')
        ∧ Forall2 (is_normalized source) items
            (normalized_records source items t).
Proof.
  intros Hall. unfold normalized_records.
  destruct (normalize_all_with_paths source items t Hall)
    as (recs & t' & -> & Hn).
  eauto.
Qed.

(** After a scan of a non-empty manifest whose entries have a path, the
    catalog is the array of their records. *)
Lemma scanBooks_catalog (st : State) (r : fetch_result) (items : list value) :
  tryLoadManifest r = VArr items → items ≠ [] → Forall has_path items →
  catalog (scanBooks r st).2
  = VArr (normalized_records "manifest" items (clock st)).
Proof.
  intros Hr Hne Hall. rewrite (scanBooks_manifest st r items Hr Hne).
  destruct (normalized_records_with_paths "manifest" items (clock st) Hall)
    as (t' & -> & _).
  apply (refresh_catalog (showLoading false) _
           (with_clock t' (showLoading true st).2)), quiet_showLoading.
Qed.

(** The same after an import, also when a later step throws and the
    handler reports a failure. *)
Lemma importBooksJson_catalog (st : State) (items : list value) :
  Forall has_path items →
  catalog (importBooksJson (Json (VArr items)) st).2
  = VArr (normalized_records "import" items (clock st)).
Proof.
  intros Hall. rewrite importBooksJson_array.
  destruct (normalized_records_with_paths "import" items (clock st) Hall)
    as (t' & -> & _).
  set (recs := normalized_records _ _ _).
  set (st1 := with_clock t' st).
  pose proof (refresh_catalog (emit (Alert ImportedOk)) recs st1
                (quiet_emit _)) as Hcat.
  simpl in Hcat. unfold try_catch.
  destruct ((exec saveBooks; exec initFuse; exec rebuildFacets;
             exec applyFiltersAndRender; emit (Alert ImportedOk)) _)
    as [[[]|e] st2]; simpl in *; [done |].
  unfold catalog, deref in *. done.
Qed.

End Replacement.

(** C1 (amended).  For every current catalog and every manifest array
    whose entries carry a string path, [importBooksJson], and
    [scanBooks] when the array is not empty, leave a catalog that
    consists exactly of the normalized records of that array, in order;
    the records depend on the array and on the host's answers only, so
    no document of the previous catalog survives. *)
Theorem scan_and_import_replace_catalog `{Host}
    (st : State) (r : fetch_result) (items : list value) :
  Forall has_path items →
  (tryLoadManifest r = VArr items → items ≠ [] →
   catalog (scanBooks r st).2
   = VArr (normalized_records "manifest" items (clock st)))
  ∧ catalog (importBooksJson (Json (VArr items)) st).2
    = VArr (normalized_records "import" items (clock st))
  ∧ Forall2 (is_normalized "manifest") items
      (normalized_records "manifest" items (clock st))
  ∧ Forall2 (is_normalized "import") items
      (normalized_records "import" items (clock st)).
Proof.
  intros Hall. repeat split.
  - intros Hr Hne. by apply scanBooks_catalog.
  - by apply importBooksJson_catalog.
  - by destruct (normalized_records_with_paths "manifest" items (clock st) Hall)
      as (t' & _ & Hn).
  - by destruct (normalized_records_with_paths "import" items (clock st) Hall)
      as (t' & _ & Hn).
Qed.

(** The theorem at a scan and an import of one entry over a catalog of
    two documents. *)
Lemma scan_and_import_replace_catalog_witness :
  let st := Sample.st_loaded in
  let items := [Sample.axler] in
  let r := Response true (Json (VArr items)) in
  Forall has_path items
  ∧ tryLoadManifest r = VArr items
  ∧ items ≠ []
  ∧ catalog (scanBooks r st).2
    = VArr (normalized_records (H := Sample.host) "manifest" items (clock st))
  ∧ catalog (importBooksJson (Json (VArr items)) st).2
    = VArr (normalized_records (H := Sample.host) "import" items (clock st))
  ∧ Forall2 (is_normalized (H := Sample.host) "manifest") items
      (normalized_records (H := Sample.host) "manifest" items (clock st))
  ∧ Forall2 (is_normalized (H := Sample.host) "import") items
      (normalized_records (H := Sample.host) "import" items (clock st)).
Proof.
  intros st items r.
  assert (Forall has_path items) as Hall
    by (repeat constructor; by eexists).
  assert (tryLoadManifest r = VArr items) as Hr by reflexivity.
  assert (items ≠ []) as Hne by discriminate.
  destruct (scan_and_import_replace_catalog (H := Sample.host) st r items Hall)
    as (Hscan & Himport & Hm & Hi).
  split; [exact Hall |]. split; [exact Hr |]. split; [exact Hne |].
  split; [exact (Hscan Hr Hne) |]. split; [exact Himport |].
  split; [exact Hm | exact Hi].
Defined.

(** C1 as stated fails: a scan that obtains the empty array leaves the
    previous catalog in place (the array counts as no manifest), and so
    does an import of an array with an entry that has no path. *)
Lemma scan_of_empty_manifest_keeps_catalog :
  let st := Sample.st_loaded in
  let r := Response true (Json (VArr [])) in
  tryLoadManifest r = VArr []
  ∧ catalog (scanBooks r st).2 = catalog st
  ∧ catalog (scanBooks r st).2
    ≠ VArr (normalized_records (H := Sample.host) "manifest" [] (clock st))
  ∧ catalog (importBooksJson (Json (VArr [Sample.pathless])) st).2
    = catalog st
  ∧ ∃ b l, catalog st = VArr (b :: l).
Proof.
  split; [by vm_compute |].
  split; [by vm_compute |].
  split; [by vm_compute |].
  split; [by vm_compute |].
  vm_compute. by eexists _, _.
Qed.

(** ** The Metadata Editor *)

Section Editor.

Context `{Host}.



Lemma prop_obj (ps : list (string * value)) (k : string) :
  prop (VObj ps) k = default VUndef (assoc k ps).
Proof. done. Qed.





Lemma append_nonempty (a b : string) : b ≠ "" → a +:+ b ≠ "".
Proof. intros Hb. destruct a; simpl; [done | discriminate]. Qed.

Lemma append_assoc (a b c : string) : (a +:+ b) +:+ c = a +:+ (b +:+ c).
Proof.
  induction a as [|x a IH]; [done |].
  change (String x ((a +:+ b) +:+ c) = String x (a +:+ (b +:+ c))).
  by rewrite IH.
Qed.



End Editor.



(** ** Export and import *)

Section RoundTrip.

Context `{Host}.

Lemma to_json_obj (ps : list (string * value)) :
  to_json (VObj ps) = VObj (json_props ps).
Proof.
  simpl. f_equal. induction ps as [|[k x] ps IH]; simpl; [done |].
  rewrite IH. by destruct x.
Qed.

Lemma json_props_kept (k : string) (x : value) (ps : list (string * value)) :
  json_stable x = true →
  json_props ((k, x) :: ps) = (k, x) :: json_props ps.
Proof.
  intros Hx. simpl. rewrite (to_json_stable x Hx). by destruct x.
Qed.

Lemma json_props_undef (k : string) (ps : list (string * value)) :
  json_props ((k, VUndef) :: ps) = json_props ps.
Proof. done. Qed.

(** A document of the catalog is an object. *)
Lemma catalog_document_obj (b : value) :
  catalog_document b → ∃ ps, b = VObj ps.
Proof.
  intros [(s & Hs & _) _ _ _ _ _ _ _ _]. apply has_path_obj. by exists s.
Qed.

Lemma export_record_document (b : value) :
  catalog_document b → export_record b = Done (export_object b).
Proof.
  intros Hb. destruct (catalog_document_obj b Hb) as [ps ->].
  unfold export_record. by rewrite !get_obj.
Qed.

(** What the exported file holds for a document. *)
Lemma to_json_export_object (b : value) :
  catalog_document b → to_json (export_object b) = exported_entry b.
Proof.
  intros [(s & Hs & _) [Hid _] [Ht _] [Ha _] [Hf _] [Htg _] [Hd _] [Hat _]
          [Hms _]].
  assert (prop b "path" = VStr s) as Hp by (unfold prop; by rewrite Hs).
  unfold export_object, exported_entry. rewrite to_json_obj.
  rewrite !json_props_kept by (done || by rewrite Hp).
  f_equal. do 7 f_equal.
  destruct (Number_isFinite (prop b "sizeBytes")) eqn:Hfin.
  - destruct (known_size _ Hfin) as [q Hq]. rewrite Hq.
    by rewrite !json_props_kept.
  - rewrite json_props_undef. by rewrite !json_props_kept.
Qed.

Lemma export_all (l : list value) :
  Forall catalog_document l →
  mapO export_record l = Done (map export_object l).
Proof.
  induction 1 as [|b l Hb _ IH]; simpl; [done |].
  by rewrite (export_record_document b Hb), IH.
Qed.

Lemma to_json_arr (l : list value) :
  to_json (VArr l) = VArr (map json_elem l).
Proof. reflexivity. Qed.

Lemma to_json_exported (l : list value) :
  Forall catalog_document l →
  to_json (VArr (map export_object l)) = VArr (map exported_entry l).
Proof.
  intros Hall. rewrite to_json_arr. f_equal.
  induction Hall as [|b l Hb _ IH]; [done |].
  rewrite !map_cons, IH. f_equal.
  change (json_elem (export_object b)) with (to_json (export_object b)).
  by apply to_json_export_object.
Qed.

(** The file that [exportBooksJson] offers. *)
Lemma exportBooksJson_file (st : State) (l : list value) :
  catalog st = VArr l → Forall catalog_document l →
  exportBooksJson st
  = (Done tt,
     with_effects
       (effects st
        ++ [Download "books.json" (Json (VArr (map exported_entry l)))]) st).
Proof.
  intros Hcat Hall. unfold exportBooksJson, bind, gets, lift, emit, modify.
  rewrite Hcat. unfold as_array. rewrite (export_all l Hall).
  unfold JSON_stringify. by rewrite (to_json_exported l Hall).
Qed.

(** The properties of an exported entry. *)
Lemma exported_entry_props (b : value) :
  let e := exported_entry b in
  prop e "id" = prop b "id"
  ∧ prop e "title" = prop b "title"
  ∧ prop e "author" = prop b "author"
  ∧ prop e "field" = prop b "field"
  ∧ prop e "tags" = prop b "tags"
  ∧ prop e "description" = prop b "description"
  ∧ prop e "path" = prop b "path"
  ∧ prop e "addedAt" = prop b "addedAt"
  ∧ prop e "metadataSource" = prop b "metadataSource"
  ∧ prop e "sizeBytes" = (if Number_isFinite (prop b "sizeBytes")
                          then prop b "sizeBytes" else VUndef).
Proof.
  intros e. subst e. unfold exported_entry.
  destruct (Number_isFinite (prop b "sizeBytes")); repeat split.
Qed.

(** Importing an exported entry gives the document back, with the file
    name derived again and an unknown size as [NaN]; the host is not
    asked for an id or for the time. *)
Lemma normalize_exported (b : value) (t : nat) :
  catalog_document b →
  normalize "import" (exported_entry b) t = (Done (imported_record b), t).
Proof.
  intros [(s & Hs & Hfn) [_ Hid] [_ Ht] [_ Ha] [_ Hf] [_ Htg] [_ Hd] [_ Hat]
          [_ Hms]].
  assert (prop b "path" = VStr s) as Hp by (unfold prop; by rewrite Hs).
  assert (filenameFromPath (VStr s) = Done (prop b "filename")) as Hfile.
  { rewrite <- Hfn. apply get_prop; intros ->; discriminate. }
  rewrite normalize_defined by done.
  destruct (exported_entry_props b)
    as (-> & -> & -> & -> & -> & -> & -> & -> & -> & ->).
  rewrite Hid, Hat, Hp, Hfile.
  rewrite !or_else_empty_text by done.
  rewrite !truthy_or_else by done.
  unfold imported_record. rewrite Hp.
  destruct (Number_isFinite (prop b "sizeBytes")) eqn:Hfin; [|done].
  destruct (known_size _ Hfin) as [q ->]. done.
Qed.

Lemma normalize_all_exported (l : list value) (t : nat) :
  Forall catalog_document l →
  mapSE (normalize "import") (map exported_entry l) t
  = (Done (map imported_record l), t).
Proof.
  induction 1 as [|b l Hb _ IH]; [done |].
  rewrite !map_cons. simpl. unfold bind.
  by rewrite (normalize_exported b t Hb), IH.
Qed.

Lemma exported_entry_has_path (b : value) :
  catalog_document b → has_path (exported_entry b).
Proof.
  intros [(s & Hs & _) _ _ _ _ _ _ _ _]. exists s.
  rewrite get_prop by done.
  destruct (exported_entry_props b) as (_ & _ & _ & _ & _ & _ & -> & _).
  unfold prop. by rewrite Hs.
Qed.

(** The record that comes back is the document that went out. *)
Lemma imported_record_same (b : value) :
  catalog_document b → same_document b (imported_record b).
Proof.
  intros Hb. destruct (catalog_document_obj b Hb) as [ps ->].
  split; [|split].
  - intros k Hk. rewrite (get_obj ps).
    unfold exported_keys in Hk.
    repeat (apply elem_of_cons in Hk as [-> | Hk]); try done.
    by apply elem_of_nil in Hk.
  - by rewrite (get_obj ps).
  - destruct (Number_isFinite (prop (VObj ps) "sizeBytes")) eqn:Hfin.
    + rewrite (get_obj ps). unfold imported_record, get. simpl.
      by rewrite Hfin.
    + unfold imported_record, prop at 1, get. simpl. by rewrite Hfin.
Qed.

Lemma imported_all_same (l : list value) :
  Forall catalog_document l → Forall2 same_document l (map imported_record l).
Proof.
  induction 1 as [|b l Hb _ IH]; simpl; constructor; [|done].
  by apply imported_record_same.
Qed.

(** *** The documents the program makes are catalog documents *)

Lemma prop_stable (item : value) (k : string) :
  json_stable item = true → truthy (prop item k) = true →
  json_stable (prop item k) = true.
Proof.
  intros Hs Ht. destruct item as [| | | | s | l | ps]; try done.
  - unfold prop, get in *. by destruct (bool_decide _).
  - unfold prop, get in *. by destruct (bool_decide _).
  - unfold prop, get in *.
    induction ps as [|[k' v] ps IH]; simpl in *; [done |].
    apply andb_prop in Hs as [Hv Hps].
    destruct (bool_decide (k = k')); [done | by apply IH].
Qed.

Lemma kept_or_else (item : value) (k : string) (d : value) :
  json_stable item = true → kept d → kept (or_else (prop item k) d).
Proof.
  intros Hs Hd. unfold or_else.
  destruct (truthy (prop item k)) eqn:Ht; [|done].
  split; [by apply prop_stable | done].
Qed.

Lemma kept_text_or_else (item : value) (k : string) :
  json_stable item = true → kept_text (or_else (prop item k) (VStr "")).
Proof.
  intros Hs. unfold or_else.
  destruct (truthy (prop item k)) eqn:Ht.
  - split; [by apply prop_stable | by left].
  - split; [done | by right].
Qed.

Lemma kept_nonempty_string (s : string) : s ≠ "" → kept (VStr s).
Proof.
  intros Hs. split; [done |]. simpl.
  by rewrite bool_decide_eq_false_2.
Qed.

Lemma kept_nonzero_integer (z : Z) : z ≠ 0%Z → kept (VInt z).
Proof.
  intros Hz. split; [done |]. simpl.
  rewrite bool_decide_eq_false_2; [done |].
  intros E. apply (f_equal this) in E. simpl in E.
  apply Hz. by injection E.
Qed.

(** What a scan or an import makes of a stable entry. *)
Lemma normalized_is_catalog_document (source : string) (item rec : value) :
  source ≠ "" → json_stable item = true →
  is_normalized source item rec → catalog_document rec.
Proof.
  intros Hsrc Hs (id & filename & addedAt & -> & Hfile & Hid & Hat).
  assert (∃ s, prop item "path" = VStr s) as [s Hp].
  { destruct (prop item "path"); try done. eauto. }
  rewrite Hp in Hfile.
  split; rewrite ?prop_obj; simpl.
  - exists s. by rewrite Hp, Hfile.
  - destruct (truthy (prop item "id")) eqn:Ht.
    + subst id. split; [by apply prop_stable | done].
    + destruct Hid as [t ->]. apply kept_nonempty_string, uniqueId_nonempty.
  - by apply kept_text_or_else.
  - by apply kept_text_or_else.
  - by apply kept_text_or_else.
  - by apply kept_or_else.
  - by apply kept_text_or_else.
  - destruct (truthy (prop item "addedAt")) eqn:Ht.
    + subst addedAt. split; [by apply prop_stable | done].
    + destruct Hat as [t ->]. apply kept_nonzero_integer, Date_now_nonzero.
  - apply kept_or_else; [done | by apply kept_nonempty_string].
Qed.

Lemma parse_tags_stable (s : string) :
  forallb json_stable (parse_tags s) = true.
Proof.
  unfold parse_tags. by induction (filter _ _) as [|t ts IH].
Qed.

Lemma kept_text_string (s : string) : kept_text (VStr s).
Proof.
  split; [done |]. simpl.
  destruct (bool_decide (s = "")) eqn:E; [|by left].
  apply bool_decide_eq_true_1 in E. subst. by right.
Qed.

(** What the Metadata Editor makes of a catalog document. *)
Lemma updated_is_catalog_document (ps : list (string * value)) (f : EditForm) :
  catalog_document (VObj ps) →
  catalog_document
    (updated_book (VObj ps) f (prop (VObj ps) "metadataSource")).
Proof.
  intros [(s & Hs & Hfn) Hid _ _ _ _ _ Hat _].
  rewrite !get_obj in Hs, Hfn. rewrite !prop_obj in *.
  unfold updated_book.
  split; rewrite ?get_obj, ?prop_obj; simpl;
    repeat (rewrite assoc_set_prop_eq || rewrite assoc_set_prop_ne by done);
    simpl; try done.
  - by exists s.
  - apply kept_text_string.
  - apply kept_text_string.
  - apply kept_text_string.
  - split; [apply parse_tags_stable | done].
  - apply kept_text_string.
  - apply kept_nonempty_string. by apply append_nonempty.
Qed.

End RoundTrip.

(** A document of the data model with an id, a date and a source is a
    catalog document. *)
Lemma data_model_catalog_document (id title author field : string)
    (tags : list string) (description path : string) (size : num)
    (addedAt : Z) (source : string) :
  id ≠ "" → addedAt ≠ 0%Z → source ≠ "" →
  catalog_document
    (data_model_document id title author field tags description path size
       addedAt source).
Proof.
  intros Hid Hat Hsrc. unfold data_model_document.
  split; rewrite ?prop_obj; simpl.
  - by exists path.
  - by apply kept_nonempty_string.
  - apply kept_text_string.
  - apply kept_text_string.
  - apply kept_text_string.
  - split; [|done]. simpl. by induction tags.
  - apply kept_text_string.
  - by apply kept_nonzero_integer.
  - by apply kept_nonempty_string.
Qed.

(** The catalog left by a scan or an import of stable entries consists
    of catalog documents. *)
Lemma normalized_records_documents `{Host} (source : string)
    (items : list value) (t : nat) :
  source ≠ "" → Forall has_path items →
  Forall (λ item, json_stable item = true) items →
  Forall catalog_document (normalized_records source items t).
Proof.
  intros Hsrc Hall Hstable.
  destruct (normalized_records_with_paths source items t Hall) as (_ & _ & Hn).
  induction Hn as [|item rec items recs Hrec _ IH]; [done |].
  inversion Hall; inversion Hstable; subst.
  constructor; [|by apply IH].
  by apply (normalized_is_catalog_document source item).
Qed.

(** C2 (amended).  For every catalog of documents that hold, under each
    exported key, a value that a JSON text keeps (no [undefined] and no
    number that is not finite inside) and that the import does not
    replace by a default, with a string path and the file name derived
    from it, [exportBooksJson] offers a file [books.json], and
    importing that file, in any state, yields a catalog with as many
    documents, in the same order, in which each document has the same
    id, title, author, field, tags, description, path, addedAt and
    metadataSource, the same file name (derived from the path again),
    the same size when the size is finite, and a non-finite size when
    it is not. *)
Theorem export_import_round_trip `{Host} (st : State) (l : list value) :
  catalog st = VArr l → Forall catalog_document l →
  ∃ file,
    exportBooksJson st
    = (Done tt,
       with_effects (effects st ++ [Download "books.json" file]) st)
    ∧ ∀ st0 : State,
        ∃ l', catalog (importBooksJson file st0).2 = VArr l'
              ∧ Forall2 same_document l l'.
Proof.
  intros Hcat Hall.
  exists (Json (VArr (map exported_entry l))).
  split; [by apply exportBooksJson_file |].
  intros st0. exists (map imported_record l).
  split; [|by apply imported_all_same].
  rewrite importBooksJson_catalog.
  - unfold normalized_records.
    by rewrite (normalize_all_exported l (clock st0) Hall).
  - apply Forall_map. eapply Forall_impl; [exact Hall |].
    apply exported_entry_has_path.
Qed.

Lemma export_import_round_trip_witness :
  let st := Sample.st_loaded in
  let l := Sample.loaded_books in
  ∃ file,
    exportBooksJson st
    = (Done tt,
       with_effects (effects st ++ [Download "books.json" file]) st)
    ∧ ∀ st0 : State (H := Sample.host),
        ∃ l', catalog (importBooksJson file st0).2 = VArr l'
              ∧ Forall2 same_document l l'.
Proof.
  apply (export_import_round_trip (H := Sample.host) Sample.st_loaded
           Sample.loaded_books).
  - by vm_compute.
  - unfold Sample.loaded_books.
    replace (catalog Sample.st_loaded) with
      (VArr (normalized_records (H := Sample.host) "manifest" Sample.manifest 0))
      by by vm_compute.
    apply normalized_records_documents; [done | |].
    + repeat constructor; by eexists.
    + by repeat constructor.
Defined.

(** C2 as stated fails: the import of an entry whose id is the number
    [1e999], which JSON reads as infinity, succeeds and leaves a
    document with that id in the catalog; the export writes the id as
    [null], and the import of the exported file gives the document a
    new id. *)
Lemma round_trip_loses_infinite_id :
  let entry := VObj [("id", VNum PosInf); ("path", VStr "a.pdf")] in
  let st := (importBooksJson (H := Sample.host) (Json (VArr [entry]))
               Sample.st_fresh).2 in
  let file :=
    Json (VArr [VObj [("id", VNull); ("title", VStr ""); ("author", VStr "");
                      ("field", VStr ""); ("tags", VArr []);
                      ("description", VStr ""); ("path", VStr "a.pdf");
                      ("addedAt", VInt 1700000000000);
                      ("metadataSource", VStr "import")]]) in
  let ids := λ c, match c with
                  | VArr l => map (λ b, prop b "id") l
                  | _ => []
                  end in
  effects st = [Alert ImportedOk]
  ∧ ids (catalog st) = [VNum PosInf]
  ∧ (exportBooksJson st).1 = Done tt
  ∧ effects (exportBooksJson st).2
    = effects st ++ [Download "books.json" file]
  ∧ ids (catalog (importBooksJson file st).2)
    = [VStr (uniqueId_at (Host := Sample.host) (clock st))].
Proof.
  intros entry st file ids.
  split; [by vm_compute |].
  split; [by vm_compute |].
  split; [by vm_compute |].
  split; [by vm_compute |].
  by vm_compute.
Qed.

(** * Further properties *)

(** ** What a sequence of statements leaves alone *)

Section Preservation.

Context `{Host} {X : Type} (f : State → X).

Lemma preserves_ret {A} (a : A) : preserves f (ret a).
Proof. done. Qed.

Lemma preserves_lift {A} (o : outcome A) : preserves f (lift o).
Proof. done. Qed.

Lemma preserves_gets {A} (g : State → A) : preserves f (gets g).
Proof. done. Qed.

Lemma preserves_modify (g : State → State) :
  (∀ st, f (g st) = f st) → preserves f (modify g).
Proof. intros Hg st. apply Hg. Qed.

Lemma preserves_bind {A B} (m : M A) (k : A → M B) :
  preserves f m → (∀ a, preserves f (k a)) → preserves f (bind m k).
Proof.
  intros Hm Hk st. unfold bind. specialize (Hm st).
  destruct (m st) as [[a|e] st']; simpl in *; [|done].
  by rewrite Hk.
Qed.

Lemma preserves_try_catch {A} (m : M A) (h : exn → M A) :
  preserves f m → (∀ e, preserves f (h e)) → preserves f (try_catch m h).
Proof.
  intros Hm Hh st. unfold try_catch. specialize (Hm st).
  destruct (m st) as [[a|e] st']; simpl in *; [done |].
  by rewrite Hh.
Qed.

Lemma preserves_alloc (v : value) :
  (∀ s st, f (with_store s st) = f st) → preserves f (alloc v).
Proof. intros Hf st. apply Hf. Qed.

Lemma preserves_on_clock {A} (m : SE nat A) :
  (∀ t st, f (with_clock t st) = f st) → preserves f (on_clock m).
Proof.
  intros Hf st. unfold on_clock. destruct (m (clock st)) as [o t]. apply Hf.
Qed.


End Preservation.

(** Decomposes a goal [preserves f m] along the structure of [m]. *)
Ltac preserves_step :=
  match goal with
  | |- preserves _ (bind _ _) => apply preserves_bind; [|intros ?]
  | |- preserves _ (try_catch _ _) => apply preserves_try_catch; [|intros ?]
  | |- preserves _ (ret _) => apply preserves_ret
  | |- preserves _ (lift _) => apply preserves_lift
  | |- preserves _ (gets _) => apply preserves_gets
  | |- preserves _ (modify _) => apply preserves_modify; by intros ?
  | |- preserves _ (alloc _) => apply preserves_alloc; by intros ? ?
  | |- preserves _ (on_clock _) => apply preserves_on_clock; by intros ? ?
  | |- preserves _ (if ?b then _ else _) => destruct b
  | |- preserves _ (match ?x with _ => _ end) => destruct x
  end.

Ltac preserves_auto := repeat preserves_step.

Section Display.

Context `{Host} {X : Type} (f : State → X).

Hypothesis Hf : display_independent f.

Lemma preserves_set_page g : preserves f (set_page g).
Proof. intros st. apply Hf. Qed.

Lemma preserves_set_view g : preserves f (set_view g).
Proof. apply preserves_set_page. Qed.

Lemma preserves_set_modals g : preserves f (set_modals g).
Proof. apply preserves_set_page. Qed.

Lemma preserves_showLoading b : preserves f (showLoading b).
Proof. apply preserves_set_modals. Qed.

Lemma preserves_new_cell v : preserves f (alloc v).
Proof. apply preserves_alloc, Hf. Qed.

Lemma preserves_write l v : preserves f (write l v).
Proof. intros st. apply Hf. Qed.

Lemma preserves_initFuse : preserves f initFuse.
Proof.
  unfold initFuse. preserves_auto; apply preserves_modify; intros st; apply Hf.
Qed.

Lemma preserves_rebuildFacets : preserves f rebuildFacets.
Proof.
  unfold rebuildFacets. preserves_auto;
    try apply preserves_set_page;
    apply preserves_modify; intros st; apply Hf.
Qed.

Lemma preserves_append_cards l : preserves f (append_cards l).
Proof.
  induction l as [|b l IH]; simpl; preserves_auto;
    [apply preserves_set_view | done].
Qed.

Lemma preserves_renderBooks l : preserves f (renderBooks l).
Proof.
  unfold renderBooks. preserves_auto;
    try apply preserves_set_view; try apply preserves_append_cards.
Qed.

Lemma preserves_filter_into_new g l : preserves f (filter_into_new g l).
Proof.
  unfold filter_into_new. preserves_auto. apply preserves_new_cell.
Qed.

Lemma preserves_applyFiltersAndRender : preserves f applyFiltersAndRender.
Proof.
  unfold applyFiltersAndRender. preserves_auto;
    try apply preserves_new_cell; try apply preserves_filter_into_new;
    try apply preserves_write; try apply preserves_renderBooks;
    apply preserves_modify; intros st; apply Hf.
Qed.


End Display.

Lemma localStorage_independent `{Host} : display_independent localStorage.
Proof. by repeat split. Qed.

Lemma effects_independent `{Host} : display_independent effects.
Proof. by repeat split. Qed.

Lemma activeTags_independent `{Host} : display_independent activeTags.
Proof. by repeat split. Qed.

(** ** File names *)

Lemma split_cons (sep : ascii) (s : string) :
  ∃ p ps, Str.split sep s = p :: ps.
Proof.
  destruct s as [|c r]; simpl; [by eexists _, _ |].
  destruct (bool_decide (c = sep)); [by eexists _, _ |].
  destruct (Str.split sep r); by eexists _, _.
Qed.

Lemma includes_cons (c : ascii) (s : string) (sep : ascii) :
  Str.includes (String c s) (String sep "")
  = bool_decide (c = sep) || Str.includes s (String sep "").
Proof.
  simpl. rewrite andb_true_r. f_equal.
  apply bool_decide_ext. split; by intros ->.
Qed.

(** The pieces hold no separator, and joined by it they give the string
    back. *)
Lemma split_pieces (sep : ascii) (s : string) :
  Forall (λ p, Str.includes p (String sep "") = false) (Str.split sep s)
  ∧ Str.join (String sep "") (Str.split sep s) = s.
Proof.
  induction s as [|c r [IHp IHj]]; simpl.
  - split; [by repeat constructor | done].
  - destruct (bool_decide (c = sep)) eqn:Ec.
    + apply bool_decide_eq_true_1 in Ec. subst c.
      split; [constructor; [done | exact IHp] |].
      destruct (split_cons sep r) as (p & ps & E). rewrite E in *.
      change (Str.join (String sep "") ("" :: p :: ps))
        with ("" +:+ String sep "" +:+ Str.join (String sep "") (p :: ps)).
      by rewrite IHj.
    + destruct (split_cons sep r) as (p & ps & E). rewrite E in *.
      inversion IHp as [|? ? Hp Hps]; subst. split.
      * constructor; [|done]. by rewrite includes_cons, Ec.
      * destruct ps as [|q ps]; [simpl in *; by subst |].
        change (Str.join (String sep "") (String c p :: q :: ps))
          with (String c (p +:+ String sep "" +:+ Str.join (String sep "") (q :: ps))).
        by f_equal.
Qed.

Lemma join_snoc (sep : string) (l : list string) (f : string) :
  Str.join sep (l ++ [f])
  = match l with [] => f | _ => Str.join sep l +:+ sep +:+ f end.
Proof.
  induction l as [|p l IH]; [done |].
  destruct l as [|q l].
  - done.
  - change (Str.join sep ((p :: q :: l) ++ [f]))
      with (p +:+ sep +:+ Str.join sep ((q :: l) ++ [f])).
    rewrite IH.
    change (Str.join sep (p :: q :: l)) with (p +:+ sep +:+ Str.join sep (q :: l)).
    by rewrite !append_assoc.
Qed.

(** X1.  For every string path, [filenameFromPath] returns the part
    of the path after its last slash: a string without a slash that
    is the whole path, or is preceded in it by a directory part and a
    slash. *)
Theorem filenameFromPath_last_segment (s : string) :
  ∃ f, filenameFromPath (VStr s) = Done (VStr f)
       ∧ Str.includes f "/" = false
       ∧ (s = f ∨ ∃ dir, s = dir +:+ "/" +:+ f).
Proof.
  destruct (split_pieces "/" s) as [Hp Hj].
  destruct (split_cons "/" s) as (p & ps & E).
  destruct (exists_last (l := Str.split "/" s)) as (init & f & Ef);
    [by rewrite E |].
  exists f. unfold filenameFromPath, Str.pop. simpl.
  rewrite Ef, last_snoc in *. simpl. split; [done |]. split.
  - apply Forall_app in Hp as [_ Hf]. by inversion Hf.
  - rewrite join_snoc in Hj. destruct init as [|d init]; [by left |].
    right. by eexists.
Qed.

(** ** Trimming and the tags of the editor *)

Lemma trimStart_starts_clean (s : string) : starts_clean (Str.trimStart s).
Proof.
  induction s as [|c r IH]; simpl; [done |].
  destruct (Str.is_space c) eqn:E; [done | by simpl].
Qed.

Lemma trimStart_clean (s : string) : starts_clean s → Str.trimStart s = s.
Proof. destruct s as [|c r]; simpl; [done |]. by intros ->. Qed.

Lemma trimEnd_starts_clean (s : string) :
  starts_clean s → starts_clean (Str.trimEnd s).
Proof.
  destruct s as [|c r]; simpl; [done |]. intros Hc.
  destruct (Str.trimEnd r); simpl; [by rewrite Hc | done].
Qed.

Lemma trimEnd_idem (s : string) : Str.trimEnd (Str.trimEnd s) = Str.trimEnd s.
Proof.
  induction s as [|c r IH]; simpl; [done |].
  destruct (Str.trimEnd r) as [|c' r'] eqn:E.
  - destruct (Str.is_space c) eqn:Ec; simpl; [done | by rewrite Ec].
  - simpl. simpl in IH. by rewrite IH.
Qed.

Lemma trim_idem (s : string) : Str.trim (Str.trim s) = Str.trim s.
Proof.
  unfold Str.trim.
  rewrite (trimStart_clean (Str.trimEnd _)).
  - apply trimEnd_idem.
  - apply trimEnd_starts_clean, trimStart_starts_clean.
Qed.

(** Trimming keeps a string free of a character it did not hold. *)
Lemma trimStart_excludes (c : ascii) (s : string) :
  Str.includes s (String c "") = false →
  Str.includes (Str.trimStart s) (String c "") = false.
Proof.
  induction s as [|x r IH]; [done |].
  intros Hs. simpl Str.trimStart. destruct (Str.is_space x); [|done].
  rewrite includes_cons in Hs. apply orb_false_elim in Hs as [_ Hr]. auto.
Qed.

Lemma trimEnd_excludes (c : ascii) (s : string) :
  Str.includes s (String c "") = false →
  Str.includes (Str.trimEnd s) (String c "") = false.
Proof.
  induction s as [|x r IH]; [done |].
  intros Hs. rewrite includes_cons in Hs.
  apply orb_false_elim in Hs as [Hx Hr]. specialize (IH Hr).
  simpl Str.trimEnd. destruct (Str.trimEnd r) as [|y r'].
  - destruct (Str.is_space x); [done |]. by rewrite includes_cons, Hx.
  - by rewrite includes_cons, Hx.
Qed.

Lemma trim_excludes (c : ascii) (s : string) :
  Str.includes s (String c "") = false →
  Str.includes (Str.trim s) (String c "") = false.
Proof. intros Hs. by apply trimEnd_excludes, trimStart_excludes. Qed.

(** X2.  Whatever is typed in the tags input, the tags that the
    [submit] handler of the editor saves are strings that are not
    empty, hold no comma and neither begin nor end with white space. *)
Theorem parse_tags_clean (input : string) :
  Forall (λ v, ∃ t, v = VStr t ∧ clean_tag t) (parse_tags input).
Proof.
  unfold parse_tags. apply Forall_map.
  destruct (split_pieces "," input) as [Hpieces _].
  induction Hpieces as [|p ps Hp _ IH]; [constructor |].
  rewrite map_cons, filter_cons.
  destruct (decide (Str.trim p ≠ "")) as [Hne|]; [|exact IH].
  constructor; [|exact IH].
  exists (Str.trim p). split; [done |]. split; [done |]. split.
  - by apply trim_excludes.
  - apply trim_idem.
Qed.

(** *** What the editor shows of the tags is read back as the tags *)





Section EditorForm.

Context `{Host}.


End EditorForm.

Section EditorSaves.

Context `{Host}.



End EditorSaves.



Section EditorRoundTrip.

Context `{Host}.




End EditorRoundTrip.





(** ** The configuration that is saved and loaded *)

Section SavedConfig.

Context `{Host}.

Lemma le_of_Z (a b : Z) :
  Num.le (Num.of_Z a) (Num.of_Z b) = bool_decide (a ≤ b)%Z.
Proof.
  unfold Num.le, Num.of_Z. apply bool_decide_ext. symmetry.
  apply Z2Qc_inj_le.
Qed.

Lemma truthy_of_Z (z : Z) : Num.truthy (Num.of_Z z) = negb (bool_decide (z = 0%Z)).
Proof.
  unfold Num.truthy, Num.of_Z. f_equal. apply bool_decide_ext. split.
  - intros E. apply (f_equal this) in E. simpl in E. by injection E.
  - intros ->. by apply Qc_is_canon.
Qed.

(** The viewer size that is saved is a whole number from 1 to 50. *)
Lemma viewer_size_whole (input : string) :
  ∃ z, (1 ≤ z ≤ 50)%Z ∧ viewer_size_of_input input = Num.of_Z z.
Proof.
  unfold viewer_size_of_input.
  assert (∃ z, (if Num.truthy (Str.parseInt input) then Str.parseInt input
                else Num.of_Z 10) = Num.of_Z z) as [z ->].
  { destruct (parseInt_cases input) as [-> | [z ->]]; simpl; [by eauto |].
    destruct (negb _); eauto. }
  exists (Z.max 1 (Z.min 50 z)). split; [lia |].
  assert (Num.min (Num.of_Z 50) (Num.of_Z z) = Num.of_Z (Z.min 50 z)) as ->.
  { change (Num.min (Num.of_Z 50) (Num.of_Z z))
      with (if Num.le (Num.of_Z 50) (Num.of_Z z)
            then Num.of_Z 50 else Num.of_Z z).
    rewrite le_of_Z. case_bool_decide; f_equal; lia. }
  change (Num.max (Num.of_Z 1) (Num.of_Z (Z.min 50 z)))
    with (if Num.le (Num.of_Z 1) (Num.of_Z (Z.min 50 z))
          then Num.of_Z (Z.min 50 z) else Num.of_Z 1).
  rewrite le_of_Z. case_bool_decide; f_equal; lia.
Qed.

Lemma threshold_of_input_truthy (input : string) :
  Num.truthy (threshold_of_input input) = true.
Proof.
  unfold threshold_of_input.
  destruct (Num.truthy (Str.parseFloat input)) eqn:E; [done |].
  by vm_compute.
Qed.

Lemma root_folder_of_input (input : string) :
  let r := Str.trim input in
  let folder := if bool_decide (r = "") then "Books" else r in
  folder ≠ "" ∧ Str.trim folder = folder.
Proof.
  intros r folder. subst folder. case_bool_decide as E.
  - split; [done | by vm_compute].
  - split; [done | apply trim_idem].
Qed.

End SavedConfig.

(** X6.  Whatever the Configuration Panel holds when it is saved,
    the configuration that results in memory has a root folder that
    is not empty and carries no white space around it, a threshold
    that is neither zero nor NaN and a viewer size that is a whole
    number from 1 to 50.  The configuration found in storage holds the
    same root folder, the same switch and the same viewer size, and
    the same threshold when it is finite; a threshold that is infinite
    (the input [Infinity]) is stored as [null]. *)
Theorem saved_configuration_in_range `{Host} (st : State) :
  let st' := (saveConfigClick st).2 in
  let c := config st' in
  let stored := persisted_config st' in
  (rootFolder c ≠ "" ∧ Str.trim (rootFolder c) = rootFolder c)
  ∧ Num.truthy (searchThreshold c) = true
  ∧ (∃ z, (1 ≤ z ≤ 50)%Z ∧ maxViewerSizeMB c = Num.of_Z z)
  ∧ prop stored "rootFolder" = VStr (rootFolder c)
  ∧ prop stored "fuzzySearch" = VBool (fuzzySearch c)
  ∧ prop stored "maxViewerSizeMB" = VNum (maxViewerSizeMB c)
  ∧ prop stored "searchThreshold"
    = (if Num.isFinite (searchThreshold c) then VNum (searchThreshold c)
       else VNull).
Proof.
  intros st' c stored.
  destruct (saveConfigClick_saves st) as [Hc _].
  fold st' in Hc. fold c in Hc.
  assert (stored = to_json (config_value c)) as ->.
  { unfold stored, st'. rewrite persisted_config_saved. by rewrite <- Hc. }
  destruct (viewer_size_whole
              (maxViewerSizeInput (configForm (page st)))) as (z & Hz & Ez).
  assert (maxViewerSizeMB c = Num.of_Z z) as Hsize
    by (rewrite Hc; exact Ez).
  split; [rewrite Hc; apply root_folder_of_input |].
  split; [rewrite Hc; apply threshold_of_input_truthy |].
  split; [by exists z |].
  split; [reflexivity |]. split; [reflexivity |].
  split; [|reflexivity].
  change (prop (to_json (config_value c)) "maxViewerSizeMB")
    with (if Num.isFinite (maxViewerSizeMB c) then VNum (maxViewerSizeMB c)
          else VNull).
  by rewrite Hsize.
Qed.

(** ** Loading the configuration *)

Lemma config_value_stable (c : Config) :
  Num.isFinite (searchThreshold c) = true →
  Num.isFinite (maxViewerSizeMB c) = true →
  json_stable (config_value c) = true.
Proof. intros Ht Hm. simpl. by rewrite Ht, Hm. Qed.

Lemma loadConfig_stored (ls : gmap string text) (cfg : value) (c : Config) :
  ls !! LS_CONFIG = Some (JSON_stringify (config_value c)) →
  json_stable (config_value c) = true →
  loadConfig ls cfg = config_value c.
Proof.
  intros Hls Hs. unfold loadConfig. rewrite Hls.
  change (JSON_stringify (config_value c))
    with (Json (to_json (config_value c))).
  by rewrite (to_json_stable _ Hs).
Qed.

(** X7.  A configuration saved through the Configuration Panel with
    a finite threshold is what [loadConfig] makes of the storage
    afterwards, whatever the configuration in memory: the four
    settings come back as they were saved. *)
Theorem saved_configuration_loads_back `{Host} (st : State) (cfg : value) :
  let st' := (saveConfigClick st).2 in
  Num.isFinite (searchThreshold (config st')) = true →
  loadConfig (localStorage st') cfg = config_value (config st').
Proof.
  intros st' Hfin.
  destruct (saveConfigClick_saves st) as [Hc Hls].
  fold st' in Hc, Hls. rewrite <- Hc in Hls.
  apply loadConfig_stored; [done |].
  apply config_value_stable; [done |].
  rewrite Hc. unfold config_of_form. simpl.
  by destruct (viewer_size_whole
                 (maxViewerSizeInput (configForm (page st)))) as (z & _ & ->).
Qed.

Lemma saved_configuration_loads_back_witness :
  let st' := (saveConfigClick Sample.st_configuring).2 in
  Num.isFinite (searchThreshold (config st')) = true
  ∧ loadConfig (localStorage st') VNull = config_value (config st').
Proof.
  split; [by vm_compute |].
  apply (saved_configuration_loads_back (H := Sample.host)
           Sample.st_configuring VNull).
  by vm_compute.
Defined.

(** The last value written under a key, when every key is written
    once. *)
Lemma assoc_spread (k : string) (base extra : list (string * value)) :
  NoDup extra.*1 →
  assoc k (foldl (λ ps kv, set_prop kv.1 kv.2 ps) base extra)
  = match assoc k extra with
    | Some v => Some v
    | None => assoc k base
    end.
Proof.
  revert base. induction extra as [|[k' v'] extra IH]; intros base Hnd;
    [done |].
  rewrite fmap_cons in Hnd. apply NoDup_cons in Hnd as [Hk' Hnd].
  simpl. rewrite IH by done.
  destruct (bool_decide (k = k')) eqn:E.
  - apply bool_decide_eq_true_1 in E. subst k'.
    destruct (assoc k extra) as [v|] eqn:Ea.
    + exfalso. apply Hk'. clear -Ea.
      induction extra as [|[k1 v1] extra IHe]; [done |].
      simpl in Ea. rewrite fmap_cons. simpl.
      destruct (bool_decide (k = k1)) eqn:E1.
      * apply bool_decide_eq_true_1 in E1. subst. apply elem_of_cons. by left.
      * apply elem_of_cons. right. auto.
    + apply assoc_set_prop_eq.
  - apply bool_decide_eq_false_1 in E.
    destruct (assoc k extra); [done |]. by apply assoc_set_prop_ne.
Qed.

(** X8.  When the stored configuration is a JSON object,
    [loadConfig] gives every setting found in it the stored value,
    whatever its type, and every setting missing from it the default;
    keys that are no settings are carried along. *)
Theorem stored_settings_override_defaults (ls : gmap string text)
    (cfg : value) (ps : list (string * value)) :
  ls !! LS_CONFIG = Some (Json (VObj ps)) →
  NoDup ps.*1 →
  ∀ k, prop (loadConfig ls cfg) k
       = default (prop (config_value DEFAULT_CONFIG) k) (assoc k ps).
Proof.
  intros Hls Hnd k. unfold loadConfig. rewrite Hls. simpl.
  rewrite prop_obj.
  change [("rootFolder", VStr "Books"); ("fuzzySearch", VBool true);
          ("searchThreshold", VNum (Fin (Q2Qc (4 # 10))));
          ("maxViewerSizeMB", VNum (Num.of_Z 10))]
    with (spread_props (config_value DEFAULT_CONFIG)).
  rewrite assoc_spread by done.
  by destruct (assoc k ps).
Qed.

Lemma stored_settings_override_defaults_witness :
  let ps := [("fuzzySearch", VNull); ("theme", VStr "dark")] in
  let ls : gmap string text := {[ LS_CONFIG := Json (VObj ps) ]} in
  prop (loadConfig ls VNull) "fuzzySearch" = VNull
  ∧ prop (loadConfig ls VNull) "theme" = VStr "dark"
  ∧ prop (loadConfig ls VNull) "rootFolder"
    = prop (config_value DEFAULT_CONFIG) "rootFolder".
Proof.
  intros ps ls.
  assert (∀ k, prop (loadConfig ls VNull) k
               = default (prop (config_value DEFAULT_CONFIG) k) (assoc k ps))
    as Hall; [|by rewrite !Hall].
  apply (stored_settings_override_defaults ls VNull ps).
  - by vm_compute.
  - subst ps. rewrite !fmap_cons, fmap_nil, !NoDup_cons. simpl.
    rewrite not_elem_of_cons.
    repeat split; [done | apply not_elem_of_nil.. | apply NoDup_nil_2].
Defined.

(** ** What a JSON text keeps of an object *)

(** The first value under a key is written when it is defined; a value
    without [undefined] and non-finite numbers is written as it is, a
    non-finite number as [null]. *)
Lemma assoc_json_props (k : string) (ps : list (string * value)) (v : value) :
  assoc k ps = Some v → v ≠ VUndef →
  assoc k (json_props ps) = Some (to_json v).
Proof.
  intros Ha Hv. induction ps as [|[k' x] ps IH]; [done |].
  simpl in Ha. simpl.
  destruct (bool_decide (k = k')) eqn:E.
  - simplify_eq. destruct v; simpl; try done; by rewrite E.
  - destruct (is_undef x); [by apply IH |].
    simpl. rewrite E. by apply IH.
Qed.

Lemma assoc_json_props_none (k : string) (ps : list (string * value)) :
  assoc k ps = None → assoc k (json_props ps) = None.
Proof.
  induction ps as [|[k' x] ps IH]; [done |]. simpl.
  destruct (bool_decide (k = k')) eqn:E; [done |]. intros Ha.
  destruct (is_undef x); [by apply IH |]. simpl. rewrite E. by apply IH.
Qed.

Lemma prop_json_stable (ps : list (string * value)) (k : string) :
  json_stable (prop (VObj ps) k) = true →
  prop (VObj (json_props ps)) k = prop (VObj ps) k.
Proof.
  rewrite !prop_obj. intros Hs.
  destruct (assoc k ps) as [v|] eqn:Ea; [|done]. simpl in Hs.
  rewrite (assoc_json_props k ps v Ea) by by apply json_stable_defined.
  simpl. by apply to_json_stable.
Qed.

Lemma prop_json_not_finite (ps : list (string * value)) (k : string) (n : num) :
  prop (VObj ps) k = VNum n → Num.isFinite n = false →
  prop (VObj (json_props ps)) k = VNull.
Proof.
  rewrite !prop_obj. intros Hp Hn.
  destruct (assoc k ps) as [v|] eqn:Ea; [|done]. simpl in Hp. subst v.
  rewrite (assoc_json_props k ps _ Ea) by done. simpl. by rewrite Hn.
Qed.

Section Reload.

Context `{Host}.

Lemma saveBooks_then_loadBooks (st : State) (l : list value) :
  catalog st = VArr l →
  catalog (loadBooks (saveBooks st).2).2 = VArr (map json_elem l).
Proof.
  intros Hcat.
  set (st1 := (saveBooks st).2).
  assert (localStorage st1 !! LS_BOOKS = Some (Json (VArr (map json_elem l))))
    as Hls.
  { unfold st1, saveBooks, modify. simpl. rewrite lookup_insert_eq.
    by rewrite Hcat. }
  rewrite (loadBooks_parsed st1 _ Hls). apply catalog_new_cell.
Qed.

End Reload.

(** X9.  The catalog that [loadBooks] reads after [saveBooks] has
    stored it is the catalog as JSON writes it: every document keeps,
    under each key, a value that holds neither [undefined] nor a
    non-finite number, and a number that is not finite (the [NaN] of
    an unknown size) comes back as [null].  A catalog without such
    values comes back as it was. *)
Theorem reloaded_catalog `{Host} (st : State) (l : list value) :
  catalog st = VArr l →
  let st' := (loadBooks (saveBooks st).2).2 in
  ∃ l',
    catalog st' = VArr l'
    ∧ length l' = length l
    ∧ (forallb json_stable l = true → l' = l)
    ∧ ∀ i ps, l !! i = Some (VObj ps) →
        ∃ ps', l' !! i = Some (VObj ps')
               ∧ (∀ k, json_stable (prop (VObj ps) k) = true →
                       prop (VObj ps') k = prop (VObj ps) k)
               ∧ (∀ k n, prop (VObj ps) k = VNum n →
                         Num.isFinite n = false →
                         prop (VObj ps') k = VNull).
Proof.
  intros Hcat st'. exists (map json_elem l).
  split; [by apply saveBooks_then_loadBooks |].
  split; [by rewrite length_map |].
  split.
  - intros Hs.
    pose proof (to_json_stable (VArr l) Hs) as E.
    rewrite to_json_arr in E. by injection E.
  - intros i ps Hi. exists (json_props ps). split.
    + rewrite list_lookup_fmap, Hi. simpl. f_equal.
      change (json_elem (VObj ps)) with (to_json (VObj ps)).
      apply to_json_obj.
    + split; [apply prop_json_stable | apply prop_json_not_finite].
Qed.

Lemma reloaded_catalog_witness :
  let st := Sample.st_loaded in
  let st' := (loadBooks (saveBooks st).2).2 in
  ∃ l',
    catalog st' = VArr l'
    ∧ length l' = length Sample.loaded_books
    ∧ (forallb json_stable Sample.loaded_books = true
       → l' = Sample.loaded_books)
    ∧ ∀ i ps, Sample.loaded_books !! i = Some (VObj ps) →
        ∃ ps', l' !! i = Some (VObj ps')
               ∧ (∀ k, json_stable (prop (VObj ps) k) = true →
                       prop (VObj ps') k = prop (VObj ps) k)
               ∧ (∀ k n, prop (VObj ps) k = VNum n →
                         Num.isFinite n = false →
                         prop (VObj ps') k = VNull).
Proof.
  apply (reloaded_catalog (H := Sample.host) Sample.st_loaded
           Sample.loaded_books).
  by vm_compute.
Defined.

(** ** Import *)

Section Importing.

Context `{Host}.

(** A step that leaves the requests alone, inside a sequence. *)
Lemma wp_after_preserved {A B} (m : M A) (k : M B) Q E (st : State) :
  preserves effects m →
  (∀ st', effects st' = effects st → wp k Q E st') →
  (∀ st', effects st' = effects st → E st') →
  wp (exec m; k) Q E st.
Proof.
  intros Hm Hk HE. apply wp_bind. unfold wp. specialize (Hm st).
  destruct (m st) as [[a|e] st']; simpl in Hm.
  - by apply Hk.
  - by apply HE.
Qed.

Lemma preserves_effects_saveBooks : preserves effects saveBooks.
Proof. unfold saveBooks. preserves_auto. Qed.

(** The body of the [try] of [importBooksJson]: it ends with the
    success alert as the one new request, or throws with no request
    made. *)
Lemma import_body (file : text) (st : State) :
  wp (run arr ← lift (JSON_parse file);
      exec (if Array_isArray arr then ret tt
            else lift (Threw (Error "Invalid JSON")));
      run items ← lift (as_array arr);
      run recs ← on_clock (mapSE (normalize "import") items);
      run l ← alloc (VArr recs);
      exec modify (with_books l);
      exec saveBooks;
      exec initFuse;
      exec rebuildFacets;
      exec applyFiltersAndRender;
      emit (Alert ImportedOk))
     (λ _ st', effects st' = effects st ++ [Alert ImportedOk])
     (λ st', effects st' = effects st) st.
Proof.
  apply wp_bind, wp_lift; [|done]. intros arr _.
  apply wp_bind.
  destruct (Array_isArray arr); [apply wp_ret | by apply wp_lift].
  apply wp_bind, wp_lift; [|done]. intros items _.
  apply wp_bind, wp_on_clock; [|done]. intros recs t _.
  apply wp_bind, wp_alloc. apply wp_bind, wp_modify.
  apply wp_after_preserved; [apply preserves_effects_saveBooks | | done].
  intros st1 E1. simpl in E1.
  apply wp_after_preserved;
    [apply preserves_initFuse, effects_independent | | intros; congruence].
  intros st2 E2.
  apply wp_after_preserved;
    [apply preserves_rebuildFacets, effects_independent | |
      intros; congruence].
  intros st3 E3.
  apply wp_after_preserved;
    [apply preserves_applyFiltersAndRender, effects_independent | |
      intros; congruence].
  intros st4 E4. unfold emit. apply wp_modify. simpl. congruence.
Qed.

End Importing.

(** X10.  [importBooksJson] never throws, whatever the file and the
    state, and makes exactly one request: the alert that the import
    succeeded or the alert that it failed. *)
Theorem import_always_reports `{Host} (file : text) (st : State) :
  let r := importBooksJson file st in
  r.1 = Done tt
  ∧ ∃ a, effects r.2 = effects st ++ [Alert a]
         ∧ (a = ImportedOk ∨ ∃ e, a = ImportFailed e).
Proof.
  intros r.
  set (reported := λ st' : State,
         ∃ a, effects st' = effects st ++ [Alert a]
              ∧ (a = ImportedOk ∨ ∃ e, a = ImportFailed e)).
  assert (wp (importBooksJson file) (λ _, reported) (λ _, False) st) as Hwp.
  { unfold importBooksJson. apply wp_try_catch.
    eapply wp_mono; [apply import_body | |].
    - intros ? st' E. exists ImportedOk. auto.
    - intros st' E e. unfold emit. apply wp_modify.
      exists (ImportFailed e). simpl. rewrite E. eauto. }
  subst r. unfold wp in Hwp.
  by destruct (importBooksJson file st) as [[[]|e] st'].
Qed.

(** X11.  Importing a file that does not parse, or that parses to
    something that is no array, changes nothing: the state is the one
    before with the failure alert as a new request, and the error is
    'Invalid JSON' when the text parsed. *)
Theorem import_of_no_array_changes_nothing `{Host} (file : text) (st : State) :
  (∀ items, file ≠ Json (VArr items)) →
  importBooksJson file st
  = (Done tt,
     with_effects
       (effects st
        ++ [Alert (ImportFailed
                     match file with
                     | Unparseable _ => SyntaxError
                     | Json _ => Error "Invalid JSON"
                     end)]) st).
Proof.
  intros Hno. destruct file as [s | v]; [done |].
  destruct v; try done. by destruct (Hno elems).
Qed.

Lemma import_of_no_array_changes_nothing_witness :
  let file := Json (VObj [("books", VArr [])]) in
  let st := Sample.st_loaded in
  importBooksJson file st
  = (Done tt,
     with_effects
       (effects st ++ [Alert (ImportFailed (Error "Invalid JSON"))]) st).
Proof.
  apply (import_of_no_array_changes_nothing (H := Sample.host)
           (Json (VObj [("books", VArr [])])) Sample.st_loaded).
  intros items. discriminate.
Defined.

(** ** Export *)

Section Exporting.

Context `{Host}.

Lemma export_record_defined (b : value) :
  b ≠ VUndef → b ≠ VNull → export_record b = Done (export_object b).
Proof.
  intros Hu Hn. unfold export_record. by rewrite !get_prop.
Qed.

Lemma export_all_defined (l : list value) :
  Forall (λ b, b ≠ VUndef ∧ b ≠ VNull) l →
  mapO export_record l = Done (map export_object l).
Proof.
  induction 1 as [|b l [Hu Hn] _ IH]; simpl; [done |].
  by rewrite export_record_defined, IH.
Qed.

Lemma export_stops (l : list value) :
  ¬ Forall (λ b, b ≠ VUndef ∧ b ≠ VNull) l →
  mapO export_record l = Threw TypeError.
Proof.
  induction l as [|b l IH]; intros Hnot.
  - exfalso. apply Hnot. constructor.
  - simpl.
    assert (b = VUndef ∨ b = VNull ∨ (b ≠ VUndef ∧ b ≠ VNull))
      as [-> | [-> | [Hu Hn]]] by (destruct b; auto); [done | done |].
    rewrite export_record_defined by done. simpl.
    rewrite IH; [done |]. intros Hall. apply Hnot. by constructor.
Qed.

(** What the entry of the file holds for a document. *)
Lemma exported_entry_of (b : value) :
  let e := to_json (export_object b) in
  prop e "filename" = VUndef
  ∧ (∀ k, k ∈ exported_keys → json_stable (prop b k) = true →
          prop e k = prop b k)
  ∧ (if Number_isFinite (prop b "sizeBytes")
     then prop e "sizeBytes" = prop b "sizeBytes"
     else prop e "sizeBytes" = VUndef).
Proof.
  intros e. subst e. unfold export_object. rewrite to_json_obj.
  split; [|split].
  - rewrite prop_obj. by rewrite assoc_json_props_none.
  - intros k Hk Hs. unfold exported_keys in Hk.
    repeat (apply elem_of_cons in Hk as [-> | Hk]);
      try (by rewrite prop_json_stable).
    by apply elem_of_nil in Hk.
  - destruct (Number_isFinite (prop b "sizeBytes")) eqn:Hfin.
    + destruct (known_size _ Hfin) as [q Hq].
      rewrite prop_json_stable; rewrite prop_obj; simpl; by rewrite Hq.
    + rewrite prop_obj.
      set (ps := [_; _; _; _; _; _; _; _; _; _]).
      destruct (assoc "sizeBytes" (json_props ps)) as [v|] eqn:Ea; [|done].
      exfalso. subst ps. simpl in Ea.
      repeat (destruct (is_undef _); simpl in Ea); discriminate.
Qed.

End Exporting.

(** X12.  [exportBooksJson] changes nothing of the state but the
    requests.  On a catalog without [undefined] and [null] entries it
    offers one file, [books.json], with one entry per document in
    the order of the catalog; an entry has no [filename], holds the
    size only when it is finite, and holds under every other exported
    key the value of the document when JSON can write it.  On any
    other catalog it throws a [TypeError] and offers nothing. *)
Theorem export_offers_one_file `{Host} (st : State) (l : list value) :
  catalog st = VArr l →
  (Forall (λ b, b ≠ VUndef ∧ b ≠ VNull) l →
   ∃ entries,
     exportBooksJson st
     = (Done tt,
        with_effects
          (effects st ++ [Download "books.json" (Json (VArr entries))]) st)
     ∧ Forall2
         (λ b e,
            prop e "filename" = VUndef
            ∧ (∀ k, k ∈ exported_keys → json_stable (prop b k) = true →
                    prop e k = prop b k)
            ∧ (if Number_isFinite (prop b "sizeBytes")
               then prop e "sizeBytes" = prop b "sizeBytes"
               else prop e "sizeBytes" = VUndef))
         l entries)
  ∧ (¬ Forall (λ b, b ≠ VUndef ∧ b ≠ VNull) l →
     exportBooksJson st = (Threw TypeError, st)).
Proof.
  intros Hcat. split.
  - intros Hall. exists (map (λ b, to_json (export_object b)) l). split.
    + unfold exportBooksJson, bind, gets, lift, emit, modify.
      rewrite Hcat. unfold as_array. rewrite (export_all_defined l Hall).
      unfold JSON_stringify. by rewrite to_json_arr, map_map.
    + clear Hcat Hall. induction l as [|b l IH]; constructor; [|done].
      apply exported_entry_of.
  - intros Hnot. unfold exportBooksJson, bind, gets, lift.
    rewrite Hcat. unfold as_array. by rewrite (export_stops l Hnot).
Qed.

Lemma export_offers_one_file_witness :
  let st := Sample.st_loaded in
  ∃ entries,
    exportBooksJson st
    = (Done tt,
       with_effects
         (effects st ++ [Download "books.json" (Json (VArr entries))]) st)
    ∧ Forall2
        (λ b e,
           prop e "filename" = VUndef
           ∧ (∀ k, k ∈ exported_keys → json_stable (prop b k) = true →
                   prop e k = prop b k)
           ∧ (if Number_isFinite (prop b "sizeBytes")
              then prop e "sizeBytes" = prop b "sizeBytes"
              else prop e "sizeBytes" = VUndef))
        Sample.loaded_books entries.
Proof.
  intros st.
  destruct (export_offers_one_file (H := Sample.host) st Sample.loaded_books)
    as [Hexport _]; [by vm_compute |].
  apply Hexport. repeat constructor; discriminate.
Defined.

(** ** The controls of the viewer *)

Section ViewerControls.

Context `{Host}.

Lemma scale_bounds : (minScale ≤ maxScale)%Qc ∧ (0 ≤ step)%Qc.
Proof. split; by vm_compute. Qed.

Lemma Qc_le_add_step (s : Qc) : (s ≤ s + step)%Qc.
Proof.
  rewrite <- (Qcplus_0_r s) at 1.
  apply Qcplus_le_compat; [apply Qcle_refl | apply scale_bounds].
Qed.

Lemma Qc_sub_step_le (s : Qc) : (s - step ≤ s)%Qc.
Proof.
  rewrite <- (Qcplus_0_r s) at 2. unfold Qcminus.
  apply Qcplus_le_compat; [apply Qcle_refl |].
  change 0%Qc with (- 0)%Qc. apply Qcopp_le_compat, scale_bounds.
Qed.

Lemma zoom_in_range (s : Qc) :
  (minScale ≤ s ≤ maxScale)%Qc →
  (minScale ≤ Qc_min (s + step) maxScale ≤ maxScale)%Qc.
Proof.
  intros [Hlo Hhi]. unfold Qc_min. case_bool_decide as E.
  - split; [|done]. eapply Qcle_trans; [exact Hlo | apply Qc_le_add_step].
  - split; [apply scale_bounds | apply Qcle_refl].
Qed.

Lemma zoom_out_range (s : Qc) :
  (minScale ≤ s ≤ maxScale)%Qc →
  (minScale ≤ Qc_max (s - step) minScale ≤ maxScale)%Qc.
Proof.
  intros [Hlo Hhi]. unfold Qc_max. case_bool_decide as E.
  - split; [apply Qcle_refl | apply scale_bounds].
  - split.
    + apply Qclt_le_weak. by apply Qcnot_le_lt.
    + eapply Qcle_trans; [apply Qc_sub_step_le | exact Hhi].
Qed.

(** The renderer keeps the viewer as it should be between two clicks,
    changes nothing else of the state, and changes the viewer only by
    opening a session when there is none. *)
Lemma renderPdfPage_ok (a : pdfjs) (st : State) :
  viewer_ok (pdf st) → has_pages a →
  let st' := (renderPdfPage a st).2 in
  viewer_ok (pdf st')
  ∧ (pdfDoc (pdf st) = true → pdf st' = pdf st)
  ∧ url (pdf st') = url (pdf st)
  ∧ st' = with_pdf (pdf st') st.
Proof.
  intros [[Hp Hz] Hclosed] Hpages st'. subst st'.
  destruct st as [? ? ? ? ? ? ? [u d n c z t] ? ? ? ? ? ?].
  unfold renderPdfPage, viewer_ok, viewer_in_range, has_pages in *.
  simpl in *.
  unfold bind, gets, lift, modify.
  destruct (library a) as [[]|]; simpl; [|done..].
  destruct d; simpl.
  - by destruct (drawn a).
  - destruct (document a) as [m|e]; simpl; [|done].
    destruct (Hclosed eq_refl) as [-> ->].
    specialize (Hpages m eq_refl).
    destruct (drawn a); simpl; repeat split;
      first [done | lia | apply Hz].
Qed.

(** One click keeps the viewer as it should be, changes nothing else of
    the state, and leaves the page count of an open session. *)
Lemma viewer_click_ok (b : viewer_button) (a : pdfjs) (st : State) :
  viewer_ok (pdf st) → has_pages a →
  let st' := (viewer_click b a st).2 in
  viewer_ok (pdf st')
  ∧ (pdfDoc (pdf st) = true
     → pdfDoc (pdf st') = true ∧ pageCount (pdf st') = pageCount (pdf st))
  ∧ url (pdf st') = url (pdf st)
  ∧ st' = with_pdf (pdf st') st.
Proof.
  intros Hok Hpages st'. subst st'.
  assert (∀ p : Pdf,
            viewer_ok p → pdfDoc p = pdfDoc (pdf st) →
            pageCount p = pageCount (pdf st) → url p = url (pdf st) →
            let st1 := with_pdf p st in
            let st' := (renderPdfPage a st1).2 in
            viewer_ok (pdf st')
            ∧ (pdfDoc (pdf st) = true
               → pdfDoc (pdf st') = true
                 ∧ pageCount (pdf st') = pageCount (pdf st))
            ∧ url (pdf st') = url (pdf st)
            ∧ st' = with_pdf (pdf st') st) as Hrender.
  { intros p Hp Hd Hc Hu st1 st'.
    destruct (renderPdfPage_ok a st1 Hp Hpages) as (Hok' & Hsame & Hurl & Hst).
    fold st' in Hok', Hsame, Hurl, Hst.
    split; [done |]. split.
    - intros Hopen. rewrite Hsame by (simpl; congruence). simpl.
      split; congruence.
    - split; [simpl in Hurl; congruence |].
      rewrite Hst. by destruct st. }
  assert (with_pdf (pdf st) st = st) as Hst by by destruct st.
  pose proof Hok as [[Hp Hz] Hclosed].
  assert (viewer_ok (pdf st)
          ∧ (pdfDoc (pdf st) = true
             → pdfDoc (pdf st) = true ∧ pageCount (pdf st) = pageCount (pdf st))
          ∧ url (pdf st) = url (pdf st)
          ∧ st = with_pdf (pdf st) st) as Hstay.
  { split; [exact Hok |]. split; [done |]. split; [done | by symmetry]. }
  destruct b; simpl.
  - assert (prevPageClick a st
            = if bool_decide (pageNum (pdf st) > 1)%Z
              then renderPdfPage a
                     (with_pdf (with_pageNum (pageNum (pdf st) - 1) (pdf st))
                        st)
              else (Done tt, st)) as ->
      by (unfold prevPageClick, bind, gets, modify; by case_bool_decide).
    case_bool_decide as Hgt; [|done].
    apply Hrender; try done.
    split; [split; [simpl; lia | done] |].
    simpl. intros Hd. destruct (Hclosed Hd). lia.
  - assert (nextPageClick a st
            = if bool_decide (pageNum (pdf st) < pageCount (pdf st))%Z
              then renderPdfPage a
                     (with_pdf (with_pageNum (pageNum (pdf st) + 1) (pdf st))
                        st)
              else (Done tt, st)) as ->
      by (unfold nextPageClick, bind, gets, modify; by case_bool_decide).
    case_bool_decide as Hlt; [|done].
    apply Hrender; try done.
    split; [split; [simpl; lia | done] |].
    simpl. intros Hd. destruct (Hclosed Hd). lia.
  - change (zoomInClick a st)
      with (renderPdfPage a
              (with_pdf (with_scale (Qc_min (scale (pdf st) + step) maxScale)
                           (pdf st)) st)).
    apply Hrender; try done.
    split; [split; [done | by apply zoom_in_range] | done].
  - change (zoomOutClick a st)
      with (renderPdfPage a
              (with_pdf (with_scale (Qc_max (scale (pdf st) - step) minScale)
                           (pdf st)) st)).
    apply Hrender; try done.
    split; [split; [done | by apply zoom_out_range] | done].
Qed.

End ViewerControls.

(** X13.  From a viewer with an open session whose page number lies
    between 1 and the page count, or without a session on the first
    page of a count of one, and whose zoom lies between the minimum
    and the maximum scale, every sequence of clicks on the previous,
    next, zoom-in and zoom-out buttons leaves the page number and the
    zoom within those bounds, whatever PDF.js answers to the calls of
    the renderer, as long as the documents it loads have at least one
    page.  The page count of an open session does not change; the
    clicks change neither the address of the document nor anything
    outside the viewer state (catalog, page, storage, requests). *)
Theorem viewer_stays_in_range `{Host}
    (cs : list (viewer_button * pdfjs)) (st : State) :
  viewer_ok (pdf st) →
  Forall (λ c, has_pages c.2) cs →
  let st' := viewer_clicks cs st in
  viewer_ok (pdf st')
  ∧ (pdfDoc (pdf st) = true
     → pdfDoc (pdf st') = true ∧ pageCount (pdf st') = pageCount (pdf st))
  ∧ url (pdf st') = url (pdf st)
  ∧ st' = with_pdf (pdf st') st.
Proof.
  intros Hok Hall. revert st Hok.
  induction Hall as [|[b a] cs Ha _ IH]; intros st Hok st'.
  - subst st'. simpl. repeat split; try apply Hok; try done.
    by destruct st.
  - subst st'. unfold viewer_clicks. simpl.
    destruct (viewer_click_ok b a st Hok Ha) as (Hok1 & Hopen1 & Hurl1 & Hst1).
    set (st1 := (viewer_click b a st).2) in *.
    destruct (IH st1 Hok1) as (Hok2 & Hopen2 & Hurl2 & Hst2).
    fold (viewer_clicks cs st1) in *.
    set (st2 := viewer_clicks cs st1) in *.
    split; [done |]. split.
    + intros Hd. destruct (Hopen1 Hd) as [Hd1 Hc1].
      destruct (Hopen2 Hd1) as [Hd2 Hc2]. split; congruence.
    + split; [congruence |]. rewrite Hst2, Hst1. reflexivity.
Qed.

Lemma viewer_stays_in_range_witness :
  let st := (openPdf (H := Sample.host) Sample.rudin Sample.st_loaded).2 in
  let three :=
    {| library := Done true; document := Done 3%Z; drawn := Done tt |} in
  let failing :=
    {| library := Done true; document := Threw TypeError;
       drawn := Threw TypeError |} in
  let cs := [(ZoomIn, failing); (NextPage, three); (ZoomIn, three);
             (NextPage, three); (NextPage, failing); (ZoomOut, three);
             (PrevPage, three)] in
  let st' := viewer_clicks cs st in
  pdfDoc (pdf st) = false
  ∧ pageNum (pdf st') = 2%Z ∧ pageCount (pdf st') = 3%Z
  ∧ viewer_ok (pdf st')
  ∧ (pdfDoc (pdf st) = true
     → pdfDoc (pdf st') = true ∧ pageCount (pdf st') = pageCount (pdf st))
  ∧ url (pdf st') = url (pdf st)
  ∧ st' = with_pdf (pdf st') st.
Proof.
  intros st three failing cs st'.
  split; [by vm_compute |]. split; [by vm_compute |].
  split; [by vm_compute |].
  apply (viewer_stays_in_range (H := Sample.host) cs st).
  - split; [split; [by vm_compute | split; by vm_compute] |].
    intros _. split; by vm_compute.
  - repeat constructor; intros n [= <-]; lia.
Defined.

(** ** The Escape key *)

(** X14.  The Escape key closes every modal that is displayed: after
    it none of the viewer, the editor and the Configuration Panel is
    displayed, the target of the editor is forgotten when the editor
    was displayed, the viewer is reset when it was displayed, and the
    catalog is as before.  Any other key changes nothing. *)
Theorem escape_closes_every_modal `{Host} (st : State) :
  let r := keydown "Escape" st in
  r.1 = Done tt
  ∧ pdfModal (modals (page r.2)) = false
  ∧ editModal (modals (page r.2)) = false
  ∧ configModal (modals (page r.2)) = false
  ∧ editingId r.2
    = (if editModal (modals (page st)) then VNull else editingId st)
  ∧ pdf r.2 = (if pdfModal (modals (page st)) then closed_pdf else pdf st)
  ∧ books r.2 = books st ∧ store r.2 = store st
  ∧ ∀ key, key ≠ "Escape" → keydown key st = (Done tt, st).
Proof.
  intros r. subst r. unfold keydown.
  rewrite bool_decide_eq_true_2 by done.
  unfold bind, gets, closePdf, closeEditModal, closeConfigModal, set_modals,
    set_page, bind, modify, ret.
  destruct (pdfModal (modals (page st))) eqn:Hv;
    destruct (editModal (modals (page st))) eqn:He;
    destruct (configModal (modals (page st))) eqn:Hc; simpl;
    rewrite ?Hv, ?He, ?Hc; simpl; rewrite ?Hv, ?He, ?Hc; simpl;
    (repeat split; try done);
    intros key Hkey; by rewrite bool_decide_eq_false_2.
Qed.

(** ** Slugs *)

Lemma dash_is_no_slug_char (c : ascii) :
  is_slug_char c = true → c ≠ "-"%char.
Proof. intros Hc ->. by vm_compute in Hc. Qed.

Lemma dash_runs_apart (in_run : bool) (s : string) :
  dashes_apart in_run (dash_runs in_run s) = true.
Proof.
  revert in_run. induction s as [|c r IH]; intros in_run; [done |].
  simpl. destruct (is_slug_char c) eqn:Hc.
  - simpl. rewrite bool_decide_eq_false_2 by by apply dash_is_no_slug_char.
    by rewrite Hc, IH.
  - destruct in_run; [apply IH |].
    simpl. by rewrite IH.
Qed.

Lemma dashes_apart_weaken (s : string) :
  dashes_apart true s = true → dashes_apart false s = true.
Proof.
  destruct s as [|c r]; [done |]. simpl.
  by destruct (bool_decide (c = "-"%char)).
Qed.

Lemma drop_first_dash_apart (s : string) :
  dashes_apart false s = true → dashes_apart true (drop_first_dash s) = true.
Proof.
  destruct s as [|c r]; [done |]. intros Hs.
  assert (c = "-"%char ∨ c ≠ "-"%char) as [-> | Hc]
    by (destruct (decide (c = "-"%char)); auto).
  - simpl in *. by destruct (dashes_apart true r).
  - replace (drop_first_dash (String c r)) with (String c r).
    + simpl in *. rewrite bool_decide_eq_false_2 in * by done. done.
    + unfold drop_first_dash.
      destruct c as [[] [] [] [] [] [] [] []]; try done.
Qed.

Lemma drop_last_dash_cons (c : ascii) (r : string) :
  r ≠ "" → drop_last_dash (String c r) = String c (drop_last_dash r).
Proof. by destruct r. Qed.

Lemma drop_last_dash_apart (b : bool) (s : string) :
  dashes_apart b s = true → dashes_apart b (drop_last_dash s) = true.
Proof.
  revert b. induction s as [|c r IH]; intros b; [done |].
  destruct r as [|c' r'].
  - simpl. case_bool_decide as Hc; [done |].
    simpl. by rewrite bool_decide_eq_false_2.
  - rewrite drop_last_dash_cons by done.
    change (dashes_apart b (String c ?x))
      with (if bool_decide (c = "-"%char)
            then negb b && dashes_apart true x
            else is_slug_char c && dashes_apart false x).
    destruct (bool_decide (c = "-"%char)); intros Hs;
      apply andb_prop in Hs as [-> Hs]; by rewrite IH.
Qed.

(** What is left does not end with a dash. *)
Lemma drop_last_dash_end (b : bool) (s base : string) :
  dashes_apart b s = true → drop_last_dash s ≠ base +:+ "-".
Proof.
  revert b base. induction s as [|c r IH]; intros b base Hs.
  - by destruct base.
  - destruct r as [|c' r'].
    + simpl. case_bool_decide as Hc; [by destruct base |].
      destruct base as [|x base].
      * change ("" +:+ "-") with "-". congruence.
      * change (String x base +:+ "-") with (String x (base +:+ "-")).
        intros E. injection E as _ E. by destruct base.
    + rewrite drop_last_dash_cons by done.
      change (dashes_apart b (String c (String c' r')))
        with (if bool_decide (c = "-"%char)
              then negb b && dashes_apart true (String c' r')
              else is_slug_char c && dashes_apart false (String c' r')) in Hs.
      destruct base as [|x base].
      * change ("" +:+ "-") with "-".
        intros E. injection E as -> E.
        rewrite bool_decide_eq_true_2 in Hs by done.
        apply andb_prop in Hs as [_ Hs].
        destruct r' as [|c'' r'']; simpl in E.
        -- case_bool_decide as Hc'; [|done]. subst c'. by simpl in Hs.
        -- done.
      * change (String x base +:+ "-") with (String x (base +:+ "-")).
        intros E. injection E as _ E.
        destruct (bool_decide (c = "-"%char));
          apply andb_prop in Hs as [_ Hs]; by apply (IH _ base) in Hs.
Qed.

Lemma dashes_apart_chars (b : bool) (s : string) (c : ascii) :
  dashes_apart b s = true → In c (list_ascii_of_string s) →
  is_slug_char c = true ∨ c = "-"%char.
Proof.
  revert b. induction s as [|x r IH]; intros b Hs Hin; [done |].
  simpl in Hs, Hin.
  destruct (bool_decide (x = "-"%char)) eqn:Hx;
    apply andb_prop in Hs as [Hx' Hs]; destruct Hin as [<- | Hin]; eauto.
  right. by apply bool_decide_eq_true_1 in Hx.
Qed.

Lemma dashes_apart_no_pair (b : bool) (s : string) :
  dashes_apart b s = true → Str.includes s "--" = false.
Proof.
  revert b. induction s as [|x r IH]; intros b Hs; [done |].
  simpl in Hs.
  change (Str.includes (String x r) "--")
    with (Str.prefix "--" (String x r) || Str.includes r "--").
  destruct (bool_decide (x = "-"%char)) eqn:Hx;
    apply andb_prop in Hs as [Hx' Hs]; rewrite (IH _ Hs), orb_false_r.
  - simpl. destruct r as [|y r]; [by rewrite andb_false_r |].
    simpl in Hs. destruct (bool_decide (y = "-"%char)) eqn:Hy; [done |].
    apply bool_decide_eq_false_1 in Hy.
    rewrite (bool_decide_eq_false_2 ("-"%char = y)) by done.
    by rewrite andb_false_r.
  - simpl. apply bool_decide_eq_false_1 in Hx.
    by rewrite (bool_decide_eq_false_2 ("-"%char = x)).
Qed.

Lemma dashes_apart_no_first (s : string) :
  dashes_apart true s = true → Str.prefix "-" s = false.
Proof.
  destruct s as [|x r]; [done |]. simpl.
  destruct (bool_decide (x = "-"%char)) eqn:Hx; [done |]. intros _.
  apply bool_decide_eq_false_1 in Hx.
  by rewrite (bool_decide_eq_false_2 ("-"%char = x)).
Qed.

(** X15.  Whatever its argument and whatever the host makes of
    upper-case letters, the result of [slugify] consists of the
    characters a-z, 0-9 and dashes only, holds no two dashes in a row
    and neither begins nor ends with a dash. *)
Theorem slugify_shape `{Host} (v : value) :
  (∀ c, In c (list_ascii_of_string (slugify v)) →
        is_slug_char c = true ∨ c = "-"%char)
  ∧ Str.includes (slugify v) "--" = false
  ∧ Str.prefix "-" (slugify v) = false
  ∧ ¬ ends_with (slugify v) "-".
Proof.
  unfold slugify.
  set (s := toLowerCase _).
  assert (dashes_apart true (drop_last_dash (drop_first_dash
                                               (dash_runs false s))) = true)
    as Hshape.
  { apply drop_last_dash_apart, drop_first_dash_apart, dash_runs_apart. }
  split; [|split; [|split]].
  - intros c. by apply dashes_apart_chars with (b := true).
  - by apply dashes_apart_no_pair with (b := true).
  - by apply dashes_apart_no_first.
  - intros [base E]. revert E.
    apply drop_last_dash_end with (b := true).
    apply drop_first_dash_apart, dash_runs_apart.
Qed.

(** ** Sets of values *)

(** The equality of [Set] holds between equal values only. *)
Lemma same_value_zero_eq (a b : value) : same_value_zero a b = true → a = b.
Proof.
  destruct a, b; simpl; try discriminate; try apply strict_eq_eq.
  - intros E. by apply (strict_eq_eq VUndef VUndef).
  - intros E. by apply (strict_eq_eq VNull VNull).
  - intros E. by apply (strict_eq_eq (VBool _) (VBool _)).
  - destruct n, n0; simpl; try discriminate; try done.
    intros E. apply bool_decide_eq_true_1 in E. by subst.
  - intros E. by apply (strict_eq_eq (VStr _) (VStr _)).
Qed.

Lemma same_value_zero_string (s : string) (v : value) :
  same_value_zero v (VStr s) = true ↔ v = VStr s.
Proof.
  split; [apply same_value_zero_eq |]. intros ->. simpl.
  by apply bool_decide_eq_true_2.
Qed.

(** A set made from a list holds the elements of the list. *)
Lemma elem_of_Set_of (x : value) (l : list value) : x ∈ Set_of l ↔ x ∈ l.
Proof.
  induction l as [|y l IH]; [done |]. simpl. rewrite !elem_of_cons.
  rewrite list_elem_of_filter, IH. split.
  - intros [-> | [_ Hx]]; auto.
  - intros [-> | Hx]; [by left |].
    destruct (same_value_zero y x) eqn:E.
    + left. symmetry. by apply same_value_zero_eq.
    + right. auto.
Qed.

Lemma Set_has_strings (xs : list value) (to_s : value → string) (t : value) :
  Set_has (Set_of (map (λ x, VStr (to_s x)) xs)) t = true
  ↔ ∃ x, x ∈ xs ∧ t = VStr (to_s x).
Proof.
  unfold Set_has. rewrite existsb_exists. split.
  - intros (y & Hy & E).
    rewrite <- list_elem_of_In, elem_of_Set_of, list_elem_of_fmap in Hy.
    destruct Hy as (x & -> & Hx).
    exists x. split; [done |]. by apply same_value_zero_string.
  - intros (x & Hx & ->). exists (VStr (to_s x)). split.
    + rewrite <- list_elem_of_In, elem_of_Set_of, list_elem_of_fmap. eauto.
    + by apply same_value_zero_string.
Qed.



(** ** The facets *)

Section Facets.

Context `{Host}.

Lemma mapO_get (k : string) (l : list value) :
  Forall (λ b, b ≠ VUndef ∧ b ≠ VNull) l →
  mapO (λ b, get b k) l = Done (map (λ b, prop b k) l).
Proof.
  induction 1 as [|b l [Hu Hn] _ IH]; simpl; [done |].
  by rewrite get_prop, IH.
Qed.

Lemma mapO_tags (l : list value) :
  Forall (λ b, b ≠ VUndef ∧ b ≠ VNull) l →
  mapO (λ b, do t ← get b "tags"; Done (or_else t (VArr []))) l
  = Done (map (λ b, or_else (prop b "tags") (VArr [])) l).
Proof.
  induction 1 as [|b l [Hu Hn] _ IH]; simpl; [done |].
  rewrite get_prop by done. simpl. by rewrite IH.
Qed.

Lemma flatten_tags (l : list value) :
  flatten (map (λ b, or_else (prop b "tags") (VArr [])) l)
  = concat (map tag_values l).
Proof.
  unfold flatten. rewrite map_map. f_equal. apply map_ext. intros b.
  unfold tag_values. by destruct (or_else _ _).
Qed.




(** [rebuildFacets] on a catalog without [undefined] and [null]
    entries. *)
Lemma rebuildFacets_run (st : State) (l : list value) :
  catalog st = VArr l →
  Forall (λ b, b ≠ VUndef ∧ b ≠ VNull) l →
  let fs := Set_of (filter (λ v, truthy v = true)
                      (map (λ b, prop b "field") l)) in
  let ts := Set_of (filter (λ v, truthy v = true)
                      (concat (map tag_values l))) in
  rebuildFacets st
  = (Done tt,
     with_page
       (with_facet_controls
          (option_values (map to_string (sort_by_string fs)))
          (sort_by_string ts) (page st))
       (with_facets fs ts st)).
Proof.
  intros Hcat Hall fs ts.
  unfold rebuildFacets, bind, gets, lift, modify, set_page.
  rewrite Hcat. simpl.
  rewrite (mapO_get "field" l Hall), (mapO_tags l Hall). simpl.
  by rewrite flatten_tags.
Qed.


End Facets.



(** ** Rendering *)

Section Rendering.

Context `{Host}.

Lemma make_card_renderable (b : value) :
  renderable b → ∃ c, make_card b = Done c ∧ card_book c = b.
Proof.
  intros (Hu & Hn & xs & Hxs). unfold make_card.
  rewrite !get_prop by done. simpl. rewrite Hxs. simpl. by eexists.
Qed.

Lemma make_card_not_renderable (b : value) :
  ¬ renderable b → make_card b = Threw TypeError.
Proof.
  intros Hnot.
  assert (b = VUndef ∨ b = VNull ∨ (b ≠ VUndef ∧ b ≠ VNull))
    as [-> | [-> | [Hu Hn]]] by (destruct b; auto); [done | done |].
  unfold make_card. rewrite !get_prop by done. simpl.
  destruct (or_else (prop b "tags") (VArr [])) as [| | | | | xs |] eqn:E;
    try done.
  exfalso. apply Hnot. repeat split; try done. by exists xs.
Qed.

Lemma renderable_or_not (b : value) : renderable b ∨ ¬ renderable b.
Proof.
  assert (b = VUndef ∨ b = VNull ∨ (b ≠ VUndef ∧ b ≠ VNull))
    as [-> | [-> | [Hu Hn]]] by (destruct b; auto).
  - right. by intros (? & _).
  - right. by intros (_ & ? & _).
  - destruct (or_else (prop b "tags") (VArr [])) as [| | | | | xs |] eqn:E;
      try (right; intros (_ & _ & xs' & E'); congruence).
    left. repeat split; try done. by exists xs.
Qed.

Lemma cards_of_renderable (l : list value) :
  Forall renderable l →
  ∃ cs, mapO make_card l = Done cs ∧ map card_book cs = l.
Proof.
  induction 1 as [|b l Hb _ (cs & Hcs & Hl)]; [by exists [] |].
  destruct (make_card_renderable b Hb) as (c & Hc & Hbook).
  exists (c :: cs). simpl. rewrite Hc, Hcs. simpl. by rewrite Hbook, Hl.
Qed.

Lemma cards_stop (l : list value) :
  ¬ Forall renderable l → mapO make_card l = Threw TypeError.
Proof.
  induction l as [|b l IH]; intros Hnot.
  - exfalso. apply Hnot. constructor.
  - simpl. destruct (make_card b) as [c|e] eqn:Hc.
    + simpl. rewrite IH; [done |]. intros Hall. apply Hnot.
      constructor; [|done].
      destruct (renderable_or_not b) as [Hb | Hb]; [done |].
      by rewrite make_card_not_renderable in Hc.
    + destruct (renderable_or_not b) as [Hb | Hb].
      * destruct (make_card_renderable b Hb) as (c & Hc' & _). congruence.
      * rewrite make_card_not_renderable in Hc by done. by simplify_eq.
Qed.

Lemma sum_sizes_defined (acc : Qc) (l : list value) :
  Forall renderable l →
  sum_sizes acc l
  = Done (foldl (λ acc b, match prop b "sizeBytes" with
                          | VNum (Fin q) => (acc + q)%Qc
                          | _ => acc
                          end) acc l).
Proof.
  intros Hall. revert acc.
  induction Hall as [|b l (Hu & Hn & _) _ IH]; intros acc; [done |].
  simpl. rewrite get_prop by done. simpl.
  destruct (prop b "sizeBytes") as [| | | [| | |q] | | |]; apply IH.
Qed.

Lemma sum_sizes_error (acc : Qc) (l : list value) (e : exn) :
  sum_sizes acc l = Threw e → e = TypeError.
Proof.
  revert acc. induction l as [|b l IH]; intros acc; [done |].
  simpl. destruct (get b "sizeBytes") as [size|e'] eqn:E; simpl.
  - destruct size as [| | | [| | |q] | | |]; apply IH.
  - intros [= <-].
    destruct b; simpl in E; try case_bool_decide; congruence.
Qed.

Lemma append_cards_run (l : list value) (cs : list Card) (st : State) :
  mapO make_card l = Done cs →
  append_cards l st
  = (Done tt,
     with_page
       (with_view
          (with_booksGrid (booksGrid (view (page st)) ++ cs)
             (view (page st)))
          (page st)) st).
Proof.
  revert cs st. induction l as [|b l IH]; intros cs st Hcs.
  - simpl in Hcs. injection Hcs as <-. simpl. unfold ret.
    rewrite app_nil_r. by destruct st as [? ? ? ? ? ? ? ? ? ? ? [? ? ? ? []] ? ?].
  - simpl in Hcs. destruct (make_card b) as [c|] eqn:Hc; [|done].
    simpl in Hcs. destruct (mapO make_card l) as [cs'|] eqn:Hl; [|done].
    simpl in Hcs. injection Hcs as <-.
    simpl. unfold bind at 1. unfold lift. rewrite Hc.
    unfold bind at 1. unfold set_view, set_page, modify.
    rewrite (IH cs' _ eq_refl). simpl.
    rewrite <- app_assoc. reflexivity.
Qed.

Lemma append_cards_stop (l : list value) (st : State) :
  mapO make_card l = Threw TypeError →
  (append_cards l st).1 = Threw TypeError.
Proof.
  revert st. induction l as [|b l IH]; intros st; [done |].
  simpl. unfold bind at 1. unfold lift.
  destruct (make_card b) as [c|e] eqn:Hc; simpl; [|by intros [= ->]].
  destruct (mapO make_card l) as [cs|e] eqn:Hl; simpl; [done |].
  intros [= ->]. unfold bind at 1. unfold set_view, set_page, modify.
  by apply IH.
Qed.

(** [renderBooks] on a list of renderable documents. *)
Lemma renderBooks_run (cell : nat) (l : list value) (st : State) :
  deref st cell = VArr l → Forall renderable l →
  ∃ cs, mapO make_card l = Done cs
        ∧ map card_book cs = l
        ∧ renderBooks cell st
          = (Done tt,
             with_page
               (with_view (rendered_view l cs (view (page st))) (page st))
               st).
Proof.
  intros Hcell Hall.
  destruct (cards_of_renderable l Hall) as (cs & Hcs & Hbooks).
  exists cs. split; [done |]. split; [done |].
  unfold renderBooks.
  unfold bind at 1. unfold set_view at 1, set_page, modify.
  unfold bind at 1. unfold gets.
  replace (deref (with_page _ st) cell) with (VArr l) by by rewrite <- Hcell.
  unfold bind at 1. unfold lift, as_array.
  destruct l as [|b l].
  - simpl in Hcs. injection Hcs as <-. reflexivity.
  - unfold bind at 1. unfold set_view at 1, set_page, modify.
    unfold bind at 1. rewrite (sum_sizes_defined 0 (b :: l) Hall).
    unfold bind at 1. unfold set_view at 1, set_page, modify.
    rewrite (append_cards_run _ cs _ Hcs). reflexivity.
Qed.

Lemma renderBooks_stop (cell : nat) (l : list value) (st : State) :
  deref st cell = VArr l → ¬ Forall renderable l →
  (renderBooks cell st).1 = Threw TypeError.
Proof.
  intros Hcell Hnot.
  unfold renderBooks.
  unfold bind at 1. unfold set_view at 1, set_page, modify.
  unfold bind at 1. unfold gets.
  replace (deref (with_page _ st) cell) with (VArr l) by by rewrite <- Hcell.
  unfold bind at 1. unfold lift, as_array.
  destruct l as [|b l].
  - exfalso. apply Hnot. constructor.
  - unfold bind at 1. unfold set_view at 1, set_page, modify.
    unfold bind at 1.
    destruct (sum_sizes 0 (b :: l)) as [total|e] eqn:Hsum.
    + unfold bind at 1. unfold set_view at 1, set_page, modify.
      apply append_cards_stop. by apply cards_stop.
    + simpl. f_equal. by apply sum_sizes_error in Hsum.
Qed.

End Rendering.

(** ** The pipeline, step by step *)

Section PipelineRun.

Context `{Host}.

Lemma Forall_renderable_or_not (l : list value) :
  Forall renderable l ∨ ¬ Forall renderable l.
Proof.
  induction l as [|b l [IH | IH]].
  - left. constructor.
  - destruct (renderable_or_not b) as [Hb | Hb].
    + left. by constructor.
    + right. intros Hall. by inversion Hall.
  - right. intros Hall. by inversion Hall.
Qed.

(** A filter on the list in a cell, from a state that differs from
    [st] in its cells only. *)
Lemma wp_filter_into_new (f : value → outcome bool) (cell : nat)
    (lk : list value) (s : list value) (st : State) Q E :
  s !! cell = Some (VArr lk) →
  (∀ kept, filterO f lk = Done kept →
           Q (length s) (with_store (s ++ [VArr kept]) st)) →
  (∀ e, filterO f lk = Threw e → E (with_store s st)) →
  wp (filter_into_new f cell) Q E (with_store s st).
Proof.
  intros Hcell HQ HE. unfold filter_into_new.
  apply wp_bind, wp_gets. unfold deref. simpl. rewrite Hcell. simpl.
  apply wp_bind, wp_lift; [|done]. intros ? [= <-].
  apply wp_bind, wp_lift; [|exact HE]. intros kept Hkept.
  apply wp_alloc. by apply HQ.
Qed.

(** The sort and the rendering of the list in a cell. *)
Lemma wp_sort_and_render (cell : nat) (l3 : list value) (s : list value)
    (st : State) :
  s !! cell = Some (VArr l3) →
  let o := Array_sort (compare_books (sortSelect (controls (page st)))) l3 in
  wp (run sort ← gets (λ st, sortSelect (controls (page st)));
      run arr ← gets (λ st, deref st cell);
      run l ← lift (as_array arr);
      run sorted ← lift (Array_sort (compare_books sort) l);
      exec write cell (VArr sorted);
      exec modify (with_filteredBooks cell);
      renderBooks cell)
     (λ _, pipeline_done st o) (λ _, pipeline_failed o) (with_store s st).
Proof.
  intros Hcell o.
  apply wp_bind, wp_gets. apply wp_bind, wp_gets.
  unfold deref. simpl. rewrite Hcell. simpl.
  apply wp_bind, wp_lift; [|done]. intros ? [= <-].
  apply wp_bind, wp_lift; [|by left; eexists]. intros sorted Hsorted.
  fold o in Hsorted.
  apply wp_bind. unfold write. apply wp_modify.
  apply wp_bind, wp_modify. simpl.
  set (s' := <[cell := VArr sorted]> s).
  set (stf := with_filteredBooks cell _).
  assert (deref stf cell = VArr sorted) as Hshown.
  { unfold deref, stf, s'. simpl. rewrite list_lookup_insert_eq; [done |].
    apply lookup_lt_is_Some. by rewrite Hcell. }
  destruct (Forall_renderable_or_not sorted) as [Hall | Hnot].
  - destruct (renderBooks_run cell sorted stf Hshown Hall)
      as (cs & Hcs & Hbooks & Hrun).
    unfold wp. rewrite Hrun.
    exists sorted, cs, s', cell. repeat split; try done.
    unfold s'. rewrite list_lookup_insert_eq; [done |].
    apply lookup_lt_is_Some. by rewrite Hcell.
  - pose proof (renderBooks_stop cell sorted stf Hshown Hnot) as Hstop.
    unfold wp. destruct (renderBooks cell stf) as [[[]|e] st']; [done |].
    right. by exists sorted.
Qed.

(** [applyFiltersAndRender] computes [filtered_and_sorted] and renders
    it. *)
Lemma applyFiltersAndRender_wp (st : State) (l : list value) :
  catalog st = VArr l →
  wp applyFiltersAndRender
     (λ _, pipeline_done st (filtered_and_sorted st l))
     (λ _, pipeline_failed (filtered_and_sorted st l)) st.
Proof.
  intros Hcat. unfold applyFiltersAndRender, filtered_and_sorted.
  do 4 apply wp_bind, wp_gets. rewrite Hcat.
  apply wp_bind, wp_lift; [|done]. intros ? [= <-].
  apply wp_bind, wp_alloc.
  set (query := Str.trim _). set (fieldVal := fieldFilter _).
  set (sort := sortSelect _).
  assert ((store st ++ [VArr l]) !! length (store st) = Some (VArr l))
    as Hcell0 by apply list_lookup_middle, eq_refl.
  generalize dependent (store st ++ [VArr l]).
  generalize (length (store st)). intros cell0 s0 Hcell0.
  (* the search *)
  apply wp_bind.
  assert (∀ (o1 : outcome (list value)) Q E,
            (∀ l1 s1 cell1, o1 = Done l1 → s1 !! cell1 = Some (VArr l1) →
                            Q cell1 (with_store s1 st)) →
            (∀ e s1, o1 = Threw e → E (with_store s1 st)) →
            o1 = (if bool_decide (query = "") then Done l
                  else match fuse st with
                       | Some fz => Fuse_search fz query
                       | None => filterO (matches_query (toLowerCase query)) l
                       end) →
            wp (if bool_decide (query = "") then ret cell0
                else run index ← gets fuse;
                     match index with
                     | Some fz =>
                         run items ← lift (Fuse_search fz query);
                         alloc (VArr items)
                     | None =>
                         filter_into_new (matches_query (toLowerCase query))
                           cell0
                     end) Q E (with_store s0 st)) as Hsearch.
  { intros o1 Q E HQ HE ->. case_bool_decide.
    - apply wp_ret. by eapply HQ.
    - apply wp_bind, wp_gets. simpl. destruct (fuse st) as [fz|].
      + apply wp_bind, wp_lift; [|intros e He; by eapply HE].
        intros items Hitems. apply wp_alloc. simpl.
        eapply HQ; [exact Hitems |]. by apply list_lookup_middle.
      + apply (wp_filter_into_new _ cell0 l); [done | |].
        * intros kept Hkept. eapply HQ; [exact Hkept |].
          by apply list_lookup_middle.
        * intros e He. by eapply HE. }
  eapply Hsearch; [| |reflexivity]; clear Hsearch.
  2:{ intros e s1 ->. left. by eexists. }
  intros l1 s1 cell1 -> Hcell1. cbn [obind].
  (* the field filter *)
  apply wp_bind.
  assert (∀ (o2 : outcome (list value)) Q E,
            (∀ l2 s2 cell2, o2 = Done l2 → s2 !! cell2 = Some (VArr l2) →
                            Q cell2 (with_store s2 st)) →
            (∀ e s2, o2 = Threw e → E (with_store s2 st)) →
            o2 = (if bool_decide (fieldVal = "") then Done l1
                  else filterO (has_field fieldVal) l1) →
            wp (if bool_decide (fieldVal = "") then ret cell1
                else filter_into_new (has_field fieldVal) cell1)
               Q E (with_store s1 st)) as Hfield.
  { intros o2 Q E HQ HE ->. case_bool_decide.
    - apply wp_ret. by eapply HQ.
    - apply (wp_filter_into_new _ cell1 l1); [done | |].
      + intros kept Hkept. eapply HQ; [exact Hkept |].
        by apply list_lookup_middle.
      + intros e He. by eapply HE. }
  eapply Hfield; [| |reflexivity]; clear Hfield.
  2:{ intros e s2 ->. left. by eexists. }
  intros l2 s2 cell2 -> Hcell2. cbn [obind].
  (* the tag filters *)
  apply wp_bind.
  assert (∀ (o3 : outcome (list value)) Q E,
            (∀ l3 s3 cell3, o3 = Done l3 → s3 !! cell3 = Some (VArr l3) →
                            Q cell3 (with_store s3 st)) →
            (∀ e s3, o3 = Threw e → E (with_store s3 st)) →
            o3 = (match Set_of (activeTags st) with
                  | [] => Done l2
                  | _ => filterO (has_tags (Set_of (activeTags st))) l2
                  end) →
            wp (match Set_of (activeTags st) with
                | [] => ret cell2
                | _ => filter_into_new (has_tags (Set_of (activeTags st)))
                         cell2
                end) Q E (with_store s2 st)) as Htags.
  { intros o3 Q E HQ HE ->. destruct (Set_of (activeTags st)) as [|t ts].
    - apply wp_ret. by eapply HQ.
    - apply (wp_filter_into_new _ cell2 l2); [done | |].
      + intros kept Hkept. eapply HQ; [exact Hkept |].
        by apply list_lookup_middle.
      + intros e He. by eapply HE. }
  eapply Htags; [| |reflexivity]; clear Htags.
  2:{ intros e s3 ->. left. by eexists. }
  intros l3 s3 cell3 -> Hcell3. cbn [obind].
  by apply wp_sort_and_render.
Qed.

End PipelineRun.

(** ** Sorting *)

Section Sorting.

Context (cmp : value → value → outcome num).

Lemma insert_sorted_perm (x : value) (l r : list value) :
  insert_sorted cmp x l = Done r → r ≡ₚ x :: l.
Proof.
  revert r. induction l as [|y l IH]; intros r; simpl.
  - by intros [= <-].
  - destruct (cmp x y) as [c|]; simpl; [|done].
    destruct (positive_result c); [|by intros [= <-]].
    destruct (insert_sorted cmp x l) as [r'|]; simpl; [|done].
    intros [= <-]. rewrite (IH r' eq_refl). apply perm_swap.
Qed.

Lemma sort_defined_perm (l r : list value) :
  sort_defined cmp l = Done r → r ≡ₚ l.
Proof.
  revert r. induction l as [|x l IH]; intros r; simpl.
  - by intros [= <-].
  - destruct (sort_defined cmp l) as [s|]; simpl; [|done].
    intros Hr. apply insert_sorted_perm in Hr. by rewrite Hr, (IH s).
Qed.

Lemma undefined_last (l : list value) :
  filter (λ v, is_undef v = false) l ++ filter (λ v, is_undef v = true) l
  ≡ₚ l.
Proof.
  induction l as [|x l IH]; [done |].
  rewrite !filter_cons. destruct (is_undef x) eqn:E.
  - rewrite decide_False, decide_True by done.
    by rewrite <- Permutation_middle, IH.
  - rewrite decide_True, decide_False by done. simpl. by rewrite IH.
Qed.

(** The sort keeps the elements of the list. *)
Lemma Array_sort_perm (l r : list value) :
  Array_sort cmp l = Done r → r ≡ₚ l.
Proof.
  unfold Array_sort.
  destruct (sort_defined cmp _) as [s|] eqn:Hs; simpl; [|done].
  intros [= <-]. apply sort_defined_perm in Hs. rewrite Hs.
  apply undefined_last.
Qed.




(** *** A comparator that subtracts keys *)

Context (key : value → Qc).

Lemma positive_difference (p q : Qc) :
  positive_result (Fin (p - q)) = bool_decide (q < p)%Qc.
Proof.
  simpl. unfold Num.sign_pos. apply bool_decide_ext.
  symmetry. apply Qclt_minus_iff.
Qed.

Lemma insert_sorted_ascending (x : value) (l : list value) :
  (∀ y, y ∈ l → cmp x y = Done (Fin (key x - key y))) →
  StronglySorted (λ a b, (key a ≤ key b)%Qc) l →
  ∃ r, insert_sorted cmp x l = Done r ∧ StronglySorted (λ a b, (key a ≤ key b)%Qc) r.
Proof.
  induction l as [|y l IH]; intros Hcmp Hs; simpl.
  - eexists. split; [done |]. by repeat constructor.
  - rewrite (Hcmp y) by by left. simpl.
    change (Num.sign_pos (key x - key y))
      with (positive_result (Fin (key x - key y))).
    rewrite positive_difference.
    apply StronglySorted_inv in Hs as [Hs Hy].
    case_bool_decide as Hlt.
    + destruct IH as (r & Hr & Hsr); [intros z Hz; apply Hcmp; by right
                                     | done |].
      rewrite Hr. simpl. eexists. split; [done |].
      constructor; [done |].
      apply insert_sorted_perm in Hr. rewrite Hr.
      constructor; [by apply Qclt_le_weak | done].
    + apply Qcnot_lt_le in Hlt. eexists. split; [done |].
      constructor; [by constructor |].
      constructor; [done |].
      eapply Forall_impl; [exact Hy |]. intros z Hz.
      simpl in *. by eapply Qcle_trans.
Qed.

Lemma sort_defined_ascending (l : list value) :
  (∀ a b, a ∈ l → b ∈ l → cmp a b = Done (Fin (key a - key b))) →
  ∃ r, sort_defined cmp l = Done r ∧ StronglySorted (λ a b, (key a ≤ key b)%Qc) r.
Proof.
  induction l as [|x l IH]; intros Hcmp; simpl.
  - eexists. split; [done | constructor].
  - destruct IH as (s & Hs & Hsorted).
    { intros a b Ha Hb. apply Hcmp; by right. }
    rewrite Hs. simpl. apply insert_sorted_ascending; [|done].
    intros y Hy. apply Hcmp; [by left |]. right.
    by rewrite <- (sort_defined_perm l s Hs).
Qed.

End Sorting.

Section SortByNumber.

Context `{Host}.

Lemma compare_books_number (sort k : string) (a b : value) :
  (sort = "size" ∧ k = "sizeBytes") ∨ (sort = "date" ∧ k = "addedAt") →
  has_sort_key k a → has_sort_key k b →
  compare_books sort a b = Done (Fin (sort_key k a - sort_key k b)).
Proof.
  intros Hsort (Hau & Han & qa & Ha) (Hbu & Hbn & qb & Hb).
  unfold sort_key. rewrite Ha, Hb.
  destruct Hsort as [[-> ->] | [-> ->]]; unfold compare_books; simpl;
    rewrite !get_prop by done; simpl; by rewrite Ha, Hb.
Qed.

Lemma defined_first (l : list value) :
  Forall (λ b, b ≠ VUndef) l →
  filter (λ v, is_undef v = false) l = l
  ∧ filter (λ v, is_undef v = true) l = [].
Proof.
  induction 1 as [|b l Hb _ [IH1 IH2]]; [done |].
  rewrite !filter_cons.
  assert (is_undef b = false) as E by by destruct b.
  rewrite decide_True, decide_False by (by rewrite E).
  by rewrite IH1, IH2.
Qed.

End SortByNumber.

(** X18.  The sorts on size and on date return on every list of
    documents whose value under the key is a number once falsy values
    count as 0, keep the documents of the list and put them in
    ascending order of that number: a document whose size is unknown
    ([NaN], [null] or missing) is ordered as one of size 0. *)
Theorem number_sorts_ascend `{Host} (sort k : string) (l : list value) :
  (sort = "size" ∧ k = "sizeBytes") ∨ (sort = "date" ∧ k = "addedAt") →
  Forall (has_sort_key k) l →
  (∃ sorted,
     Array_sort (compare_books sort) l = Done sorted
     ∧ sorted ≡ₚ l
     ∧ StronglySorted (λ a b, (sort_key k a ≤ sort_key k b)%Qc) sorted)
  ∧ ∀ b, prop b k = VNum NaN ∨ prop b k = VNull ∨ prop b k = VUndef →
         sort_key k b = 0%Qc.
Proof.
  intros Hsort Hall. split.
  - assert (Forall (λ b, b ≠ VUndef) l) as Hdef.
    { eapply Forall_impl; [exact Hall |]. by intros b (? & _). }
    destruct (defined_first l Hdef) as [Hfirst Hlast].
    destruct (sort_defined_ascending (compare_books sort) (sort_key k) l)
      as (sorted & Hsorted & Hasc).
    { intros a b Ha Hb. rewrite Forall_forall in Hall.
      apply compare_books_number; [done | |]; by apply Hall. }
    exists sorted. unfold Array_sort.
    rewrite Hfirst, Hlast, Hsorted. simpl. rewrite app_nil_r.
    split; [done |]. split; [|done].
    by apply (sort_defined_perm (compare_books sort)).
  - intros b [E | [E | E]]; unfold sort_key; rewrite E; simpl;
      by apply Qc_is_canon.
Qed.

Lemma number_sorts_ascend_witness :
  ∃ sorted,
    Array_sort (compare_books (H := Sample.host) "size") Sample.loaded_books
    = Done sorted
    ∧ sorted ≡ₚ Sample.loaded_books
    ∧ StronglySorted
        (λ a b, (sort_key (H := Sample.host) "sizeBytes" a
                 ≤ sort_key (H := Sample.host) "sizeBytes" b)%Qc) sorted.
Proof.
  destruct (number_sorts_ascend (H := Sample.host) "size" "sizeBytes"
              Sample.loaded_books) as [Hsorted _].
  - by left.
  - repeat constructor; try discriminate; by eexists.
  - exact Hsorted.
Defined.

(** ** What the pipeline shows *)

Section Filters.

Context {A : Type} (f : A → outcome bool).

Lemma passes_true (o : outcome bool) : passes o = true ↔ o = Done true.
Proof.
  destruct o as [[]|]; simpl; split; try done.
Qed.

Lemma filterO_done (l kept : list A) :
  filterO f l = Done kept → kept = List.filter (λ b, passes (f b)) l.
Proof.
  revert kept. induction l as [|b l IH]; intros kept; simpl.
  - by intros [= <-].
  - destruct (f b) as [keep|]; simpl; [|done].
    destruct (filterO f l) as [ys|]; simpl; [|done].
    intros [= <-]. rewrite (IH ys eq_refl). by destruct keep.
Qed.


Lemma Forall_List_filter (P : A → Prop) (g : A → bool) (l : list A) :
  Forall P l → Forall P (List.filter g l).
Proof.
  induction 1 as [|b l Hb _ IH]; simpl; [constructor |].
  destruct (g b); [by constructor | done].
Qed.

Lemma Forall_List_filter_passes (g : A → bool) (l : list A) :
  Forall (λ b, g b = true) (List.filter g l).
Proof.
  induction l as [|b l IH]; simpl; [constructor |].
  destruct (g b) eqn:E; [by constructor | done].
Qed.

Lemma List_filter_filter (g h : A → bool) (l : list A) :
  List.filter h (List.filter g l) = List.filter (λ b, g b && h b) l.
Proof.
  induction l as [|b l IH]; simpl; [done |].
  destruct (g b); simpl; [|done]. destruct (h b); by rewrite IH.
Qed.

Lemma List_filter_all (g : A → bool) (l : list A) :
  (∀ b, g b = true) → List.filter g l = l.
Proof.
  intros Hg. induction l as [|b l IH]; simpl; [done |].
  by rewrite Hg, IH.
Qed.

End Filters.

Section Shown.

Context `{Host}.

(** The stages behind a list that the pipeline has computed. *)
Lemma filtered_and_sorted_stages (st : State) (l shown_l : list value) :
  filtered_and_sorted st l = Done shown_l →
  let query := Str.trim (searchInput (controls (page st))) in
  let fieldVal := fieldFilter (controls (page st)) in
  let active := Set_of (activeTags st) in
  ∃ l1 l2 l3,
    (if bool_decide (query = "") then Done l
     else match fuse st with
          | Some fz => Fuse_search fz query
          | None => filterO (matches_query (toLowerCase query)) l
          end) = Done l1
    ∧ (if bool_decide (fieldVal = "") then Done l1
       else filterO (has_field fieldVal) l1) = Done l2
    ∧ (match active with
       | [] => Done l2
       | _ => filterO (has_tags active) l2
       end) = Done l3
    ∧ Array_sort (compare_books (sortSelect (controls (page st)))) l3
      = Done shown_l.
Proof.
  intros Ho query fieldVal active. unfold filtered_and_sorted in Ho.
  fold query fieldVal active in Ho.
  destruct (if bool_decide (query = "") then _ else _) as [l1|] eqn:H1;
    [|done].
  simpl in Ho.
  destruct (if bool_decide (fieldVal = "") then _ else _) as [l2|] eqn:H2;
    [|done].
  simpl in Ho.
  destruct (match active with [] => _ | _ => _ end) as [l3|] eqn:H3; [|done].
  simpl in Ho. by exists l1, l2, l3.
Qed.

(** Every document of the list has passed the field filter and the tag
    filters that were set. *)
Lemma filtered_and_sorted_sound (st : State) (l shown_l : list value) :
  filtered_and_sorted st l = Done shown_l →
  let fieldVal := fieldFilter (controls (page st)) in
  let active := Set_of (activeTags st) in
  Forall (λ b, (fieldVal ≠ "" → has_field fieldVal b = Done true)
               ∧ (active ≠ [] → has_tags active b = Done true)) shown_l.
Proof.
  intros Ho fieldVal active.
  destruct (filtered_and_sorted_stages st l shown_l Ho)
    as (l1 & l2 & l3 & _ & H2 & H3 & Hsort).
  fold fieldVal active in H2, H3.
  apply Array_sort_perm in Hsort. rewrite Hsort.
  assert (Forall (λ b, fieldVal ≠ "" → has_field fieldVal b = Done true) l2)
    as Hfield.
  { destruct (decide (fieldVal = "")) as [E | E].
    - apply Forall_forall. by intros b _ ?.
    - rewrite bool_decide_eq_false_2 in H2 by done.
      apply filterO_done in H2 as ->.
      eapply Forall_impl; [apply Forall_List_filter_passes |].
      intros b Hb _. by apply passes_true. }
  apply Forall_and. split.
  - destruct active as [|t ts]; [by injection H3 as <- |].
    apply filterO_done in H3 as ->. by apply Forall_List_filter.
  - destruct active as [|t ts] eqn:Ea.
    + apply Forall_forall. by intros b _ ?.
    + apply filterO_done in H3 as ->.
      eapply Forall_impl; [apply Forall_List_filter_passes |].
      intros b Hb _. by apply passes_true.
Qed.

(** Without an index, the list holds the documents of the catalog that
    pass every test that is set. *)
Lemma filtered_and_sorted_complete (st : State) (l shown_l : list value) :
  Str.trim (searchInput (controls (page st))) = "" ∨ fuse st = None →
  filtered_and_sorted st l = Done shown_l →
  shown_l ≡ₚ List.filter (shown_by st) l.
Proof.
  intros Hplain Ho.
  destruct (filtered_and_sorted_stages st l shown_l Ho)
    as (l1 & l2 & l3 & H1 & H2 & H3 & Hsort).
  apply Array_sort_perm in Hsort. rewrite Hsort.
  unfold shown_by.
  set (query := Str.trim _) in *. set (fieldVal := fieldFilter _) in *.
  set (active := Set_of _) in *.
  assert (l1 = List.filter
                 (λ b, bool_decide (query = "")
                       || passes (matches_query (toLowerCase query) b)) l)
    as ->.
  { destruct (decide (query = "")) as [E | E].
    - rewrite bool_decide_eq_true_2 in H1 by done. injection H1 as <-.
      rewrite List_filter_all; [done |].
      intros b. by rewrite bool_decide_eq_true_2.
    - rewrite bool_decide_eq_false_2 in H1 by done.
      destruct Hplain as [? | Hfuse]; [done |]. rewrite Hfuse in H1.
      apply filterO_done in H1 as ->. apply filter_ext.
      intros b. by rewrite bool_decide_eq_false_2. }
  assert (l2 = List.filter
                 (λ b, bool_decide (fieldVal = "")
                       || passes (has_field fieldVal b))
                 (List.filter
                    (λ b, bool_decide (query = "")
                          || passes (matches_query (toLowerCase query) b)) l))
    as ->.
  { destruct (decide (fieldVal = "")) as [E | E].
    - rewrite bool_decide_eq_true_2 in H2 by done. injection H2 as <-.
      rewrite (List_filter_all (λ b, bool_decide (fieldVal = "") || _));
        [done |].
      intros b. by rewrite bool_decide_eq_true_2.
    - rewrite bool_decide_eq_false_2 in H2 by done.
      apply filterO_done in H2 as ->. apply filter_ext.
      intros b. by rewrite bool_decide_eq_false_2. }
  assert (l3 = List.filter
                 (λ b, match active with
                       | [] => true
                       | _ => passes (has_tags active b)
                       end)
                 (List.filter
                    (λ b, bool_decide (fieldVal = "")
                          || passes (has_field fieldVal b))
                    (List.filter
                       (λ b, bool_decide (query = "")
                             || passes (matches_query (toLowerCase query) b))
                       l)))
    as ->.
  { destruct active as [|t ts].
    - injection H3 as <-. by rewrite (List_filter_all (λ _, true)).
    - by apply filterO_done in H3. }
  rewrite !List_filter_filter.
  match goal with |- ?X ≡ₚ ?Y => replace X with Y; [reflexivity |] end.
  apply filter_ext. intros b. cbv beta. by rewrite andb_assoc.
Qed.

(** What the state holds once the pipeline has returned. *)
Lemma pipeline_done_state (st st' : State) (o : outcome (list value)) :
  pipeline_done st o st' →
  ∃ shown_l,
    o = Done shown_l
    ∧ shown st' = VArr shown_l
    ∧ map card_book (booksGrid (view (page st'))) = shown_l
    ∧ resultsCount (view (page st')) = length shown_l
    ∧ emptyState (view (page st')) = bool_decide (shown_l = [])
    ∧ controls (page st') = controls (page st)
    ∧ activeTags st' = activeTags st.
Proof.
  intros (shown_l & cs & s & cell & Ho & _ & _ & Hcards & Hcell & ->).
  exists shown_l. unfold shown, deref. simpl. rewrite Hcell.
  by repeat split.
Qed.

(** The two ways the pipeline can end. *)
Lemma pipeline_outcome (st : State) (l : list value) :
  catalog st = VArr l →
  let r := applyFiltersAndRender st in
  (r.1 = Done tt ∧ pipeline_done st (filtered_and_sorted st l) r.2)
  ∨ ((∃ e, r.1 = Threw e) ∧ pipeline_failed (filtered_and_sorted st l)).
Proof.
  intros Hcat r. subst r.
  pose proof (applyFiltersAndRender_wp st l Hcat) as Hwp. unfold wp in Hwp.
  destruct (applyFiltersAndRender st) as [[[]|e] st']; [by left |].
  right. split; [by eexists | done].
Qed.

(** Passing the field filter and the tag filters, in terms of the
    document. *)
Lemma has_field_true (fieldVal : string) (b : value) :
  has_field fieldVal b = Done true → prop b "field" = VStr fieldVal.
Proof.
  unfold has_field, prop. destruct (get b "field") as [v|]; simpl; [|done].
  intros [= E]. by apply strict_eq_eq.
Qed.

Lemma has_tags_true (active : list value) (b : value) :
  has_tags active b = Done true →
  ∀ t, t ∈ active → ∃ x, x ∈ tag_values b ∧ t = VStr (to_string x).
Proof.
  unfold has_tags, tag_values, prop.
  destruct (get b "tags") as [tags|]; simpl; [|done].
  destruct (or_else tags (VArr [])) as [| | | | | xs |]; simpl; try done.
  intros [= E] t Ht. apply Set_has_strings.
  rewrite forallb_forall in E. apply E. by apply list_elem_of_In.
Qed.

End Shown.

(** X19.  Whenever [applyFiltersAndRender] returns, with or without
    an index, the grid holds one card per document of the filtered
    list, in its order, and every document shown has the selected
    field, when one is selected, and carries every active tag as the
    string of one of its tags. *)
Theorem shown_documents_pass_filters `{Host} (st : State) (l : list value) :
  catalog st = VArr l →
  let r := applyFiltersAndRender st in
  r.1 = Done tt →
  ∃ shown_l,
    shown r.2 = VArr shown_l
    ∧ map card_book (booksGrid (view (page r.2))) = shown_l
    ∧ resultsCount (view (page r.2)) = length shown_l
    ∧ Forall
        (λ b,
           (fieldFilter (controls (page st)) ≠ ""
            → prop b "field" = VStr (fieldFilter (controls (page st))))
           ∧ ∀ t, t ∈ activeTags st
                  → ∃ x, x ∈ tag_values b ∧ t = VStr (to_string x))
        shown_l.
Proof.
  intros Hcat r Hdone.
  destruct (pipeline_outcome st l Hcat) as [[_ Hp] | [[e He] _]];
    [|fold r in He; congruence].
  fold r in Hp.
  destruct (pipeline_done_state _ _ _ Hp)
    as (shown_l & Ho & Hshown & Hgrid & Hcount & _).
  exists shown_l. repeat split; try done.
  eapply Forall_impl; [apply (filtered_and_sorted_sound st l), Ho |].
  intros b [Hfield Htags]. split.
  - intros Hsel. by apply has_field_true, Hfield.
  - intros t Ht.
    assert (Set_of (activeTags st) ≠ []) as Hactive.
    { intros E. apply elem_of_Set_of in Ht. rewrite E in Ht.
      by apply elem_of_nil in Ht. }
    apply (has_tags_true _ _ (Htags Hactive)). by apply elem_of_Set_of.
Qed.

Lemma shown_documents_pass_filters_witness :
  let st := with_inputs "" "" "title" [VStr "analysis"] Sample.st_loaded in
  let r := applyFiltersAndRender st in
  ∃ shown_l,
    shown r.2 = VArr shown_l
    ∧ map card_book (booksGrid (view (page r.2))) = shown_l
    ∧ resultsCount (view (page r.2)) = length shown_l
    ∧ Forall
        (λ b,
           (fieldFilter (controls (page st)) ≠ ""
            → prop b "field" = VStr (fieldFilter (controls (page st))))
           ∧ ∀ t, t ∈ activeTags st
                  → ∃ x, x ∈ tag_values b
                         ∧ t = VStr (to_string (H := Sample.host) x))
        shown_l.
Proof.
  intros st r.
  apply (shown_documents_pass_filters (H := Sample.host) st
           Sample.loaded_books).
  - by vm_compute.
  - by vm_compute.
Defined.

(** ** The plain search *)

Section PlainSearch.

Context `{Host}.

Lemma someO_strings (q : string) (ts : list string) :
  someO (lower_includes q) (map VStr ts)
  = Done (existsb (λ t, Str.includes (toLowerCase t) q) ts).
Proof.
  induction ts as [|t ts IH]; [done |]. simpl.
  destruct (Str.includes (toLowerCase t) q); [done | exact IH].
Qed.

Lemma or_else_string (s : string) : or_else (VStr s) (VStr "") = VStr s.
Proof. apply or_else_empty_text, kept_text_string. Qed.

(** The plain search on a document with strings for its texts and its
    tags. *)
Lemma matches_query_tidy (q : string) (b : value)
    (title author field : string) (ts : list string) :
  (∃ ps, b = VObj ps) →
  prop b "title" = VStr title → prop b "author" = VStr author →
  prop b "field" = VStr field → prop b "tags" = VArr (map VStr ts) →
  matches_query q b
  = Done (Str.includes (toLowerCase title) q
          || Str.includes (toLowerCase author) q
          || Str.includes (toLowerCase field) q
          || existsb (λ t, Str.includes (toLowerCase t) q) ts).
Proof.
  intros [ps ->] Ht Ha Hf Htags. unfold matches_query, lower_includes.
  rewrite get_obj. cbn [obind]. rewrite Ht, or_else_string.
  cbn [obind as_string].
  destruct (Str.includes (toLowerCase title) q); [done |].
  rewrite get_obj. cbn [obind]. rewrite Ha, or_else_string.
  cbn [obind as_string].
  destruct (Str.includes (toLowerCase author) q); [done |].
  rewrite get_obj. cbn [obind]. rewrite Hf, or_else_string.
  cbn [obind as_string].
  destruct (Str.includes (toLowerCase field) q); [done |].
  rewrite get_obj. cbn [obind]. rewrite Htags.
  cbn [obind as_array or_else truthy].
  apply someO_strings.
Qed.

End PlainSearch.

(** X20.  On a document with strings for title, author and field and
    an array of strings for its tags, the plain search (the one used
    without an index) returns, and it matches exactly when the query
    occurs in the lower-cased title, author, field or one of the
    lower-cased tags; the description and the file name play no part
    in it. *)
Theorem plain_search_semantics `{Host} (q : string) (b : value)
    (title author field : string) (ts : list string) :
  (∃ ps, b = VObj ps) →
  prop b "title" = VStr title → prop b "author" = VStr author →
  prop b "field" = VStr field → prop b "tags" = VArr (map VStr ts) →
  ∃ r, matches_query q b = Done r
       ∧ (r = true
          ↔ Str.includes (toLowerCase title) q = true
            ∨ Str.includes (toLowerCase author) q = true
            ∨ Str.includes (toLowerCase field) q = true
            ∨ ∃ t, t ∈ ts ∧ Str.includes (toLowerCase t) q = true).
Proof.
  intros Hobj Ht Ha Hf Htags. eexists. split.
  - by apply matches_query_tidy.
  - rewrite !orb_true_iff, existsb_exists. split.
    + intros [[[? | ?] | ?] | (t & Hin & Ht')]; auto.
      right. right. right. exists t. split; [|done].
      by apply list_elem_of_In.
    + intros [? | [? | [? | (t & Hin & Ht')]]]; auto.
      right. exists t. split; [|done]. by apply list_elem_of_In.
Qed.

Lemma plain_search_semantics_witness :
  ∃ r, matches_query (H := Sample.host) "rud" (VObj Sample.first_props)
       = Done r
       ∧ (r = true
          ↔ Str.includes (toLowerCase (Host := Sample.host) "Rudin") "rud"
            = true
            ∨ Str.includes (toLowerCase (Host := Sample.host) "") "rud" = true
            ∨ Str.includes (toLowerCase (Host := Sample.host) "") "rud" = true
            ∨ ∃ t, t ∈ ["analysis"]
                   ∧ Str.includes (toLowerCase (Host := Sample.host) t) "rud"
                     = true).
Proof.
  apply (plain_search_semantics (H := Sample.host) "rud"
           (VObj Sample.first_props) "Rudin" "" "" ["analysis"]);
    try (by vm_compute).
  by eexists.
Defined.

(** ** The pipeline on a tidy catalog *)

Section Tidy.

Context `{Host}.









End Tidy.



(** ** The reset button and the tag buttons *)

Section Buttons.

Context `{Host}.


Lemma shown_by_no_filter (st : State) (b : value) :
  Str.trim (searchInput (controls (page st))) = "" →
  fieldFilter (controls (page st)) = "" →
  activeTags st = [] →
  shown_by st b = true.
Proof.
  intros Hq Hf Ha. unfold shown_by. rewrite Hq, Hf, Ha. done.
Qed.

Lemma Set_has_elem (active : list value) (s : string) :
  Set_has active (VStr s) = true ↔ VStr s ∈ active.
Proof.
  unfold Set_has. rewrite existsb_exists. split.
  - intros (y & Hy & E). apply same_value_zero_eq in E. subst y.
    by apply list_elem_of_In.
  - intros Hin. exists (VStr s). split; [by apply list_elem_of_In |].
    simpl. by apply bool_decide_eq_true_2.
Qed.

Lemma Set_delete_absent (active : list value) (x : value) :
  Set_has active x = false → Set_delete active x = active.
Proof.
  unfold Set_has, Set_delete. induction active as [|y active IH]; [done |].
  simpl. intros E. apply orb_false_elim in E as [Hy Hrest].
  rewrite filter_cons, decide_True by done. by rewrite IH.
Qed.

(** What a click on the button of a tag leaves as active tags. *)
Lemma tagClick_activeTags (tag : value) (st : State) :
  activeTags (tagClick tag st).2
  = if Set_has (activeTags st) tag then Set_delete (activeTags st) tag
    else Set_add (activeTags st) tag.
Proof.
  unfold tagClick. unfold bind at 1. unfold gets.
  destruct (Set_has (activeTags st) tag); unfold bind, modify;
    apply (preserves_applyFiltersAndRender activeTags activeTags_independent).
Qed.

End Buttons.



(** X23.  A click on the button of a tag that is not active makes it
    the last active tag, and when the pipeline then returns every
    document shown carries the tag as the string of one of its tags;
    a second click on the button leaves the active tags as they were
    before the first. *)
Theorem tag_click_toggles `{Host} (st : State) (s : string) (l : list value) :
  catalog st = VArr l →
  Set_has (activeTags st) (VStr s) = false →
  let r := tagClick (VStr s) st in
  activeTags r.2 = activeTags st ++ [VStr s]
  ∧ (r.1 = Done tt →
     ∃ shown_l,
       shown r.2 = VArr shown_l
       ∧ Forall (λ b, ∃ x, x ∈ tag_values b ∧ to_string x = s) shown_l)
  ∧ activeTags (tagClick (VStr s) r.2).2 = activeTags st.
Proof.
  intros Hcat Hoff r.
  assert (activeTags r.2 = activeTags st ++ [VStr s]) as Hact.
  { subst r. rewrite tagClick_activeTags, Hoff. unfold Set_add.
    by rewrite Hoff. }
  split; [done |]. split.
  - intros Hdone. subst r. unfold tagClick in *.
    unfold bind at 1 in Hdone. unfold bind at 1. unfold gets in *.
    rewrite Hoff in *. unfold bind, modify in *.
    set (st1 := with_activeTags _ st) in *.
    destruct (pipeline_outcome st1 l Hcat) as [[_ Hp] | [[e He] _]];
      [|congruence].
    destruct (pipeline_done_state _ _ _ Hp) as (shown_l & Ho & Hshown & _).
    exists shown_l. split; [done |].
    eapply Forall_impl; [apply (filtered_and_sorted_sound st1 l), Ho |].
    intros b [_ Htags].
    assert (VStr s ∈ Set_of (activeTags st1)) as Hin.
    { apply elem_of_Set_of. unfold st1, Set_add. simpl. rewrite Hoff.
      apply elem_of_app. right. by apply list_elem_of_singleton. }
    assert (Set_of (activeTags st1) ≠ []) as Hne.
    { intros E. rewrite E in Hin. by apply elem_of_nil in Hin. }
    destruct (has_tags_true _ _ (Htags Hne) _ Hin) as (x & Hx & E).
    exists x. split; [done |]. by injection E.
  - rewrite tagClick_activeTags, Hact.
    assert (Set_has (activeTags st ++ [VStr s]) (VStr s) = true) as ->.
    { apply Set_has_elem, elem_of_app. right.
      by apply list_elem_of_singleton. }
    unfold Set_delete. rewrite filter_app.
    fold (Set_delete (activeTags st) (VStr s)).
    rewrite Set_delete_absent by done.
    rewrite filter_cons, decide_False; [by rewrite app_nil_r |].
    simpl. by rewrite bool_decide_eq_true_2.
Qed.

Lemma tag_click_toggles_witness :
  let st := Sample.st_loaded in
  let r := tagClick (VStr "analysis") st in
  activeTags r.2 = activeTags st ++ [VStr "analysis"]
  ∧ (r.1 = Done tt →
     ∃ shown_l,
       shown r.2 = VArr shown_l
       ∧ Forall (λ b, ∃ x, x ∈ tag_values b
                           ∧ to_string (H := Sample.host) x = "analysis")
           shown_l)
  ∧ activeTags (tagClick (VStr "analysis") r.2).2 = activeTags st.
Proof.
  apply (tag_click_toggles (H := Sample.host) Sample.st_loaded "analysis"
           Sample.loaded_books).
  - by vm_compute.
  - by vm_compute.
Defined.

(** ** A document that cannot be rendered *)

Section Unrenderable.

Context `{Host}.

Lemma initFuse_cases (st : State) :
  (∃ x, initFuse st = (Done tt, with_fuse x st))
  ∨ (∃ e, initFuse st = (Threw e, st)).
Proof.
  unfold initFuse, bind, gets, lift, modify, ret.
  destruct (fuzzySearch (config st)); simpl; [|left; by eexists].
  destruct (get (catalog st) "length") as [len|e]; simpl;
    [|right; by eexists].
  destruct (strict_eq len (VInt 0)); simpl; [left; by eexists |].
  destruct (Fuse_new _ _) as [idx|e]; simpl;
    [left; by eexists | right; by eexists].
Qed.

(** The steps after a change of the catalog, on a page without active
    filters and a catalog with a document that cannot be rendered:
    the catalog is stored, and the sequence throws before its last
    step. *)
Lemma refresh_stops {A} (last : M A) (st : State) (recs : list value) :
  catalog st = VArr recs →
  Forall (λ b, b ≠ VUndef ∧ b ≠ VNull) recs →
  ¬ Forall renderable recs →
  Str.trim (searchInput (controls (page st))) = "" →
  fieldFilter (controls (page st)) = "" →
  activeTags st = [] →
  wp (exec saveBooks; exec initFuse; exec rebuildFacets;
      exec applyFiltersAndRender; last)
     (λ _ _, False)
     (λ st', persisted_books st' = Some (JSON_stringify (VArr recs))
             ∧ effects st' = effects st) st.
Proof.
  intros Hcat Hdef Hbad Hq Hf Ha.
  apply wp_bind. unfold saveBooks. apply wp_modify. rewrite Hcat.
  set (st1 := with_localStorage _ st).
  assert (persisted_books st1 = Some (JSON_stringify (VArr recs))) as Hp1.
  { unfold persisted_books, st1. simpl. apply lookup_insert_eq. }
  apply wp_bind. unfold wp at 1.
  destruct (initFuse_cases st1) as [[x ->] | [e ->]]; [|done].
  set (st2 := with_fuse x st1).
  apply wp_bind. unfold wp at 1.
  rewrite (rebuildFacets_run st2 recs) by done.
  set (st3 := with_page _ _).
  assert (catalog st3 = VArr recs) as Hcat3 by done.
  assert (Str.trim (searchInput (controls (page st3))) = ""
          ∧ fieldFilter (controls (page st3)) = ""
          ∧ activeTags st3 = []) as (Hq3 & Hf3 & Ha3).
  { unfold st3. simpl. rewrite Hf. split; [done |]. split; [|done].
    by case_bool_decide. }
  assert (persisted_books st3 = Some (JSON_stringify (VArr recs))
          ∧ effects st3 = effects st) as [Hp3 He3] by done.
  clearbody st3.
  apply wp_bind. unfold wp at 1.
  pose proof (preserves_applyFiltersAndRender localStorage
                localStorage_independent st3) as Hls.
  pose proof (preserves_applyFiltersAndRender effects
                effects_independent st3) as Hef.
  destruct (pipeline_outcome st3 recs Hcat3) as [[_ Hdone] | [[e He] _]].
  - exfalso. destruct Hdone as (shown_l & cs & s & cell & Ho & Hall & _).
    apply Hbad.
    pose proof (filtered_and_sorted_complete st3 recs shown_l
                  (or_introl Hq3) Ho) as Hperm.
    rewrite List_filter_all in Hperm
      by (intros b; by apply shown_by_no_filter).
    by rewrite <- Hperm.
  - destruct (applyFiltersAndRender st3) as [[[]|e'] st4]; [done |].
    simpl in Hls, Hef. unfold persisted_books in *.
    by rewrite Hls, Hef.
Qed.

(** The record of an entry whose tags are a non-empty string cannot be
    rendered. *)
Lemma text_tags_unrenderable (source : string) (item rec : value)
    (s : string) :
  is_normalized source item rec →
  prop item "tags" = VStr s → s ≠ "" →
  ¬ renderable rec.
Proof.
  intros (id & filename & addedAt & -> & _) Htags Hs (_ & _ & xs & Hxs).
  rewrite prop_obj in Hxs. simpl in Hxs. rewrite Htags in Hxs.
  unfold or_else in Hxs. simpl in Hxs.
  rewrite bool_decide_eq_false_2 in Hxs by done. simpl in Hxs.
  by rewrite bool_decide_eq_false_2 in Hxs.
Qed.

Lemma normalized_defined (source : string) (items recs : list value) :
  Forall2 (is_normalized source) items recs →
  Forall (λ b, b ≠ VUndef ∧ b ≠ VNull) recs.
Proof.
  induction 1 as [|item rec items recs (? & ? & ? & -> & _) _ IH];
    constructor; done.
Qed.

End Unrenderable.

(** X24.  On a page without active filters, importing an array whose
    entries all carry a path but one of which has a non-empty string
    as its tags replaces the catalog by the records of the array and
    stores it, and then reports that the import failed: the document
    made of that entry cannot be rendered, so the failure alert does
    not mean that the catalog is the one from before. *)
Theorem import_fails_after_replacing `{Host}
    (st : State) (items : list value) (item : value) (s : string) :
  Str.trim (searchInput (controls (page st))) = "" →
  fieldFilter (controls (page st)) = "" →
  activeTags st = [] →
  Forall has_path items →
  item ∈ items → prop item "tags" = VStr s → s ≠ "" →
  let r := importBooksJson (Json (VArr items)) st in
  let recs := normalized_records "import" items (clock st) in
  r.1 = Done tt
  ∧ (∃ e, effects r.2 = effects st ++ [Alert (ImportFailed e)])
  ∧ catalog r.2 = VArr recs
  ∧ persisted_books r.2 = Some (JSON_stringify (VArr recs)).
Proof.
  intros Hq Hf Ha Hall Hin Htags Hs r recs.
  assert (catalog r.2 = VArr recs) as Hcat
    by by apply importBooksJson_catalog.
  subst r. rewrite importBooksJson_array in *.
  destruct (normalized_records_with_paths "import" items (clock st) Hall)
    as (t' & E & Hn).
  rewrite E in *. clear E. fold recs in Hn, Hcat |- *.
  set (st1 := with_books _ _) in *.
  assert (¬ Forall renderable recs) as Hbad.
  { intros Hr. apply list_elem_of_lookup in Hin as [i Hi].
    destruct (Forall2_lookup_l _ _ _ _ _ Hn Hi) as (rec & Hrec & Hnorm).
    apply (text_tags_unrenderable "import" item rec s Hnorm Htags Hs).
    rewrite Forall_forall in Hr. apply Hr.
    by apply list_elem_of_lookup_2 in Hrec. }
  pose proof (refresh_stops (emit (Alert ImportedOk)) st1 recs) as Hstop.
  unfold wp in Hstop. unfold try_catch in *.
  destruct ((exec saveBooks; exec initFuse; exec rebuildFacets;
             exec applyFiltersAndRender; emit (Alert ImportedOk)) st1)
    as [[[]|e] st2].
  - exfalso. apply Hstop; try done.
    + apply (catalog_new_cell (with_clock t' st)).
    + by apply (normalized_defined "import" items).
  - destruct Hstop as [Hp He]; try done.
    + apply (catalog_new_cell (with_clock t' st)).
    + by apply (normalized_defined "import" items).
    + split; [done |]. split; [|split; [done |]].
      * exists e. simpl. by rewrite He.
      * done.
Qed.

Lemma import_fails_after_replacing_witness :
  let items := [VObj [("path", VStr "books/a.pdf"); ("tags", VStr "math")]] in
  let st := Sample.st_loaded in
  let r := importBooksJson (H := Sample.host) (Json (VArr items)) st in
  let recs := normalized_records (H := Sample.host) "import" items
                (clock st) in
  r.1 = Done tt
  ∧ (∃ e, effects r.2 = effects st ++ [Alert (ImportFailed e)])
  ∧ catalog r.2 = VArr recs
  ∧ persisted_books r.2 = Some (JSON_stringify (VArr recs)).
Proof.
  apply (import_fails_after_replacing (H := Sample.host) Sample.st_loaded
           [VObj [("path", VStr "books/a.pdf"); ("tags", VStr "math")]]
           (VObj [("path", VStr "books/a.pdf"); ("tags", VStr "math")])
           "math").
  - by vm_compute.
  - by vm_compute.
  - by vm_compute.
  - repeat constructor. by exists "books/a.pdf".
  - apply elem_of_cons. by left.
  - by vm_compute.
  - done.
Defined.

(** ** What [renderBooks] leaves on the page *)

Section Rendered.

Context `{Host}.



End Rendered.





(** ** The page after a load *)

Section Boot.

Context `{Host}.



End Boot.


